(** * Outgroup assignment (cactus, [progressive/outgroup.py])

    A shallow embedding of the greedy and dynamic-programming outgroup
    selectors of [src/progressive/outgroup.py], and the properties of the
    specification stated against it.

    Conventions of the embedding.
    - Node identifiers are naturals, event names are strings.
    - Branch lengths, distances and probabilities are Python numbers; they
      are embedded as rationals [Q] (exact arithmetic, rounding of floats
      is not modelled).  Heights, thresholds and sizes are integers [Z].
    - A Python exception is a value [Raise e] of the type [result].
    - A [dict] whose iteration order is observed by the code (the distance
      tables, the adjacency of the graph) is an association list in
      iteration order; a [dict] used only through lookups is a [gmap].
    - The object state ([self]) is a record threaded through the methods. *)

From Stdlib Require Import QArith ZArith List Permutation Sorted Lqa.
From stdpp Require Import gmap strings list relations pretty.

Close Scope Q_scope.
Open Scope nat_scope.

(** ** Exceptions *)

Inductive exn :=
| AssertionError | KeyError | TypeError | IndexError | RuntimeError
| ZeroDivisionError | NameError | RecursionError | ValueError
| Diverges (* not an exception: the call does not return *).

Inductive result (A : Type) : Type :=
| Ok (a : A)
| Raise (e : exn).
Arguments Ok {A} a.
Arguments Raise {A} e.

#[global] Instance result_ret : MRet result := fun _ a => Ok a.
#[global] Instance result_bind : MBind result := fun _ _ f m =>
  match m with Ok a => f a | Raise e => Raise e end.

Definition assert (b : bool) : result unit :=
  if b then Ok tt else Raise AssertionError.

Definition from_option {A} (e : exn) (o : option A) : result A :=
  match o with Some a => Ok a | None => Raise e end.

(** [for x in l: st = f st x], stopping at the first exception. *)
Fixpoint foldM {A S} (f : S -> A -> result S) (l : list A) (s : S) : result S :=
  match l with
  | [] => Ok s
  | x :: l' => match f s x with Ok s' => foldM f l' s' | Raise e => Raise e end
  end.

(** ** The graph (a NetworkX [DiGraph]) *)

Definition node := nat.

(** The attribute dictionary of an edge: only [weight] and [info] occur. *)
Record EdgeData := { weight : option Q; info : option string }.

Definition no_data : EdgeData := {| weight := None; info := None |}.

(** [dict.update]: the attributes given override the stored ones. *)
Definition update_data (old new : EdgeData) : EdgeData :=
  {| weight := match weight new with Some w => Some w | None => weight old end;
     info := match info new with Some i => Some i | None => info old end |}.

Record DiGraph := { nodes : list node; edges : list (node * node * EdgeData) }.

Definition e_src (e : node * node * EdgeData) : node := fst (fst e).
Definition e_dst (e : node * node * EdgeData) : node := snd (fst e).
Definition e_data (e : node * node * EdgeData) : EdgeData := snd e.

Definition is_edge (u v : node) (e : node * node * EdgeData) : bool :=
  Nat.eqb (e_src e) u && Nat.eqb (e_dst e) v.

Definition has_node (g : DiGraph) (n : node) : bool :=
  existsb (Nat.eqb n) (nodes g).

Definition has_edge (g : DiGraph) (u v : node) : bool :=
  existsb (is_edge u v) (edges g).

Definition add_node (g : DiGraph) (n : node) : DiGraph :=
  if has_node g n then g else {| nodes := nodes g ++ [n]; edges := edges g |}.

(** [G.add_edge(u, v, **attr)]: both end points become nodes; an edge that
    is already there keeps its place and has its attributes updated. *)
Definition add_edge (g : DiGraph) (u v : node) (d : EdgeData) : DiGraph :=
  let g' := add_node (add_node g u) v in
  if has_edge g' u v then
    {| nodes := nodes g';
       edges := map (fun e => if is_edge u v e then (u, v, update_data (e_data e) d) else e)
                    (edges g') |}
  else {| nodes := nodes g'; edges := edges g' ++ [(u, v, d)] |}.

(** [G.remove_edge(u, v)].  NetworkX raises when the edge is absent; the
    only call of the source removes the edge it has just added. *)
Definition remove_edge (g : DiGraph) (u v : node) : DiGraph :=
  {| nodes := nodes g; edges := List.filter (fun e => negb (is_edge u v e)) (edges g) |}.

(** [G.remove_node(n)]: the node and every edge at it. *)
Definition remove_node (g : DiGraph) (n : node) : DiGraph :=
  {| nodes := List.filter (fun m => negb (Nat.eqb m n)) (nodes g);
     edges := List.filter (fun e => negb (Nat.eqb (e_src e) n) && negb (Nat.eqb (e_dst e) n))
                     (edges g) |}.

Definition out_edges (g : DiGraph) (n : node) : list (node * node) :=
  map fst (List.filter (fun e => Nat.eqb (e_src e) n) (edges g)).

Definition in_edges (g : DiGraph) (n : node) : list (node * node) :=
  map fst (List.filter (fun e => Nat.eqb (e_dst e) n) (edges g)).

(** [G[v].items()]: successors with the edge weight, 1 when unset. *)
Definition succ_weights (g : DiGraph) (v : node) : list (node * Q) :=
  map (fun e => (e_dst e, match weight (e_data e) with Some w => w | None => 1%Q end))
      (List.filter (fun e => Nat.eqb (e_src e) v) (edges g)).

(** [NX.Graph(dag)]: the undirected graph on the same nodes, stored with
    both orientations of every edge. *)
Definition Graph (g : DiGraph) : DiGraph :=
  fold_left (fun acc e => add_edge (add_edge acc (e_src e) (e_dst e) (e_data e))
                                   (e_dst e) (e_src e) (e_data e))
            (edges g) {| nodes := nodes g; edges := [] |}.

(** The edge relation and acyclicity, as propositions. *)
Definition edge_rel (g : DiGraph) (u v : node) : Prop := has_edge g u v = true.

Definition acyclic (g : DiGraph) : Prop := forall n, ~ tc (edge_rel g) n n.

(** ** [NX.is_directed_acyclic_graph]

    NetworkX answers by attempting a topological sort.  The embedding peels
    off, round after round, a node without a predecessor among the nodes
    that are left; the graph is a DAG when no node is left over. *)

Definition no_pred_in (es : list (node * node * EdgeData)) (rest : list node) (v : node) : bool :=
  forallb (fun e => negb (Nat.eqb (e_dst e) v && existsb (Nat.eqb (e_src e)) rest)) es.

Fixpoint peel (fuel : nat) (es : list (node * node * EdgeData)) (rest : list node) : bool :=
  match rest with
  | [] => true
  | _ :: _ =>
    match fuel with
    | O => false
    | S fuel' =>
      match List.find (no_pred_in es rest) rest with
      | None => false
      | Some v => peel fuel' es (List.filter (fun m => negb (Nat.eqb m v)) rest)
      end
    end
  end.

(** Edges are always between nodes of the graph in NetworkX; the end points
    are added to the node list to make the check total on any record. *)
Definition all_nodes (g : DiGraph) : list node :=
  nodes g ++ map e_src (edges g) ++ map e_dst (edges g).

Definition is_directed_acyclic_graph (g : DiGraph) : bool :=
  peel (length (all_nodes g)) (edges g) (all_nodes g).

(** ** Shortest path lengths ([all_pairs_dijkstra_path_length])

    NetworkX runs Dijkstra's algorithm from every node: [fringe] is a heap
    of [(distance, node)] tuples, [seen] the tentative and [dist] the final
    distances.  The heap is embedded as a list kept sorted by the tuple
    order, so that [heappop] is the head of the list. *)

Definition Qltb (a b : Q) : bool := negb (Qle_bool b a).

Definition tuple_lt (a b : Q * node) : bool :=
  Qltb (fst a) (fst b) || (Qeq_bool (fst a) (fst b) && Nat.ltb (snd a) (snd b)).

Fixpoint heappush (fringe : list (Q * node)) (x : Q * node) : list (Q * node) :=
  match fringe with
  | [] => [x]
  | y :: fringe' => if tuple_lt x y then x :: y :: fringe' else y :: heappush fringe' x
  end.

Fixpoint assoc {A} (k : node) (l : list (node * A)) : option A :=
  match l with
  | [] => None
  | (k', a) :: l' => if Nat.eqb k k' then Some a else assoc k l'
  end.

Definition mem_assoc {A} (k : node) (l : list (node * A)) : bool :=
  match assoc k l with Some _ => true | None => false end.

(** [seen[w] = d]: a dict assignment keeps the position of a key that is
    already there. *)
Fixpoint set_assoc {A} (k : node) (a : A) (l : list (node * A)) : list (node * A) :=
  match l with
  | [] => [(k, a)]
  | (k', a') :: l' => if Nat.eqb k k' then (k, a) :: l' else (k', a') :: set_assoc k a l'
  end.

(** The body of [for w, edgedata in G[v].items()]. *)
Definition relax (dist : list (node * Q)) (d : Q)
    (acc : list (node * Q) * list (Q * node)) (wq : node * Q)
    : result (list (node * Q) * list (Q * node)) :=
  let '(seen, fringe) := acc in
  let '(w, wt) := wq in
  let vw_dist := (d + wt)%Q in
  match assoc w dist with
  | Some dw => if Qltb vw_dist dw then Raise ValueError else Ok (seen, fringe)
  | None =>
    match assoc w seen with
    | Some sw =>
      if Qltb vw_dist sw then Ok (set_assoc w vw_dist seen, heappush fringe (vw_dist, w))
      else Ok (seen, fringe)
    | None => Ok (set_assoc w vw_dist seen, heappush fringe (vw_dist, w))
    end
  end.

Fixpoint dijkstra_loop (fuel : nat) (g : DiGraph)
    (dist seen : list (node * Q)) (fringe : list (Q * node)) : result (list (node * Q)) :=
  match fringe with
  | [] => Ok dist
  | (d, v) :: fringe' =>
    match fuel with
    | O => Raise RuntimeError
    | S fuel' =>
      if mem_assoc v dist then dijkstra_loop fuel' g dist seen fringe'
      else
        let dist' := dist ++ [(v, d)] in
        match foldM (relax dist' d) (succ_weights g v) (seen, fringe') with
        | Ok (seen', fringe'') => dijkstra_loop fuel' g dist' seen' fringe''
        | Raise e => Raise e
        end
    end
  end.

(** Every pass of the loop pops one tuple, and at most one tuple is pushed
    for the source and for every edge: [2 + |E|] passes always suffice. *)
Definition single_source_dijkstra_path_length (g : DiGraph) (source : node)
    : result (list (node * Q)) :=
  dijkstra_loop (2 + length (edges g)) g [] [(source, 0%Q)] [(0%Q, source)].

Definition dtable := list (node * list (node * Q)).

Definition all_pairs_dijkstra_path_length (g : DiGraph) : result dtable :=
  foldM (fun paths n =>
           match single_source_dijkstra_path_length g n with
           | Ok d => Ok (set_assoc n d paths)
           | Raise e => Raise e
           end) (nodes g) [].

(** ** The tree view ([MultiCactusTree]) *)

(** Modelled from the spec: the class [MultiCactusTree] is not among the
    sources.  Section 2 of the specification describes the tree view as
    read-only access to node identity and name, children, leaf status,
    the root and a breadth-first traversal; the fields [nxDg], [rootId]
    and [subtreeRoots] are the ones [GreedyOutgroup.importTree] reads. *)
Record MultiCactusTree := {
  nxDg : DiGraph;
  rootId : node;
  subtreeRoots : list node;
  getName : node -> string
}.

(** Modelled from the spec: the children of a node, in edge order. *)
Definition getChildren (t : MultiCactusTree) (n : node) : list node :=
  map snd (out_edges (nxDg t) n).

(** Modelled from the spec: a leaf is a node without children. *)
Definition isLeaf (t : MultiCactusTree) (n : node) : bool :=
  match getChildren t n with [] => true | _ :: _ => false end.

Fixpoint bfs (fuel : nat) (t : MultiCactusTree) (queue : list node) : list node :=
  match fuel with
  | O => []
  | S fuel' =>
    match queue with
    | [] => []
    | x :: queue' => x :: bfs fuel' t (queue' ++ getChildren t x)
    end
  end.

(** Modelled from the spec: the breadth-first traversal of the subtree of a
    node, the node itself first.  A tree visits every node at most once. *)
Definition breadthFirstTraversal (t : MultiCactusTree) (n : node) : list node :=
  bfs (length (all_nodes (nxDg t))) t [n].

(** ** [GreedyOutgroup] *)

(** The state of the object.  [ogMap] is a [defaultdict(list)]: a key that
    is absent reads as the empty list. *)
Record GreedyOutgroup := {
  dag : DiGraph;
  dm : dtable;
  dmDirected : dtable;
  root : node;
  ogMap : gmap string (list (string * Q));
  mcTree : MultiCactusTree;
  candidateMap : gmap string bool
}.

Definition mem_node (n : node) (l : list node) : bool := existsb (Nat.eqb n) l.

(** [stripNonEvents(self, id, subtreeRoots)], on the graph [self.dag].
    [in_edges] is a method of the graph: the subscript in
    [self.dag.in_edges[0][0]] raises [TypeError], so [parent] is only ever
    [None]; NetworkX refuses [None] as a node ([ValueError]). *)
Fixpoint stripNonEvents (fuel : nat) (dag : DiGraph) (id : node) (subtreeRoots : list node)
    : result DiGraph :=
  match fuel with
  | O => Raise RecursionError
  | S fuel' =>
    let children := map snd (out_edges dag id) in
    let parentCount := length (in_edges dag id) in
    _ ← assert (parentCount <=? 1);
    parent ← (if parentCount =? 1 then Raise TypeError else Ok (@None node));
    if negb (mem_node id subtreeRoots) && (1 <=? length children) then
      _ ← assert (parentCount =? 1);
      let dag1 := remove_node dag id in
      foldM (fun d child =>
               p ← from_option ValueError parent;
               stripNonEvents fuel' (add_edge d p child no_data) child subtreeRoots)
            children dag1
    else Ok dag
  end.

(** [importTree(self, mcTree)] *)
Definition importTree (t : MultiCactusTree) : result GreedyOutgroup :=
  dag' ← stripNonEvents (S (length (all_nodes (nxDg t)))) (nxDg t) (rootId t) (subtreeRoots t);
  dmDirected' ← all_pairs_dijkstra_path_length dag';
  let graph := Graph dag' in
  dm' ← all_pairs_dijkstra_path_length graph;
  Ok {| dag := dag'; dm := dm'; dmDirected := dmDirected'; root := rootId t;
        ogMap := ∅; mcTree := t; candidateMap := ∅ |}.

(** [onSamePath(self, source, sink)] *)
Definition onSamePath (dmDirected : dtable) (source sink : node) : bool :=
  match assoc source dmDirected with
  | Some row => mem_assoc sink row
  | None => false
  end
  || match assoc sink dmDirected with
     | Some row => mem_assoc source row
     | None => false
     end.

(** [heightTable(self, node, htable)]: the recursion follows the edges of
    [self.dag]; on a cyclic graph Python exhausts its stack. *)
Fixpoint heightTable (fuel : nat) (dag : DiGraph) (n : node) (htable : gmap node Z)
    : result (gmap node Z) :=
  match fuel with
  | O => Raise RecursionError
  | S fuel' =>
    let children := map snd (out_edges dag n) in
    match children with
    | [] => Ok (<[n := 0%Z]> htable)
    | c :: cs =>
      ht ← foldM (fun ht i => heightTable fuel' dag i ht) children htable;
      hs ← foldM (fun acc i => h ← from_option KeyError (ht !! i); Ok (acc ++ [h])) children [];
      Ok (<[n := (fold_right Z.max (hd 0%Z hs) hs + 1)%Z]> ht)
    end
  end.

(** [inCandidateSet(self, node, candidateChildFrac)]; the memo table
    [self.candidateMap] is passed in and returned. *)
Definition inCandidateSet (t : MultiCactusTree) (cmap : gmap string bool)
    (n : node) (candidateChildFrac : Q) : bool * gmap string bool :=
  if size cmap =? 0 then (true, cmap)
  else
    match cmap !! getName t n with
    | Some b => (b, cmap)
    | None =>
      let children := breadthFirstTraversal t n in
      let leaves := List.filter (isLeaf t) children in
      let candidateLeaves :=
        length (List.filter (fun leaf => bool_decide (is_Some (cmap !! getName t leaf))) leaves) in
      if length leaves =? 0 then (false, <[getName t n := false]> cmap)
      else
        let frac := (inject_Z (Z.of_nat candidateLeaves) / inject_Z (Z.of_nat (length leaves)))%Q in
        if Qle_bool candidateChildFrac frac then (true, <[getName t n := true]> cmap)
        else (false, <[getName t n := false]> cmap)
    end.

(** [sorted(l, key=...)]: a stable sort; an element is placed before the
    first element of the sorted tail whose key is not smaller. *)
Fixpoint insert_by {A} (key : A -> Q) (x : A) (l : list A) : list A :=
  match l with
  | [] => [x]
  | y :: l' => if Qle_bool (key x) (key y) then x :: y :: l' else y :: insert_by key x l'
  end.

Fixpoint sorted {A} (key : A -> Q) (l : list A) : list A :=
  match l with
  | [] => []
  | x :: l' => insert_by key x (sorted key l')
  end.

(** The parameters of [greedy]. *)
Record GreedyParams := {
  threshold : option Z;
  candidateSet : option (gset string);
  candidateChildFrac : Q;
  maxNumOutgroups : Z
}.

(** The state of the main loop: the object and the locals [finished] and
    [htable]. *)
Record GreedyLoop := {
  self : GreedyOutgroup;
  finished : gset node;
  htable : gmap node Z
}.

Definition set_dag (s : GreedyOutgroup) (d : DiGraph) : GreedyOutgroup :=
  {| dag := d; dm := dm s; dmDirected := dmDirected s; root := root s;
     ogMap := ogMap s; mcTree := mcTree s; candidateMap := candidateMap s |}.

Definition set_ogMap (s : GreedyOutgroup) (m : gmap string (list (string * Q))) : GreedyOutgroup :=
  {| dag := dag s; dm := dm s; dmDirected := dmDirected s; root := root s;
     ogMap := m; mcTree := mcTree s; candidateMap := candidateMap s |}.

Definition set_candidateMap (s : GreedyOutgroup) (m : gmap string bool) : GreedyOutgroup :=
  {| dag := dag s; dm := dm s; dmDirected := dmDirected s; root := root s;
     ogMap := ogMap s; mcTree := mcTree s; candidateMap := m |}.

(** The pairs [(dist, (source, sink))] away from the root, in the iteration
    order of [self.dm], sorted by distance. *)
Definition orderedPairs (s : GreedyOutgroup) : list (Q * (node * node)) :=
  sorted fst
    (concat (map (fun row : node * list (node * Q) =>
                    let source := fst row in
                    concat (map (fun sd : node * Q =>
                                   let sink := fst sd in
                                   if negb (Nat.eqb source (root s)) && negb (Nat.eqb sink (root s))
                                   then [(snd sd, (source, sink))] else [])
                                (snd row)))
                 (dm s))).

Definition outgroup_data (dist : Q) : EdgeData :=
  {| weight := Some dist; info := Some "outgroup"%string |}.

(** [dict(l)[k]]: the last pair with the key wins. *)
Fixpoint dict_get (k : string) (l : list (string * Q)) : option Q :=
  match l with
  | [] => None
  | (k', d) :: l' =>
    match dict_get k l' with
    | Some d' => Some d'
    | None => if String.eqb k k' then Some d else None
    end
  end.

Definition mem_name (k : string) (l : list string) : bool := existsb (String.eqb k) l.

(** [threshold is not None and htable[sink] - htable[source] + 1 > threshold] *)
Definition exceeds_threshold (threshold : option Z) (htable : gmap node Z)
    (source sink : node) : result bool :=
  match threshold with
  | None => Ok false
  | Some t =>
    hk ← from_option KeyError (htable !! sink);
    hs ← from_option KeyError (htable !! source);
    Ok (t <? hk - hs + 1)%Z
  end.

(** The body of [for candidate in orderedPairs]. *)
Definition greedy_step (p : GreedyParams) (st : GreedyLoop) (candidate : Q * (node * node))
    : result GreedyLoop :=
  let source := fst (snd candidate) in
  let sink := snd (snd candidate) in
  let s := self st in
  let sourceName := getName (mcTree s) source in
  let sinkName := getName (mcTree s) sink in
  let dist := fst candidate in
  (* skip leaves (as sources) *)
  let finished1 :=
    if length (out_edges (dag s) source) =? 0 then {[source]} ∪ finished st else finished st in
  (* skip nodes that were already finished in a previous run *)
  let finished2 :=
    match ogMap s !! sourceName with
    | Some l => if (maxNumOutgroups p <=? Z.of_nat (length l))%Z
                then {[source]} ∪ finished1 else finished1
    | None => finished1
    end in
  let '(isCand, cmap) := inCandidateSet (mcTree s) (candidateMap s) sink (candidateChildFrac p) in
  let s1 := set_candidateMap s cmap in
  let skip := Ok {| self := s1; finished := finished2; htable := htable st |} in
  if negb isCand then skip
  else
    over ← exceeds_threshold (threshold p) (htable st) source sink;
    if over : bool then skip
    else if negb (bool_decide (source ∈ finished2)) && negb (onSamePath (dmDirected s) source sink)
    then
      let dag1 := add_edge (dag s1) source sink (outgroup_data dist) in
      if is_directed_acyclic_graph dag1 then
        hs ← from_option KeyError (htable st !! source);
        hk ← from_option KeyError (htable st !! sink);
        let htable' := <[source := Z.max hs (hk + 1)]> (htable st) in
        let existing := default [] (ogMap s !! sourceName) in
        if mem_name sinkName (map fst existing) then
          existingOutgroupDist ← from_option KeyError (dict_get sinkName existing);
          _ ← assert (Qeq_bool existingOutgroupDist dist);
          Ok {| self := set_ogMap (set_dag s1 dag1) (<[sourceName := existing]> (ogMap s));
                finished := finished2; htable := htable' |}
        else
          let l := existing ++ [(sinkName, dist)] in
          Ok {| self := set_ogMap (set_dag s1 dag1) (<[sourceName := l]> (ogMap s));
                finished := if (maxNumOutgroups p <=? Z.of_nat (length l))%Z
                            then {[source]} ∪ finished2 else finished2;
                htable := htable' |}
      else
        Ok {| self := set_dag s1 (remove_edge dag1 source sink);
              finished := finished2; htable := htable st |}
    else skip.

(** The state in which the loop starts. *)
Definition greedy_init (p : GreedyParams) (s : GreedyOutgroup) : result GreedyLoop :=
  let cmap := match candidateSet p with
              | Some cs => gset_to_gmap true cs
              | None => ∅
              end in
  ht ← heightTable (S (length (all_nodes (dag s)))) (dag s) (root s) ∅;
  Ok {| self := set_candidateMap s cmap; finished := ∅; htable := ht |}.

Definition greedy_loop (p : GreedyParams) (pairs : list (Q * (node * node))) (st : GreedyLoop)
    : result GreedyLoop :=
  foldM (greedy_step p) pairs st.

(** [greedy(self, threshold, candidateSet, candidateChildFrac, maxNumOutgroups)] *)
Definition greedy (p : GreedyParams) (s : GreedyOutgroup) : result GreedyOutgroup :=
  st0 ← greedy_init p s;
  st ← greedy_loop p (orderedPairs s) st0;
  Ok (set_ogMap (self st) (sorted snd <$> ogMap (self st))).

(** No edge carries a negative weight. *)
Definition weight_ok (d : EdgeData) : bool :=
  match weight d with Some w => Qle_bool 0 w | None => true end.

Definition nonneg_weights (g : DiGraph) : bool :=
  forallb (fun e => weight_ok (e_data e)) (edges g).

(** The same parameters with another threshold. *)
Definition with_threshold (t : option Z) (p : GreedyParams) : GreedyParams :=
  {| threshold := t; candidateSet := candidateSet p;
     candidateChildFrac := candidateChildFrac p; maxNumOutgroups := maxNumOutgroups p |}.

(** [t1] is at most [t2], an unset threshold being the largest. *)
Definition threshold_le (t1 t2 : option Z) : Prop :=
  match t1, t2 with
  | Some a, Some b => (a <= b)%Z
  | _, None => True
  | None, Some _ => False
  end.

(** ** [DynamicOutgroup] *)

(** Modelled from the spec: further accessors of the tree view that the
    class [MultiCactusTree] (not among the sources) provides: the parent of
    a node, the node of a name, the branch length of an edge, the pre-order
    traversal, and the two operations [removeEdge] and [reroot] by which
    section 4.6 builds "a working copy of the tree rooted at [a]". *)
Definition getParent (t : MultiCactusTree) (n : node) : option node :=
  match in_edges (nxDg t) n with
  | [] => None
  | (p, _) :: _ => Some p
  end.

Definition hasParent (t : MultiCactusTree) (n : node) : bool :=
  match getParent t n with Some _ => true | None => false end.

(** Modelled from the spec: the node that carries a name ([KeyError]
    when there is none). *)
Definition getNodeId (t : MultiCactusTree) (name : string) : result node :=
  from_option KeyError (List.find (fun n => String.eqb (getName t n) name) (nodes (nxDg t))).

Definition edge_data (g : DiGraph) (u v : node) : option EdgeData :=
  option_map e_data (List.find (is_edge u v) (edges g)).

(** Modelled from the spec: the branch length of an edge, [None] when the
    edge carries none. *)
Definition getWeight (t : MultiCactusTree) (parent child : node) : option Q :=
  match edge_data (nxDg t) parent child with
  | Some d => weight d
  | None => None
  end.

Definition set_nxDg (t : MultiCactusTree) (g : DiGraph) : MultiCactusTree :=
  {| nxDg := g; rootId := rootId t; subtreeRoots := subtreeRoots t; getName := getName t |}.

(** Modelled from the spec: [removeEdge(parent, child)]. *)
Definition removeEdge (t : MultiCactusTree) (parent child : node) : MultiCactusTree :=
  set_nxDg t (remove_edge (nxDg t) parent child).

(** The edges from the old root down to [n] are turned around, the
    topmost first. *)
Fixpoint turn_path (fuel : nat) (g : DiGraph) (n : node) : DiGraph :=
  match fuel with
  | O => g
  | S fuel' =>
    match in_edges g n with
    | [] => g
    | (p, _) :: _ =>
      let g' := turn_path fuel' g p in
      match edge_data g' p n with
      | Some d => add_edge (remove_edge g' p n) n p d
      | None => g'
      end
    end
  end.

(** Modelled from the spec: [reroot(newRoot)], the same undirected tree
    with [newRoot] as its root. *)
Definition reroot (t : MultiCactusTree) (newRoot : node) : MultiCactusTree :=
  {| nxDg := turn_path (length (all_nodes (nxDg t))) (nxDg t) newRoot;
     rootId := newRoot; subtreeRoots := subtreeRoots t; getName := getName t |}.

Fixpoint preorder (fuel : nat) (t : MultiCactusTree) (n : node) : list node :=
  match fuel with
  | O => []
  | S fuel' => n :: concat (map (preorder fuel' t) (getChildren t n))
  end.

(** Modelled from the spec: the pre-order traversal from the root. *)
Definition preOrderTraversal (t : MultiCactusTree) : list node :=
  preorder (length (all_nodes (nxDg t))) t (rootId t).

(** The named tuples [SeqInfo] and [DPEntry]. *)
Record SeqInfo := { count : Z; totalLen : Z }.

Record DPEntry := { score : Q; solution : list node }.

(** The attributes that [__dpInit] sets up for one ancestor. *)
Record DPScratch := {
  dpTree : MultiCactusTree;
  rootSeqInfo : SeqInfo;
  branchProbs : gmap node Q;
  dpTable : gmap node (list DPEntry)
}.

Definition set_dpTable (s : DPScratch) (tbl : gmap node (list DPEntry)) : DPScratch :=
  {| dpTree := dpTree s; rootSeqInfo := rootSeqInfo s; branchProbs := branchProbs s;
     dpTable := tbl |}.

(** A value of the outgroup map: the pairs written by the greedy assigner
    or the list of leaves written by [compute]. *)
Inductive OgValue :=
| OgPairs (l : list (string * Q))
| OgNodes (l : list node).

Record DynamicOutgroup := {
  d_dag : DiGraph;
  d_dm : dtable;
  d_dmDirected : dtable;
  d_root : node;
  d_ogMap : gmap string OgValue;
  d_mcTree : MultiCactusTree;
  sequenceInfo : gmap node SeqInfo;
  numOG : nat;
  defaultBranchLength : Q;
  dp : DPScratch
}.

Definition set_dp (s : DynamicOutgroup) (x : DPScratch) : DynamicOutgroup :=
  {| d_dag := d_dag s; d_dm := d_dm s; d_dmDirected := d_dmDirected s; d_root := d_root s;
     d_ogMap := d_ogMap s; d_mcTree := d_mcTree s; sequenceInfo := sequenceInfo s;
     numOG := numOG s; defaultBranchLength := defaultBranchLength s; dp := x |}.

Definition set_d_ogMap (s : DynamicOutgroup) (m : gmap string OgValue) : DynamicOutgroup :=
  {| d_dag := d_dag s; d_dm := d_dm s; d_dmDirected := d_dmDirected s; d_root := d_root s;
     d_ogMap := m; d_mcTree := d_mcTree s; sequenceInfo := sequenceInfo s;
     numOG := numOG s; defaultBranchLength := defaultBranchLength s; dp := dp s |}.

Definition set_d_dag (s : DynamicOutgroup) (g : DiGraph) : DynamicOutgroup :=
  {| d_dag := g; d_dm := d_dm s; d_dmDirected := d_dmDirected s; d_root := d_root s;
     d_ogMap := d_ogMap s; d_mcTree := d_mcTree s; sequenceInfo := sequenceInfo s;
     numOG := numOG s; defaultBranchLength := defaultBranchLength s; dp := dp s |}.

Definition set_sequenceInfo (s : DynamicOutgroup) (m : gmap node SeqInfo) : DynamicOutgroup :=
  {| d_dag := d_dag s; d_dm := d_dm s; d_dmDirected := d_dmDirected s; d_root := d_root s;
     d_ogMap := d_ogMap s; d_mcTree := d_mcTree s; sequenceInfo := m;
     numOG := numOG s; defaultBranchLength := defaultBranchLength s; dp := dp s |}.

(** *** Sequence statistics ([DynamicOutgroup.importTree]) *)

(** The file system as the method sees it: a path is a FASTA file, given
    by its records [(name, sequence)], or a directory, given by the names
    in it, or neither. *)
Inductive FsEntry :=
| FsFile (records : list (string * string))
| FsDir (entries : list string).

Definition FileSystem := string -> option FsEntry.

Definition path_join (dir f : string) : string := dir +:+ "/" +:+ f.

(** The body of [for faPath in fastaPaths]; [count, totalLen] start from 0
    for every file. *)
Definition scan_file (fs : FileSystem) (cur : option (Z * Z)) (faPath : string)
    : result (option (Z * Z)) :=
  match fs faPath with
  | Some (FsFile records) =>
    Ok (Some (fold_left (fun ct (r : string * string) =>
                           (fst ct + 1, snd ct + Z.of_nat (String.length (snd r)))%Z)
                        records (0%Z, 0%Z)))
  | _ => Raise RuntimeError
  end.

(** [while self.mcTree.hasParent(x)]: the statistics of a leaf are merged
    into every ancestor. *)
Fixpoint propagate (fuel : nat) (t : MultiCactusTree) (ct : Z * Z) (x : node)
    (info : gmap node SeqInfo) : result (gmap node SeqInfo) :=
  match getParent t x with
  | None => Ok info
  | Some x' =>
    match fuel with
    | O => Raise Diverges
    | S fuel' =>
      let info' :=
        match info !! x' with
        | None => <[x' := {| count := fst ct; totalLen := snd ct |}]> info
        | Some old => <[x' := {| count := Z.min (fst ct) (count old);
                                 totalLen := Z.max (snd ct) (totalLen old) |}]> info
        end in
      propagate fuel' t ct x' info'
    end
  end.

(** The body of [for event, inPath in seqMap.items()].  The locals [count]
    and [totalLen] live on from one event to the next; they are unbound
    until a first file has been read. *)
Definition scan_event (fs : FileSystem) (t : MultiCactusTree)
    (acc : option (Z * Z) * gmap node SeqInfo) (ev : string * string)
    : result (option (Z * Z) * gmap node SeqInfo) :=
  let '(cur, info) := acc in
  let '(event, inPath) := ev in
  n ← getNodeId t event;
  let fastaPaths := match fs inPath with
                    | Some (FsDir entries) => map (path_join inPath) entries
                    | _ => [inPath]
                    end in
  cur' ← foldM (scan_file fs) fastaPaths cur;
  ct ← from_option NameError cur';
  let info1 := <[n := {| count := fst ct; totalLen := snd ct |}]> info in
  info2 ← propagate (length (all_nodes (nxDg t))) t ct n info1;
  Ok (cur', info2).

Definition lift_ogMap (m : gmap string (list (string * Q))) : gmap string OgValue :=
  OgPairs <$> m.

(** [DynamicOutgroup(numOG).importTree(mcTree, seqMap)] *)
Definition dyn_importTree (fs : FileSystem) (numOG0 : nat) (t : MultiCactusTree)
    (seqMap : list (string * string)) : result DynamicOutgroup :=
  s ← importTree t;
  '(_, info) ← foldM (scan_event fs t) seqMap (None, ∅);
  Ok {| d_dag := dag s; d_dm := dm s; d_dmDirected := dmDirected s; d_root := root s;
        d_ogMap := lift_ogMap (ogMap s); d_mcTree := t; sequenceInfo := info;
        numOG := numOG0; defaultBranchLength := (1 # 10)%Q;
        dp := {| dpTree := t; rootSeqInfo := {| count := 0; totalLen := 0 |};
                 branchProbs := ∅; dpTable := ∅ |} |}.

(** *** The dynamic programme *)

Definition qmax (a b : Q) : Q := if Qle_bool a b then b else a.

(** [itertools.product] of [n] copies of [cset]: the tuples of length [n],
    the first component varying slowest. *)
Fixpoint product (cset : list nat) (n : nat) : list (list nat) :=
  match n with
  | O => [[]]
  | S n' => flat_map (fun x => map (cons x) (product cset n')) cset
  end.

Definition enumerate {A} (l : list A) : list (nat * A) := combine (seq 0 (length l)) l.

(** [self.dpTable[n][k]] and [self.dpTable[n][k] = e]. *)
Definition dp_get (tbl : gmap node (list DPEntry)) (n : node) (k : nat) : result DPEntry :=
  row ← from_option KeyError (tbl !! n);
  from_option IndexError (row !! k).

Definition dp_set (tbl : gmap node (list DPEntry)) (n : node) (k : nat) (e : DPEntry)
    : result (gmap node (list DPEntry)) :=
  row ← from_option KeyError (tbl !! n);
  if k <? length row then Ok (<[n := <[k := e]> row]> tbl) else Raise IndexError.

(** The body of [for childNo, childId in enumerate(children)]. *)
Definition dpChild (s : DPScratch) (scoreAlloc : list nat) (acc : Q * list node)
    (c : nat * node) : result (Q * list node) :=
  let '(lossProb, sol) := acc in
  let '(childNo, childId) := c in
  childK ← from_option IndexError (scoreAlloc !! childNo);
  e ← dp_get (dpTable s) childId childK;
  bp ← from_option KeyError (branchProbs s !! childId);
  Ok ((lossProb * (1 - bp * score e))%Q, sol ++ solution e).

(** The body of [for scoreAlloc in itertools.product(...)]. *)
Definition dpAlloc (numOG : nat) (children : list node) (n : node) (s : DPScratch)
    (scoreAlloc : list nat) : result DPScratch :=
  let csetK := list_sum scoreAlloc in
  if numOG <? csetK then Ok s
  else
    '(lossProb, sol) ← foldM (dpChild s scoreAlloc) (enumerate children) (0%Q, []);
    let consProb := (1 - lossProb)%Q in
    _ ← assert (Qle_bool 0 consProb && Qle_bool consProb 1);
    _ ← assert (length sol <=? csetK);
    cur ← dp_get (dpTable s) n csetK;
    if Qltb (score cur) consProb && (length sol =? csetK) then
      tbl ← dp_set (dpTable s) n csetK {| score := consProb; solution := sol |};
      Ok (set_dpTable s tbl)
    else Ok s.

(** [__dpNode(self, node)] *)
Definition dpNode (numOG : nat) (n : node) (s : DPScratch) : result DPScratch :=
  let children := getChildren (dpTree s) n in
  match children with
  | [] =>
    tbl ← dp_set (dpTable s) n 1 {| score := 1%Q; solution := [n] |};
    Ok (set_dpTable s tbl)
  | _ :: _ =>
    let cset := seq 0 (numOG + 1) in
    foldM (dpAlloc numOG children n) (product cset (length children)) s
  end.

(** [__dpRun(self, node)] *)
Fixpoint dpRun (fuel : nat) (numOG : nat) (n : node) (s : DPScratch) : result DPScratch :=
  match fuel with
  | O => Raise RecursionError
  | S fuel' =>
    s' ← foldM (fun s0 child => dpRun fuel' numOG child s0) (getChildren (dpTree s) n) s;
    dpNode numOG n s'
  end.

Section conservation.
(** [math.exp] on the rationals is a parameter of the embedding. *)
Variable exp : Q -> Q.

(** [__computeBranchConservation(self, node)] *)
Definition computeBranchConservation (st : DynamicOutgroup) (s : DPScratch) (n : node)
    : result Q :=
  nodeInfo ← from_option KeyError (sequenceInfo st !! n);
  if (totalLen (rootSeqInfo s) =? 0)%Z then Raise ZeroDivisionError
  else
    let rootLen := inject_Z (totalLen (rootSeqInfo s)) in
    let lenFrac := (inject_Z (totalLen nodeInfo) / rootLen)%Q in
    let pLoss := qmax 0 (1 - lenFrac) in
    let numExtraFrag := Z.max 0 (count nodeInfo - count (rootSeqInfo s)) in
    let pFrag := (inject_Z numExtraFrag / rootLen)%Q in
    let branchLength :=
      match getParent (dpTree s) n with
      | Some p =>
        match getWeight (dpTree s) p n with
        | Some b => if Qltb b 0 || Qle_bool 1 b then defaultBranchLength st else b
        | None => defaultBranchLength st
        end
      | None => defaultBranchLength st
      end in
    let jcMutProb := ((3 # 4) - (3 # 4) * exp (- branchLength))%Q in
    Ok ((1 - pLoss) * (1 - pFrag) * (1 - jcMutProb))%Q.

(** [__dpInit(self, ancestralNodeId)] *)
Definition dpInit (st : DynamicOutgroup) (ancestralNodeId : node) : result DPScratch :=
  let copy := d_mcTree st in
  rootInfo ← from_option KeyError (sequenceInfo st !! rootId copy);
  let cut := fold_left (fun t child => removeEdge t ancestralNodeId child)
                       (getChildren copy ancestralNodeId) copy in
  let tree := reroot cut ancestralNodeId in
  let s0 := {| dpTree := tree; rootSeqInfo := rootInfo; branchProbs := ∅; dpTable := ∅ |} in
  probs ← foldM (fun probs n =>
                   if hasParent tree n then
                     bp ← computeBranchConservation st s0 n;
                     Ok (<[n := bp]> probs)
                   else Ok probs)
                (preOrderTraversal tree) ∅;
  let table := fold_left (fun tbl n =>
                            <[n := replicate (numOG st + 1) {| score := 0%Q; solution := [] |}]> tbl)
                         (preOrderTraversal tree) ∅ in
  Ok {| dpTree := tree; rootSeqInfo := rootInfo; branchProbs := probs; dpTable := table |}.

(** The body of [for node in self.mcTree.breadthFirstTraversal()]. *)
Definition compute_node (st : DynamicOutgroup) (n : node) : result DynamicOutgroup :=
  if isLeaf (d_mcTree st) n then Ok st
  else
    s0 ← dpInit st n;
    s1 ← dpRun (S (length (all_nodes (nxDg (dpTree s0))))) (numOG st) n s0;
    e ← dp_get (dpTable s1) n (numOG st);
    let ogs := solution e in
    let st1 := set_d_ogMap (set_dp st s1) (<[getName (d_mcTree st) n := OgNodes ogs]> (d_ogMap st)) in
    Ok (set_d_dag st1 (fold_left (fun g og => add_edge g n og no_data) ogs (d_dag st1))).

(** [compute(self)] *)
Definition compute (st : DynamicOutgroup) : result DynamicOutgroup :=
  foldM compute_node
        (breadthFirstTraversal (d_mcTree st) (rootId (d_mcTree st)))
        (set_d_ogMap st ∅).
End conservation.

(** ** Vocabulary of the statements *)

(** [self.ogMap[name]] on the default dictionary. *)
Definition og_list (m : gmap string (list (string * Q))) (name : string) : list (string * Q) :=
  default [] (m !! name).

(** What a pass of the loop can do, for the pair [c = (dist, (source, sink))]:
    nothing to the graph and the map ([step_skip]); keep the new edge for an
    outgroup that is already recorded ([step_known]); keep the edge and
    record the outgroup ([step_new]); or take the edge out again
    ([step_reject]). *)
Inductive step_outcome (p : GreedyParams) (st : GreedyLoop) (c : Q * (node * node))
    (st' : GreedyLoop) : Prop :=
| step_skip :
    dag (self st') = dag (self st) ->
    ogMap (self st') = ogMap (self st) ->
    step_outcome p st c st'
| step_known :
    let s := self st in
    let source := fst (snd c) in
    let sink := snd (snd c) in
    let dag1 := add_edge (dag s) source sink (outgroup_data (fst c)) in
    is_directed_acyclic_graph dag1 = true ->
    dag (self st') = dag1 ->
    mem_name (getName (mcTree s) sink)
             (map fst (og_list (ogMap s) (getName (mcTree s) source))) = true ->
    ogMap (self st') =
      <[getName (mcTree s) source := og_list (ogMap s) (getName (mcTree s) source)]> (ogMap s) ->
    step_outcome p st c st'
| step_new :
    let s := self st in
    let source := fst (snd c) in
    let sink := snd (snd c) in
    let dag1 := add_edge (dag s) source sink (outgroup_data (fst c)) in
    is_directed_acyclic_graph dag1 = true ->
    dag (self st') = dag1 ->
    onSamePath (dmDirected s) source sink = false ->
    (forall l, ogMap s !! getName (mcTree s) source = Some l ->
               (Z.of_nat (length l) < maxNumOutgroups p)%Z) ->
    ogMap (self st') =
      <[getName (mcTree s) source :=
          og_list (ogMap s) (getName (mcTree s) source) ++ [(getName (mcTree s) sink, fst c)]]>
        (ogMap s) ->
    step_outcome p st c st'
| step_reject :
    let s := self st in
    let source := fst (snd c) in
    let sink := snd (snd c) in
    let dag1 := add_edge (dag s) source sink (outgroup_data (fst c)) in
    is_directed_acyclic_graph dag1 = false ->
    dag (self st') = remove_edge dag1 source sink ->
    ogMap (self st') = ogMap (self st) ->
    step_outcome p st c st'.

(** The edge relation restricted to the nodes of a list. *)
Definition edge_in (es : list (node * node * EdgeData)) (rest : list node) (u v : node) : Prop :=
  (exists d, In (u, v, d) es) /\ In u rest /\ In v rest.

(** Order of the sort keys. *)
Definition key_le {A} (key : A -> Q) (a b : A) : Prop := (key a <= key b)%Q.

Definition fst_le (a b : Q * node) : Prop := (fst a <= fst b)%Q.

(** The edges whose source is not final yet. *)
Definition pending (g : DiGraph) (dist : list (node * Q)) : nat :=
  length (List.filter (fun e => negb (mem_assoc (e_src e) dist)) (edges g)).

(** The invariant of a NetworkX graph: the end points of an edge are nodes. *)
Definition wf_graph (g : DiGraph) : bool :=
  forallb (fun e => has_node g (e_src e) && has_node g (e_dst e)) (edges g).

(** No list of the map contains its own key. *)
Definition no_self (m : gmap string (list (string * Q))) : Prop :=
  forall name d, ~ In (name, d) (og_list m name).

(** Every source of a candidate pair is on the same path as itself. *)
Definition self_paths (s : GreedyOutgroup) : Prop :=
  forall c, In c (orderedPairs s) ->
            onSamePath (dmDirected s) (fst (snd c)) (fst (snd c)) = true.

(** An entry of the table of the dynamic programme at index [k]: the
    initial entry, or a score of 1 with a solution of [k] leaves. *)
Definition entry_ok (k : nat) (e : DPEntry) : Prop :=
  (score e == 0 /\ solution e = [])%Q \/ (score e == 1 /\ length (solution e) = k)%Q.

Definition entries_ok (tbl : gmap node (list DPEntry)) : Prop :=
  forall n row k e, tbl !! n = Some row -> row !! k = Some e -> entry_ok k e.

(** Every row of the table has the entries 0 .. numOG. *)
Definition table_shape (numOG : nat) (tbl : gmap node (list DPEntry)) : Prop :=
  forall n row, tbl !! n = Some row -> length row = numOG + 1.

(** The entry 0 of node [n] has score 1 and no leaves. *)
Definition zero_entry_one (n : node) (s : DPScratch) : Prop :=
  exists e, dp_get (dpTable s) n 0 = Ok e /\ (score e == 1)%Q /\ solution e = [].

(** [v] is the parent of [u] in the tree view. *)
Definition parent_of (t : MultiCactusTree) (u v : node) : Prop := getParent t u = Some v.

(** The statistics of a FASTA file: number of records and total length. *)
Definition file_stats (records : list (string * string)) : Z * Z :=
  (Z.of_nat (length records),
   fold_right (fun r acc => (Z.of_nat (String.length (snd r)) + acc)%Z) 0%Z records).

(** Every directed path that leaves the node has fewer than [k] nodes: the
    depth of the recursion of [heightTable] at the node. *)
Inductive depth_le (g : DiGraph) : node -> nat -> Prop :=
| depth_le_S n k : (forall c, edge_rel g n c -> depth_le g c k) -> depth_le g n (S k).

(** ** Concrete inputs *)

Definition unit_edge (u v : node) : node * node * EdgeData :=
  (u, v, {| weight := Some 1%Q; info := None |}).

(** The tree [((3)1,((5)4)2)0] with unit branch lengths; a node is named by
    its number. *)
Definition ex_graph : DiGraph :=
  {| nodes := [0; 1; 2; 3; 4; 5];
     edges := [unit_edge 0 1; unit_edge 0 2; unit_edge 1 3; unit_edge 2 4; unit_edge 4 5] |}.

Definition ex_tree : MultiCactusTree :=
  {| nxDg := ex_graph; rootId := 0; subtreeRoots := [0]; getName := pretty |}.

(** Candidates are the two children of the root, by name; at most one
    outgroup per node. *)
Definition ex_params (t : option Z) : GreedyParams :=
  {| threshold := t; candidateSet := Some {[ "1"%string; "2"%string ]};
     candidateChildFrac := 2%Q; maxNumOutgroups := 1 |}.

(** No restriction on the candidates, up to two outgroups per node. *)
Definition ex_params_free (k : Z) : GreedyParams :=
  {| threshold := None; candidateSet := None; candidateChildFrac := 2%Q;
     maxNumOutgroups := k |}.

(** The number of outgroup assignments of a map, summed over the sources. *)
Definition total_assignments (m : gmap string (list (string * Q))) : nat :=
  map_fold (fun _ l acc => length l + acc) 0 m.

(** Successive runs of the assigner on the same object. *)
Definition greedy_runs (ps : list GreedyParams) (s : GreedyOutgroup) : result GreedyOutgroup :=
  foldM (fun s p => greedy p s) ps s.

Definition table_of (r : result dtable) : dtable :=
  match r with Ok t => t | Raise _ => [] end.

(** The object after [importTree] on a graph that needs no stripping. *)
Definition imported (t : MultiCactusTree) : GreedyOutgroup :=
  {| dag := nxDg t;
     dm := table_of (all_pairs_dijkstra_path_length (Graph (nxDg t)));
     dmDirected := table_of (all_pairs_dijkstra_path_length (nxDg t));
     root := rootId t; ogMap := ∅; mcTree := t; candidateMap := ∅ |}.

Definition ex_state : GreedyOutgroup := imported ex_tree.

Definition state_or (d : GreedyOutgroup) (r : result GreedyOutgroup) : GreedyOutgroup :=
  match r with Ok s => s | Raise _ => d end.

(** The object after one and after two runs with the same parameters. *)
Definition ex_state_run1 : GreedyOutgroup :=
  state_or ex_state (greedy (ex_params_free 2) ex_state).

Definition ex_state_run2 : GreedyOutgroup :=
  state_or ex_state (greedy (ex_params_free 2) ex_state_run1).

(** The chain [0 -> 1 -> 2]; only the root is flagged as a subtree root, so
    node 1 is a non-event node with a child. *)
Definition chain_graph : DiGraph :=
  {| nodes := [0; 1; 2]; edges := [unit_edge 0 1; unit_edge 1 2] |}.

Definition chain_tree : MultiCactusTree :=
  {| nxDg := chain_graph; rootId := 0; subtreeRoots := [0]; getName := pretty |}.

(** The same chain with no subtree root flagged at all. *)
Definition chain_tree_bare : MultiCactusTree :=
  {| nxDg := chain_graph; rootId := 0; subtreeRoots := []; getName := pretty |}.

(** Two separate edges [0 -> 1] and [2 -> 3]: a graph that is not connected. *)
Definition forest_graph : DiGraph :=
  {| nodes := [0; 1; 2; 3]; edges := [unit_edge 0 1; unit_edge 2 3] |}.

Definition forest_tree : MultiCactusTree :=
  {| nxDg := forest_graph; rootId := 0; subtreeRoots := [0]; getName := pretty |}.

(** The same two edges with both nodes that have a child flagged as subtree
    roots: nothing is to be stripped. *)
Definition forest_tree_events : MultiCactusTree :=
  {| nxDg := forest_graph; rootId := 0; subtreeRoots := [0; 2]; getName := pretty |}.

(** The results of a first run on [ex_tree] with threshold 1, with
    threshold 2 and without threshold. *)
Definition ex_tight : GreedyOutgroup :=
  state_or ex_state (greedy (ex_params (Some 1%Z)) ex_state).

Definition ex_loose : GreedyOutgroup :=
  state_or ex_state (greedy (ex_params (Some 2%Z)) ex_state).

Definition ex_unset : GreedyOutgroup :=
  state_or ex_state (greedy (ex_params None) ex_state).

Definition loop_or (d : GreedyLoop) (r : result GreedyLoop) : GreedyLoop :=
  match r with Ok s => s | Raise _ => d end.

(** The loop state at the start of a run with threshold 1, and after the
    pass for the pair of source 2 and sink 1. *)
Definition ex_loop : GreedyLoop :=
  loop_or {| self := ex_state; finished := ∅; htable := ∅ |}
          (greedy_init (ex_params (Some 1%Z)) ex_state).

Definition ex_loop_next : GreedyLoop :=
  loop_or ex_loop (greedy_step (ex_params (Some 1%Z)) ex_loop (2%Q, (2, 1))).

(** A tree for the dynamic programme: the root 0 has the internal child 1
    (with the leaves 3 and 4) and the leaf 2. *)
Definition branch (u v : node) (len : Q) : node * node * EdgeData :=
  (u, v, {| weight := Some len; info := None |}).

Definition dp_graph : DiGraph :=
  {| nodes := [0; 1; 2; 3; 4];
     edges := [branch 0 1 (1 # 2); branch 0 2 (1 # 4); branch 1 3 (1 # 4); branch 1 4 (1 # 4)] |}.

Definition dp_tree : MultiCactusTree :=
  {| nxDg := dp_graph; rootId := 0; subtreeRoots := [0]; getName := pretty |}.

(** The sequences of leaf 2 are in a directory of two files, those of the
    leaves 3 and 4 in one file each. *)
Definition dp_fs : FileSystem := fun p =>
  if String.eqb p "d2" then Some (FsDir ["a"; "b"])
  else if String.eqb p "d2/a" then Some (FsFile [("s1", "ACGTACGTAC")])
  else if String.eqb p "d2/b" then Some (FsFile [("s2", "ACGTA")])
  else if String.eqb p "f3" then Some (FsFile [("x", "ACGTACGT"); ("y", "AC")])
  else if String.eqb p "f4" then Some (FsFile [("x", "ACGTACGTACGT")])
  else None.

Definition dp_seqMap : list (string * string) := [("2", "d2"); ("3", "f3"); ("4", "f4")].

Definition dyn_or (d : DynamicOutgroup) (r : result DynamicOutgroup) : DynamicOutgroup :=
  match r with Ok s => s | Raise _ => d end.

Definition scratch_or (d : DPScratch) (r : result DPScratch) : DPScratch :=
  match r with Ok s => s | Raise _ => d end.

Definition dp_blank : DPScratch :=
  {| dpTree := dp_tree; rootSeqInfo := {| count := 0; totalLen := 0 |};
     branchProbs := ∅; dpTable := ∅ |}.

Definition dyn_blank : DynamicOutgroup :=
  {| d_dag := dp_graph; d_dm := []; d_dmDirected := []; d_root := 0; d_ogMap := ∅;
     d_mcTree := dp_tree; sequenceInfo := ∅; numOG := 1; defaultBranchLength := (1 # 10)%Q;
     dp := dp_blank |}.

(** The object after [importTree] with one outgroup asked for. *)
Definition dp_state : DynamicOutgroup :=
  dyn_or dyn_blank (dyn_importTree dp_fs 1 dp_tree dp_seqMap).

(** A stand-in for [math.exp]: any function does for the statements. *)
Definition dp_exp : Q -> Q := fun _ => (1 # 2)%Q.

(** The scratch state for the ancestor 1 after [__dpInit], and after
    [__dpRun]. *)
Definition dp_scratch_init : DPScratch := scratch_or dp_blank (dpInit dp_exp dp_state 1).

Definition dp_scratch_run : DPScratch :=
  scratch_or dp_blank (dpRun 6 1 1 dp_scratch_init).

(** * Properties *)

(** ** The result monad *)

Lemma bind_Ok {A B} (m : result A) (f : A -> result B) (b : B) :
  m ≫= f = Ok b -> exists a, m = Ok a /\ f a = Ok b.
Proof. destruct m as [a|e]; simpl; [eauto | discriminate]. Qed.

Lemma assert_Ok (b : bool) (u : unit) : assert b = Ok u -> b = true.
Proof. destruct b; [reflexivity | discriminate]. Qed.

Lemma from_option_Ok {A} (e : exn) (o : option A) (a : A) :
  from_option e o = Ok a -> o = Some a.
Proof. destruct o; simpl; congruence. Qed.

Lemma foldM_app {A S} (f : S -> A -> result S) (l1 l2 : list A) (s : S) :
  foldM f (l1 ++ l2) s = foldM f l1 s ≫= foldM f l2.
Proof.
  revert s. induction l1 as [|x l1 IH]; intros s; simpl; [reflexivity|].
  destruct (f s x); simpl; [apply IH | reflexivity].
Qed.

(** An invariant of the loop body is an invariant of the loop. *)
Lemma foldM_invariant {A S} (P : S -> Prop) (f : S -> A -> result S) (l : list A) :
  (forall s x s', In x l -> P s -> f s x = Ok s' -> P s') ->
  forall s s', P s -> foldM f l s = Ok s' -> P s'.
Proof.
  induction l as [|x l IH]; intros Hf s s' Hs Hrun; simpl in Hrun.
  - congruence.
  - destruct (f s x) as [s1|] eqn:E; [|discriminate].
    apply (IH (fun s0 y s0' Hy => Hf s0 y s0' (or_intror Hy)) s1 s'); [|exact Hrun].
    apply (Hf s x s1); [left; reflexivity | exact Hs | exact E].
Qed.

(** ** Edges of a modified graph *)

Lemma is_edge_true u v e : is_edge u v e = true <-> e_src e = u /\ e_dst e = v.
Proof.
  unfold is_edge. rewrite andb_true_iff, !Nat.eqb_eq. reflexivity.
Qed.

Lemma has_edge_In g u v :
  has_edge g u v = true <-> exists d, In (u, v, d) (edges g).
Proof.
  unfold has_edge. rewrite existsb_exists. split.
  - intros [[[a b] d] [Hin He]]. apply is_edge_true in He.
    unfold e_src, e_dst in He. simpl in He. destruct He as [<- <-]. eauto.
  - intros [d Hin]. exists (u, v, d). split; [exact Hin|].
    apply is_edge_true. split; reflexivity.
Qed.

Lemma edges_add_node g n : edges (add_node g n) = edges g.
Proof. unfold add_node. destruct (has_node g n); reflexivity. Qed.

Lemma existsb_map_same {A} (f : A -> bool) (h : A -> A) (l : list A) :
  (forall x, f (h x) = f x) -> existsb f (map h l) = existsb f l.
Proof.
  intros Hh. induction l as [|x l IH]; simpl; [reflexivity|]. now rewrite Hh, IH.
Qed.

Lemma has_edge_add_edge g s k d u v :
  has_edge (add_edge g s k d) u v = has_edge g u v || (Nat.eqb u s && Nat.eqb v k).
Proof.
  unfold add_edge.
  set (g' := add_node (add_node g s) k).
  assert (Hg' : edges g' = edges g) by (unfold g'; now rewrite !edges_add_node).
  assert (Hh : forall a b, has_edge g' a b = has_edge g a b)
    by (intros; unfold has_edge; now rewrite Hg').
  destruct (has_edge g' s k) eqn:E.
  - unfold has_edge at 1. simpl. rewrite Hg'.
    rewrite existsb_map_same.
    + fold (has_edge g u v).
      destruct (Nat.eqb u s && Nat.eqb v k) eqn:E2; [|now rewrite orb_false_r].
      apply andb_true_iff in E2. destruct E2 as [->%Nat.eqb_eq ->%Nat.eqb_eq].
      rewrite Hh in E. now rewrite E.
    + intros e. destruct (is_edge s k e) eqn:E3; [|reflexivity].
      apply is_edge_true in E3. destruct E3 as [<- <-]. reflexivity.
  - unfold has_edge at 1. simpl. rewrite Hg', existsb_app. simpl.
    fold (has_edge g u v). unfold is_edge, e_src, e_dst. simpl.
    now rewrite orb_false_r, (Nat.eqb_sym s u), (Nat.eqb_sym k v).
Qed.

Lemma has_edge_remove_edge g s k u v :
  has_edge (remove_edge g s k) u v = has_edge g u v && negb (Nat.eqb u s && Nat.eqb v k).
Proof.
  unfold has_edge, remove_edge. simpl.
  induction (edges g) as [|e l IH]; simpl; [reflexivity|].
  destruct (is_edge s k e) eqn:E1; simpl.
  - rewrite IH. apply is_edge_true in E1. destruct E1 as [Hs Hk].
    destruct (is_edge u v e) eqn:E2; simpl; [|reflexivity].
    apply is_edge_true in E2. destruct E2 as [Hu Hv].
    assert (Hus : Nat.eqb u s = true) by (apply Nat.eqb_eq; congruence).
    assert (Hvk : Nat.eqb v k = true) by (apply Nat.eqb_eq; congruence).
    rewrite Hus, Hvk. simpl. now rewrite andb_false_r.
  - rewrite IH. destruct (is_edge u v e) eqn:E2; simpl; [|reflexivity].
    apply is_edge_true in E2. destruct E2 as [Hu Hv].
    destruct (Nat.eqb u s && Nat.eqb v k) eqn:E3; simpl; [|reflexivity].
    apply andb_true_iff in E3. destruct E3 as [->%Nat.eqb_eq ->%Nat.eqb_eq].
    assert (is_edge s k e = true) by (apply is_edge_true; split; assumption).
    congruence.
Qed.

(** Removing the edge again leaves no edge that was not there before. *)
Lemma edge_rel_add_remove g s k d u v :
  edge_rel (remove_edge (add_edge g s k d) s k) u v -> edge_rel g u v.
Proof.
  unfold edge_rel. rewrite has_edge_remove_edge, has_edge_add_edge.
  destruct (has_edge g u v); [reflexivity|].
  simpl. destruct (Nat.eqb u s && Nat.eqb v k); discriminate.
Qed.

Lemma has_edge_remove_edge_self g s k : has_edge (remove_edge g s k) s k = false.
Proof.
  rewrite has_edge_remove_edge, !Nat.eqb_refl. simpl. apply andb_false_r.
Qed.

(** ** Acyclicity *)

Lemma tc_mono {A} (R R' : relation A) (x y : A) :
  (forall u v, R u v -> R' u v) -> tc R x y -> tc R' x y.
Proof.
  intros Hsub Hxy. induction Hxy as [x y Hxy | x y z Hxy _ IH].
  - apply tc_once, Hsub, Hxy.
  - eapply tc_l; [apply Hsub, Hxy | exact IH].
Qed.

Lemma acyclic_sub (g g' : DiGraph) :
  (forall u v, edge_rel g' u v -> edge_rel g u v) -> acyclic g -> acyclic g'.
Proof.
  intros Hsub Hg n Hn. apply (Hg n). exact (tc_mono _ _ _ _ Hsub Hn).
Qed.

Lemma tc_last {A} (R : relation A) (x y : A) : tc R x y -> exists u, R u y.
Proof. induction 1 as [x y H | x y z _ _ IH]; [eauto | exact IH]. Qed.

Lemma no_pred_in_spec es rest v :
  no_pred_in es rest v = true -> forall u, ~ edge_in es rest u v.
Proof.
  unfold no_pred_in. rewrite forallb_forall. intros H u [[d Hin] [Hu _]].
  specialize (H _ Hin). apply negb_true_iff, andb_false_iff in H.
  unfold e_dst, e_src in H. simpl in H. destruct H as [H | H].
  - now rewrite Nat.eqb_refl in H.
  - assert (existsb (Nat.eqb u) rest = true); [|congruence].
    apply existsb_exists. exists u. split; [exact Hu | apply Nat.eqb_refl].
Qed.

Lemma In_filter_neq (rest : list node) (v x : node) :
  In x (List.filter (fun m => negb (Nat.eqb m v)) rest) <-> In x rest /\ x <> v.
Proof.
  rewrite filter_In, negb_true_iff, Nat.eqb_neq. reflexivity.
Qed.

Lemma tc_avoid es rest v x y :
  (forall u, ~ edge_in es rest u v) -> tc (edge_in es rest) x y -> x <> v ->
  tc (edge_in es (List.filter (fun m => negb (Nat.eqb m v)) rest)) x y.
Proof.
  intros Hv Hxy. induction Hxy as [x y Hxy | x y z Hxy _ IH]; intros Hx.
  - apply tc_once. destruct Hxy as (Hd & Hx' & Hy).
    repeat split; [exact Hd | now apply In_filter_neq | apply In_filter_neq].
    split; [exact Hy|]. intros ->. apply (Hv x). repeat split; assumption.
  - assert (Hyv : y <> v) by (intros ->; exact (Hv x Hxy)).
    eapply tc_l; [|exact (IH Hyv)].
    destruct Hxy as (Hd & Hx' & Hy).
    repeat split; [exact Hd | now apply In_filter_neq | now apply In_filter_neq].
Qed.

Lemma peel_S fuel es r rest :
  peel (S fuel) es (r :: rest) =
  match List.find (no_pred_in es (r :: rest)) (r :: rest) with
  | None => false
  | Some v => peel fuel es (List.filter (fun m => negb (Nat.eqb m v)) (r :: rest))
  end.
Proof. reflexivity. Qed.

Lemma peel_sound fuel es rest :
  peel fuel es rest = true -> forall n, ~ tc (edge_in es rest) n n.
Proof.
  revert rest. induction fuel as [|fuel IH]; intros rest Hp n Hn.
  - destruct rest as [|r rest]; [|discriminate].
    apply tc_last in Hn. destruct Hn as (u & _ & _ & []).
  - destruct rest as [|r rest].
    + apply tc_last in Hn. destruct Hn as (u & _ & _ & []).
    + rewrite peel_S in Hp.
      destruct (List.find (no_pred_in es (r :: rest)) (r :: rest)) as [v|] eqn:Ef;
        [|discriminate].
      apply find_some in Ef. destruct Ef as [_ Hv].
      pose proof (no_pred_in_spec _ _ _ Hv) as Hnp.
      destruct (Nat.eq_dec n v) as [->|Hne].
      * destruct (tc_last _ _ _ Hn) as [u Hu]. exact (Hnp u Hu).
      * exact (IH _ Hp n (tc_avoid _ _ _ _ _ Hnp Hn Hne)).
Qed.

(** A graph that passes the check has no directed cycle. *)
Lemma is_directed_acyclic_graph_sound g :
  is_directed_acyclic_graph g = true -> acyclic g.
Proof.
  unfold is_directed_acyclic_graph. intros Hp n Hn.
  apply (peel_sound _ _ _ Hp n).
  clear Hp.
  assert (Hsub : forall u v, edge_rel g u v -> edge_in (edges g) (all_nodes g) u v).
  { intros u v Huv. apply has_edge_In in Huv. destruct Huv as [d Hd].
    unfold all_nodes. repeat split; [eauto | |].
    - apply in_or_app. right. apply in_or_app. left.
      apply (in_map e_src) in Hd. exact Hd.
    - apply in_or_app. right. apply in_or_app. right.
      apply (in_map e_dst) in Hd. exact Hd. }
  exact (tc_mono _ _ _ _ Hsub Hn).
Qed.

(** ** One pass of the greedy loop *)

Lemma greedy_step_outcome p st c st' :
  greedy_step p st c = Ok st' -> step_outcome p st c st'.
Proof.
  unfold greedy_step. intros H.
  destruct (inCandidateSet (mcTree (self st)) (candidateMap (self st)) (snd (snd c))
              (candidateChildFrac p)) as [isCand cmap] eqn:Ecand.
  destruct isCand; simpl in H.
  2:{ injection H as <-. apply step_skip; reflexivity. }
  apply bind_Ok in H. destruct H as (over & _ & H).
  destruct over.
  { injection H as <-. apply step_skip; reflexivity. }
  match type of H with
  | (if negb (bool_decide (_ ∈ ?F)) && _ then _ else _) = _ => set (fin2 := F) in *
  end.
  destruct (bool_decide (fst (snd c) ∈ fin2)) eqn:Efin; simpl in H.
  { injection H as <-. apply step_skip; reflexivity. }
  destruct (onSamePath (dmDirected (self st)) (fst (snd c)) (snd (snd c))) eqn:Epath;
    simpl in H.
  { injection H as <-. apply step_skip; reflexivity. }
  destruct (is_directed_acyclic_graph
              (add_edge (dag (self st)) (fst (snd c)) (snd (snd c)) (outgroup_data (fst c))))
    eqn:Edag.
  2:{ injection H as <-. apply step_reject; [exact Edag | reflexivity | reflexivity]. }
  apply bind_Ok in H. destruct H as (hs & _ & H).
  apply bind_Ok in H. destruct H as (hk & _ & H).
  destruct (mem_name (getName (mcTree (self st)) (snd (snd c)))
              (map fst (default [] (ogMap (self st) !! getName (mcTree (self st)) (fst (snd c))))))
    eqn:Emem.
  - apply bind_Ok in H. destruct H as (d & _ & H).
    apply bind_Ok in H. destruct H as (u & _ & H).
    injection H as <-. apply step_known; [exact Edag | reflexivity | exact Emem | reflexivity].
  - injection H as <-. apply step_new; [exact Edag | reflexivity | exact Epath | | reflexivity].
    intros l Hl. apply bool_decide_eq_false in Efin.
    unfold fin2 in Efin. rewrite Hl in Efin.
    destruct (maxNumOutgroups p <=? Z.of_nat (length l))%Z eqn:Ele.
    + exfalso. apply Efin. set_solver.
    + apply Z.leb_gt in Ele. exact Ele.
Qed.

(** A pass leaves the tables, the root and the tree alone. *)
Lemma greedy_step_frame p st c st' :
  greedy_step p st c = Ok st' ->
  dm (self st') = dm (self st) /\ dmDirected (self st') = dmDirected (self st) /\
  root (self st') = root (self st) /\ mcTree (self st') = mcTree (self st).
Proof.
  unfold greedy_step. intros H.
  destruct (inCandidateSet (mcTree (self st)) (candidateMap (self st)) (snd (snd c))
              (candidateChildFrac p)) as [isCand cmap].
  destruct isCand; simpl in H.
  2:{ injection H as <-. repeat split. }
  apply bind_Ok in H. destruct H as (over & _ & H).
  destruct over.
  { injection H as <-. repeat split. }
  match type of H with
  | (if ?b then _ else _) = _ => destruct b
  end.
  2:{ injection H as <-. repeat split. }
  match type of H with
  | (if ?b then _ else _) = _ => destruct b
  end.
  2:{ injection H as <-. repeat split. }
  apply bind_Ok in H. destruct H as (hs & _ & H).
  apply bind_Ok in H. destruct H as (hk & _ & H).
  match type of H with
  | (if ?b then _ else _) = _ => destruct b
  end.
  - apply bind_Ok in H. destruct H as (d & _ & H).
    apply bind_Ok in H. destruct H as (u & _ & H).
    injection H as <-. repeat split.
  - injection H as <-. repeat split.
Qed.

(** ** Acyclicity of the augmented graph *)

Lemma greedy_step_acyclic p st c st' :
  acyclic (dag (self st)) -> greedy_step p st c = Ok st' -> acyclic (dag (self st')).
Proof.
  intros Hac Hstep. destruct (greedy_step_outcome _ _ _ _ Hstep) as
    [Hd _ | s source sink dag1 Hok Hd _ _ | s source sink dag1 Hok Hd _ _ _
     | s source sink dag1 _ Hd _]; rewrite Hd.
  - exact Hac.
  - apply is_directed_acyclic_graph_sound, Hok.
  - apply is_directed_acyclic_graph_sound, Hok.
  - eapply acyclic_sub; [|exact Hac]. intros u v. apply edge_rel_add_remove.
Qed.

Lemma greedy_loop_acyclic p pairs st st' :
  acyclic (dag (self st)) -> greedy_loop p pairs st = Ok st' -> acyclic (dag (self st')).
Proof.
  unfold greedy_loop.
  apply (foldM_invariant (fun st => acyclic (dag (self st)))).
  intros s x s' _. apply greedy_step_acyclic.
Qed.

Lemma greedy_init_self p s st0 :
  greedy_init p s = Ok st0 ->
  dag (self st0) = dag s /\ ogMap (self st0) = ogMap s /\ dm (self st0) = dm s /\
  dmDirected (self st0) = dmDirected s /\ root (self st0) = root s /\
  mcTree (self st0) = mcTree s.
Proof.
  unfold greedy_init. intros H. apply bind_Ok in H. destruct H as (ht & _ & H).
  injection H as <-. repeat split.
Qed.

(** An edge that is already in the graph can be added without harm. *)
Lemma acyclic_add_present g u v d :
  has_edge g u v = true -> acyclic g -> acyclic (add_edge g u v d).
Proof.
  intros Huv. apply acyclic_sub. intros a b. unfold edge_rel.
  rewrite has_edge_add_edge. destruct (has_edge g a b) eqn:E; [reflexivity|]. simpl.
  intros [->%Nat.eqb_eq ->%Nat.eqb_eq]%andb_true_iff. congruence.
Qed.

(** C1.  Started on an acyclic graph (the input tree, or the graph left by
    an earlier run), the greedy assigner keeps the augmented graph free of
    directed cycles: after every pass of its loop over the candidate pairs,
    and when it returns.  A pass whose outgroup edge would close a cycle
    leaves the graph without that edge and the outgroup map as it was. *)
Theorem greedy_keeps_graph_acyclic (p : GreedyParams) (s : GreedyOutgroup)
    (Hacyclic : acyclic (dag s)) :
  (forall pre post st0 st,
      greedy_init p s = Ok st0 -> orderedPairs s = pre ++ post ->
      greedy_loop p pre st0 = Ok st -> acyclic (dag (self st))) /\
  (forall st c st',
      acyclic (dag (self st)) -> greedy_step p st c = Ok st' ->
      ~ acyclic (add_edge (dag (self st)) (fst (snd c)) (snd (snd c)) (outgroup_data (fst c))) ->
      has_edge (dag (self st')) (fst (snd c)) (snd (snd c)) = false /\
      ogMap (self st') = ogMap (self st)) /\
  (forall s', greedy p s = Ok s' -> acyclic (dag s')).
Proof.
  split; [|split].
  - intros pre post st0 st Hinit _ Hloop.
    apply (greedy_loop_acyclic p pre st0 st); [|exact Hloop].
    destruct (greedy_init_self _ _ _ Hinit) as [-> _]. exact Hacyclic.
  - intros st c st' Hac Hstep Hcyc.
    destruct (greedy_step_outcome _ _ _ _ Hstep) as
      [Hd Hm | s0 source sink dag1 Hok _ _ _ | s0 source sink dag1 Hok _ _ _ _
       | s0 source sink dag1 _ Hd Hm].
    + split; [|exact Hm]. rewrite Hd.
      destruct (has_edge (dag (self st)) (fst (snd c)) (snd (snd c))) eqn:E; [|reflexivity].
      exfalso. apply Hcyc. apply acyclic_add_present; assumption.
    + exfalso. apply Hcyc, is_directed_acyclic_graph_sound, Hok.
    + exfalso. apply Hcyc, is_directed_acyclic_graph_sound, Hok.
    + split; [|exact Hm]. rewrite Hd. apply has_edge_remove_edge_self.
  - intros s' Hrun. unfold greedy in Hrun.
    apply bind_Ok in Hrun. destruct Hrun as (st0 & Hinit & Hrun).
    apply bind_Ok in Hrun. destruct Hrun as (st & Hloop & Hrun).
    injection Hrun as <-. simpl.
    apply (greedy_loop_acyclic p (orderedPairs s) st0 st); [|exact Hloop].
    destruct (greedy_init_self _ _ _ Hinit) as [-> _]. exact Hacyclic.
Qed.

Lemma importTree_ex_tree : importTree ex_tree = Ok ex_state.
Proof. vm_compute. reflexivity. Qed.

Lemma acyclic_ex_graph : acyclic ex_graph.
Proof. apply is_directed_acyclic_graph_sound. vm_compute. reflexivity. Qed.

Lemma greedy_keeps_graph_acyclic_witness :
  acyclic (dag ex_state) /\
  (exists s', greedy (ex_params None) ex_state = Ok s' /\ acyclic (dag s')).
Proof.
  split; [exact acyclic_ex_graph|].
  eexists. split; [vm_compute; reflexivity|].
  apply (proj2 (proj2 (greedy_keeps_graph_acyclic (ex_params None) ex_state acyclic_ex_graph))).
  vm_compute. reflexivity.
Defined.

(** ** The stable sort *)

Section sorting.
Context {A : Type} (key : A -> Q).

Lemma insert_by_perm x l : Permutation (insert_by key x l) (x :: l).
Proof.
  induction l as [|y l IH]; simpl; [reflexivity|].
  destruct (Qle_bool (key x) (key y)); [reflexivity|].
  rewrite IH. apply perm_swap.
Qed.

Lemma sorted_perm l : Permutation (sorted key l) l.
Proof.
  induction l as [|x l IH]; simpl; [reflexivity|].
  rewrite insert_by_perm. now apply perm_skip.
Qed.

Lemma insert_by_sorted x l :
  StronglySorted (key_le key) l -> StronglySorted (key_le key) (insert_by key x l).
Proof.
  induction 1 as [|y l Hl IH Hy]; simpl.
  - repeat constructor.
  - destruct (Qle_bool (key x) (key y)) eqn:E.
    + apply Qle_bool_iff in E. constructor; [constructor; assumption|].
      constructor; [exact E|].
      rewrite List.Forall_forall in *. intros z Hz. specialize (Hy z Hz).
      unfold key_le in *. eapply Qle_trans; eassumption.
    + constructor; [exact IH|].
      assert (Hyx : key_le key y x).
      { unfold key_le. apply Qlt_le_weak, Qnot_le_lt. intros Hle.
        apply Qle_bool_iff in Hle. congruence. }
      rewrite List.Forall_forall in *. intros z Hz.
      apply (Permutation_in _ (insert_by_perm x l)) in Hz.
      destruct Hz as [<-|Hz]; [exact Hyx | exact (Hy z Hz)].
Qed.

Lemma sorted_sorted l : StronglySorted (key_le key) (sorted key l).
Proof.
  induction l as [|x l IH]; simpl; [constructor | now apply insert_by_sorted].
Qed.

Lemma sorted_length l : length (sorted key l) = length l.
Proof. apply Permutation_length, sorted_perm. Qed.
End sorting.

(** ** Extension of the outgroup map *)

Lemma og_list_insert (m : gmap string (list (string * Q))) k l name :
  og_list (<[k := l]> m) name = if decide (k = name) then l else og_list m name.
Proof.
  unfold og_list. rewrite lookup_insert. destruct (decide (k = name)); reflexivity.
Qed.

(** A pass of the loop appends at most one entry to one list; the list it
    appends to was shorter than [maxNumOutgroups] if it was there at all. *)
Lemma greedy_step_appends p st c st' :
  greedy_step p st c = Ok st' ->
  forall name,
    og_list (ogMap (self st')) name = og_list (ogMap (self st)) name \/
    (exists x, og_list (ogMap (self st')) name = og_list (ogMap (self st)) name ++ [x] /\
               (og_list (ogMap (self st)) name = [] \/
                (Z.of_nat (length (og_list (ogMap (self st)) name)) < maxNumOutgroups p)%Z)).
Proof.
  intros Hstep name. destruct (greedy_step_outcome _ _ _ _ Hstep) as
    [_ Hm | s source sink dag1 _ _ _ Hm | s source sink dag1 _ _ _ Hlt Hm
     | s source sink dag1 _ _ Hm]; rewrite Hm.
  - left. reflexivity.
  - left. rewrite og_list_insert. destruct (decide _) as [->|]; reflexivity.
  - rewrite og_list_insert. destruct (decide _) as [<-|]; [|left; reflexivity].
    right. eexists. split; [reflexivity|].
    unfold og_list. fold s.
    destruct (ogMap s !! getName (mcTree s) source) as [l|] eqn:E; simpl.
    + right. exact (Hlt l eq_refl).
    + left. reflexivity.
  - left. reflexivity.
Qed.



Lemma og_list_sorted (m : gmap string (list (string * Q))) name :
  og_list (sorted snd <$> m) name = sorted snd (og_list m name).
Proof.
  unfold og_list. rewrite lookup_fmap. destruct (m !! name); reflexivity.
Qed.

Lemma greedy_og_list p s s' :
  greedy p s = Ok s' ->
  exists st0 st, greedy_init p s = Ok st0 /\ greedy_loop p (orderedPairs s) st0 = Ok st /\
                 forall name, og_list (ogMap s') name = sorted snd (og_list (ogMap (self st)) name).
Proof.
  unfold greedy. intros H.
  apply bind_Ok in H. destruct H as (st0 & Hinit & H).
  apply bind_Ok in H. destruct H as (st & Hloop & H).
  injection H as <-. exists st0, st. repeat split; [exact Hinit | exact Hloop |].
  intros name. simpl. apply og_list_sorted.
Qed.



(** ** Association lists and distance tables *)

Lemma assoc_In {A} k (l : list (node * A)) a : assoc k l = Some a -> In (k, a) l.
Proof.
  induction l as [|[k' a'] l IH]; simpl; [discriminate|].
  destruct (Nat.eqb k k') eqn:E.
  - apply Nat.eqb_eq in E. subst. intros [= ->]. now left.
  - intros H. right. exact (IH H).
Qed.

Lemma In_mem_assoc {A} k (l : list (node * A)) a : In (k, a) l -> mem_assoc k l = true.
Proof.
  unfold mem_assoc. induction l as [|[k' a'] l IH]; simpl; [intros []|].
  intros [[= -> ->] | H].
  - now rewrite Nat.eqb_refl.
  - destruct (Nat.eqb k k'); [reflexivity | exact (IH H)].
Qed.

Lemma mem_assoc_true {A} k (l : list (node * A)) :
  mem_assoc k l = true <-> exists a, assoc k l = Some a.
Proof.
  unfold mem_assoc. destruct (assoc k l) as [a|]; split; eauto; try discriminate.
  intros [a [=]].
Qed.

Lemma assoc_app {A} k (l1 l2 : list (node * A)) :
  assoc k (l1 ++ l2) = match assoc k l1 with Some a => Some a | None => assoc k l2 end.
Proof.
  induction l1 as [|[k' a'] l1 IH]; simpl; [reflexivity|].
  destruct (Nat.eqb k k'); [reflexivity | exact IH].
Qed.

Lemma assoc_set_assoc {A} k (a : A) l k' :
  assoc k' (set_assoc k a l) = if Nat.eqb k' k then Some a else assoc k' l.
Proof.
  induction l as [|[k0 a0] l IH]; simpl.
  - destruct (Nat.eqb k' k); reflexivity.
  - destruct (Nat.eqb k k0) eqn:E; simpl.
    + apply Nat.eqb_eq in E. subst k0. destruct (Nat.eqb k' k); reflexivity.
    + rewrite IH. destruct (Nat.eqb k' k0) eqn:E'; [|reflexivity].
      apply Nat.eqb_eq in E'. subst k0. rewrite Nat.eqb_sym, E. reflexivity.
Qed.

(** The final distances only grow: an entry of [dist] stays as it is. *)
Lemma dijkstra_loop_keeps fuel g dist seen fringe d k a :
  dijkstra_loop fuel g dist seen fringe = Ok d ->
  assoc k dist = Some a -> assoc k d = Some a.
Proof.
  revert dist seen fringe. induction fuel as [|fuel IH]; intros dist seen fringe Hrun Hk.
  - destruct fringe as [|[d0 v] fringe]; simpl in Hrun; [congruence | discriminate].
  - destruct fringe as [|[d0 v] fringe]; simpl in Hrun; [congruence|].
    destruct (mem_assoc v dist) eqn:Ev.
    + exact (IH _ _ _ Hrun Hk).
    + destruct (foldM (relax (dist ++ [(v, d0)]) d0) (succ_weights g v) (seen, fringe))
        as [[seen' fringe']|] eqn:Er; [|discriminate].
      apply (IH _ _ _ Hrun). rewrite assoc_app, Hk. reflexivity.
Qed.

Lemma dijkstra_loop_S fuel g dist seen d v fringe :
  dijkstra_loop (S fuel) g dist seen ((d, v) :: fringe) =
  if mem_assoc v dist then dijkstra_loop fuel g dist seen fringe
  else match foldM (relax (dist ++ [(v, d)]) d) (succ_weights g v) (seen, fringe) with
       | Ok (seen', fringe'') => dijkstra_loop fuel g (dist ++ [(v, d)]) seen' fringe''
       | Raise e => Raise e
       end.
Proof. reflexivity. Qed.

(** The source is at distance 0 from itself. *)
Lemma single_source_self g n row :
  single_source_dijkstra_path_length g n = Ok row -> assoc n row = Some 0%Q.
Proof.
  unfold single_source_dijkstra_path_length.
  change (2 + length (edges g)) with (S (S (length (edges g)))).
  rewrite dijkstra_loop_S. change (mem_assoc n []) with false. cbv iota.
  change ([] ++ [(n, 0%Q)]) with [(n, 0%Q)].
  destruct (foldM (relax [(n, 0%Q)] 0%Q) (succ_weights g n) ([(n, 0%Q)], []))
    as [[seen' fringe']|] eqn:Er; [|discriminate].
  intros Hrun. apply (dijkstra_loop_keeps _ _ _ _ _ _ _ _ Hrun).
  simpl. now rewrite Nat.eqb_refl.
Qed.

(** The table has a row for every node of the graph, and only for them;
    the row of a node is the result of Dijkstra's algorithm from it. *)
Lemma all_pairs_rows g tbl :
  all_pairs_dijkstra_path_length g = Ok tbl ->
  (forall n, mem_assoc n tbl = true <-> In n (nodes g)) /\
  (forall n row, assoc n tbl = Some row -> single_source_dijkstra_path_length g n = Ok row).
Proof.
  unfold all_pairs_dijkstra_path_length.
  set (f := fun paths n => match single_source_dijkstra_path_length g n with
                           | Ok d => Ok (set_assoc n d paths) | Raise e => Raise e end).
  assert (Hgen : forall l acc tbl',
             foldM f l acc = Ok tbl' ->
             (forall n row, assoc n acc = Some row ->
                            single_source_dijkstra_path_length g n = Ok row) ->
             (forall n, mem_assoc n tbl' = true <-> mem_assoc n acc = true \/ In n l) /\
             (forall n row, assoc n tbl' = Some row ->
                            single_source_dijkstra_path_length g n = Ok row)).
  { induction l as [|x l IH]; intros acc tbl' Hrun Hacc; simpl in Hrun.
    - injection Hrun as <-. split; [|exact Hacc]. intros n. simpl. tauto.
    - unfold f at 1 in Hrun.
      destruct (single_source_dijkstra_path_length g x) as [d|] eqn:Ex; [|discriminate].
      destruct (IH _ _ Hrun) as [Hk Hr].
      + intros n row. rewrite assoc_set_assoc.
        destruct (Nat.eqb n x) eqn:E; [|apply Hacc].
        apply Nat.eqb_eq in E. subst n. intros [= <-]. exact Ex.
      + split; [|exact Hr]. intros n. rewrite Hk. unfold mem_assoc.
        rewrite assoc_set_assoc. simpl.
        destruct (Nat.eqb n x) eqn:E.
        * apply Nat.eqb_eq in E. subst n. tauto.
        * apply Nat.eqb_neq in E. split; [intros [H|H]; tauto|].
          intros [H|[H|H]]; [tauto | congruence | tauto]. }
  intros Hrun. destruct (Hgen _ _ _ Hrun) as [Hk Hr].
  - intros n row. discriminate.
  - split; [|exact Hr]. intros n. rewrite Hk. unfold mem_assoc. simpl.
    split; [intros [H|H]; [discriminate | exact H] | tauto].
Qed.

Lemma all_pairs_self g tbl n :
  all_pairs_dijkstra_path_length g = Ok tbl -> In n (nodes g) ->
  exists row, assoc n tbl = Some row /\ assoc n row = Some 0%Q.
Proof.
  intros Htbl Hn. destruct (all_pairs_rows _ _ Htbl) as [Hk Hr].
  apply Hk, mem_assoc_true in Hn. destruct Hn as [row Hrow].
  exists row. split; [exact Hrow|]. apply (single_source_self g n), Hr, Hrow.
Qed.

(** ** Nodes of the undirected graph *)

Lemma has_node_In g n : has_node g n = true <-> In n (nodes g).
Proof.
  unfold has_node. rewrite existsb_exists. split.
  - intros (x & Hx & ->%Nat.eqb_eq). exact Hx.
  - intros H. exists n. split; [exact H | apply Nat.eqb_refl].
Qed.

Lemma nodes_add_node g n m :
  In m (nodes (add_node g n)) <-> In m (nodes g) \/ m = n.
Proof.
  unfold add_node. destruct (has_node g n) eqn:E; simpl.
  - apply has_node_In in E. split; [tauto|]. intros [H| ->]; assumption.
  - rewrite in_app_iff. simpl. intuition congruence.
Qed.

Lemma nodes_add_edge g u v d m :
  In m (nodes (add_edge g u v d)) <-> In m (nodes g) \/ m = u \/ m = v.
Proof.
  unfold add_edge. destruct (has_edge _ u v); simpl; rewrite !nodes_add_node; tauto.
Qed.

Lemma nodes_Graph g m :
  wf_graph g = true -> (In m (nodes (Graph g)) <-> In m (nodes g)).
Proof.
  unfold wf_graph, Graph. rewrite forallb_forall. intros Hwf.
  set (f := fun acc e => add_edge (add_edge acc (e_src e) (e_dst e) (e_data e))
                                  (e_dst e) (e_src e) (e_data e)).
  assert (Hgen : forall l acc,
             (forall e, In e l -> In (e_src e) (nodes acc) /\ In (e_dst e) (nodes acc)) ->
             (In m (nodes (fold_left f l acc)) <-> In m (nodes acc))).
  { induction l as [|e l IH]; intros acc Hl; simpl; [reflexivity|].
    destruct (Hl e (or_introl eq_refl)) as [Hs Hd].
    assert (Hstep : forall x, In x (nodes (f acc e)) <-> In x (nodes acc)).
    { intros x. unfold f. rewrite !nodes_add_edge. intuition congruence. }
    rewrite IH; [apply Hstep|].
    intros e' He'. rewrite !Hstep. apply Hl. now right. }
  apply (Hgen (edges g) {| nodes := nodes g; edges := [] |}).
  simpl. intros e He. specialize (Hwf e He).
  apply andb_true_iff in Hwf. rewrite !has_node_In in Hwf. exact Hwf.
Qed.

(** ** Dijkstra's algorithm returns

    On a graph without negative weights the loop neither meets
    "contradictory paths" nor needs more passes than it is given. *)

Lemma tuple_lt_true x y : tuple_lt x y = true -> fst_le x y.
Proof.
  unfold tuple_lt, Qltb, fst_le. intros [H | H]%orb_true_iff.
  - apply negb_true_iff in H. apply Qlt_le_weak, Qnot_le_lt. intros Hle.
    apply Qle_bool_iff in Hle. congruence.
  - apply andb_true_iff in H. destruct H as [H _]. apply Qeq_bool_iff in H.
    rewrite H. apply Qle_refl.
Qed.

Lemma tuple_lt_false x y : tuple_lt x y = false -> fst_le y x.
Proof.
  unfold tuple_lt, Qltb, fst_le. intros [H _]%orb_false_iff.
  apply negb_false_iff, Qle_bool_iff in H. exact H.
Qed.

Lemma heappush_In fringe x y : In y (heappush fringe x) <-> y = x \/ In y fringe.
Proof.
  induction fringe as [|z fringe IH]; simpl; [intuition congruence|].
  destruct (tuple_lt x z); simpl; [intuition congruence|].
  rewrite IH. intuition congruence.
Qed.

Lemma heappush_length fringe x : length (heappush fringe x) = S (length fringe).
Proof.
  induction fringe as [|z fringe IH]; simpl; [reflexivity|].
  destruct (tuple_lt x z); simpl; [reflexivity | now rewrite IH].
Qed.

Lemma heappush_sorted fringe x :
  StronglySorted fst_le fringe -> StronglySorted fst_le (heappush fringe x).
Proof.
  induction 1 as [|z fringe Hs IH Hz]; simpl.
  - repeat constructor.
  - destruct (tuple_lt x z) eqn:E.
    + apply tuple_lt_true in E. constructor; [constructor; assumption|].
      constructor; [exact E|].
      rewrite List.Forall_forall in *. intros y Hy. specialize (Hz y Hy).
      unfold fst_le in *. eapply Qle_trans; eassumption.
    + apply tuple_lt_false in E. constructor; [exact IH|].
      rewrite List.Forall_forall in *. intros y Hy. apply heappush_In in Hy.
      destruct Hy as [->|Hy]; [exact E | exact (Hz y Hy)].
Qed.

Section relax_returns.
Variables (dist : list (node * Q)) (d : Q).
Hypothesis Hdist : forall w dw, In (w, dw) dist -> (dw <= d)%Q.

Lemma relax_returns seen fringe w wt :
  (0 <= wt)%Q -> StronglySorted fst_le fringe ->
  (forall x, In x fringe -> (d <= fst x)%Q) ->
  exists seen' fringe',
    relax dist d (seen, fringe) (w, wt) = Ok (seen', fringe') /\
    StronglySorted fst_le fringe' /\
    (forall x, In x fringe' -> (d <= fst x)%Q) /\
    length fringe' <= S (length fringe).
Proof.
  intros Hwt Hs Hlow. unfold relax.
  assert (Hpush : StronglySorted fst_le (heappush fringe ((d + wt)%Q, w)) /\
                  (forall x, In x (heappush fringe ((d + wt)%Q, w)) -> (d <= fst x)%Q) /\
                  length (heappush fringe ((d + wt)%Q, w)) <= S (length fringe)).
  { split; [now apply heappush_sorted|]. split; [|now rewrite heappush_length].
    intros x [->|Hx]%heappush_In; [simpl; lra | exact (Hlow x Hx)]. }
  destruct (assoc w dist) as [dw|] eqn:Ew.
  - apply assoc_In, Hdist in Ew.
    assert (Hno : Qltb (d + wt) dw = false).
    { unfold Qltb. apply negb_false_iff, Qle_bool_iff. lra. }
    rewrite Hno. exists seen, fringe. repeat split; auto.
  - destruct (assoc w seen) as [sw|].
    + destruct (Qltb (d + wt) sw).
      * eexists. eexists. split; [reflexivity | exact Hpush].
      * exists seen, fringe. repeat split; auto.
    + eexists. eexists. split; [reflexivity | exact Hpush].
Qed.

Lemma relax_fold_returns l : forall seen fringe,
  (forall w wt, In (w, wt) l -> (0 <= wt)%Q) -> StronglySorted fst_le fringe ->
  (forall x, In x fringe -> (d <= fst x)%Q) ->
  exists seen' fringe',
    foldM (relax dist d) l (seen, fringe) = Ok (seen', fringe') /\
    StronglySorted fst_le fringe' /\
    (forall x, In x fringe' -> (d <= fst x)%Q) /\
    length fringe' <= length fringe + length l.
Proof.
  induction l as [|[w wt] l IH]; intros seen fringe Hl Hs Hlow; cbn [foldM length].
  - exists seen, fringe. repeat split; auto. lia.
  - destruct (relax_returns seen fringe w wt (Hl w wt (or_introl eq_refl)) Hs Hlow)
      as (seen1 & fringe1 & -> & Hs1 & Hlow1 & Hlen1).
    destruct (IH seen1 fringe1 (fun w' wt' H => Hl w' wt' (or_intror H)) Hs1 Hlow1)
      as (seen2 & fringe2 & -> & Hs2 & Hlow2 & Hlen2).
    exists seen2, fringe2. repeat split; auto. lia.
Qed.
End relax_returns.

Lemma mem_assoc_app {A} k (l1 l2 : list (node * A)) :
  mem_assoc k (l1 ++ l2) = mem_assoc k l1 || mem_assoc k l2.
Proof.
  unfold mem_assoc. rewrite assoc_app. destruct (assoc k l1); reflexivity.
Qed.

Lemma pending_final g dist v d :
  mem_assoc v dist = false ->
  pending g (dist ++ [(v, d)]) + length (succ_weights g v) = pending g dist.
Proof.
  intros Hv. unfold pending, succ_weights. rewrite length_map.
  induction (edges g) as [|e es IH]; simpl; [reflexivity|].
  rewrite mem_assoc_app. unfold mem_assoc at 2. simpl.
  destruct (Nat.eqb (e_src e) v) eqn:E.
  - apply Nat.eqb_eq in E. rewrite E, Hv. simpl. lia.
  - destruct (mem_assoc (e_src e) dist); simpl; lia.
Qed.

Lemma succ_weights_nonneg g v w wt :
  nonneg_weights g = true -> In (w, wt) (succ_weights g v) -> (0 <= wt)%Q.
Proof.
  unfold nonneg_weights, succ_weights. rewrite forallb_forall. intros Hg Hin.
  apply in_map_iff in Hin. destruct Hin as (e & [= _ <-] & He).
  apply filter_In in He. destruct He as [He _]. specialize (Hg e He).
  unfold weight_ok in Hg. destruct (weight (e_data e)); [|lra].
  apply Qle_bool_iff, Hg.
Qed.

Lemma dijkstra_loop_returns g :
  nonneg_weights g = true ->
  forall fuel dist seen fringe,
    StronglySorted fst_le fringe ->
    (forall w dw x, In (w, dw) dist -> In x fringe -> (dw <= fst x)%Q) ->
    length fringe + pending g dist <= fuel ->
    exists row, dijkstra_loop fuel g dist seen fringe = Ok row.
Proof.
  intros Hg. induction fuel as [|fuel IH]; intros dist seen fringe Hs Hd Hfuel.
  - destruct fringe as [|x fringe]; [exists dist; reflexivity | simpl in Hfuel; lia].
  - destruct fringe as [|[d v] fringe]; [exists dist; reflexivity|].
    rewrite dijkstra_loop_S. inversion Hs as [|? ? Hs' Hhd]; subst.
    rewrite List.Forall_forall in Hhd. simpl in Hfuel.
    destruct (mem_assoc v dist) eqn:Ev.
    + apply IH; [exact Hs' | | lia].
      intros w dw x Hw Hx. apply (Hd w dw x Hw). now right.
    + assert (Hdist' : forall w dw, In (w, dw) (dist ++ [(v, d)]) -> (dw <= d)%Q).
      { intros w dw [Hw | [[= <- <-] | []]]%in_app_iff; [|lra].
        apply (Hd w dw (d, v) Hw). now left. }
      destruct (relax_fold_returns _ d Hdist' (succ_weights g v) seen fringe)
        as (seen' & fringe' & -> & Hs2 & Hlow2 & Hlen2).
      * intros w wt. apply succ_weights_nonneg, Hg.
      * exact Hs'.
      * intros x Hx. exact (Hhd x Hx).
      * apply IH; [exact Hs2 | |].
        -- intros w dw x Hw Hx. specialize (Hdist' w dw Hw). specialize (Hlow2 x Hx). lra.
        -- pose proof (pending_final g dist v d Ev). lia.
Qed.

Lemma single_source_returns g n :
  nonneg_weights g = true -> exists row, single_source_dijkstra_path_length g n = Ok row.
Proof.
  intros Hg. unfold single_source_dijkstra_path_length.
  apply (dijkstra_loop_returns g Hg).
  - repeat constructor.
  - intros w dw x [].
  - unfold pending.
    pose proof (filter_length_le (fun e => negb (mem_assoc (e_src e) (@nil (node * Q))))
                                 (edges g)) as Hlen.
    simpl length at 1. lia.
Qed.

Lemma all_pairs_returns g :
  nonneg_weights g = true -> exists tbl, all_pairs_dijkstra_path_length g = Ok tbl.
Proof.
  intros Hg. unfold all_pairs_dijkstra_path_length.
  generalize (@nil (node * list (node * Q))). induction (nodes g) as [|n l IH]; intros acc; simpl.
  - eauto.
  - destruct (single_source_returns g n Hg) as [row ->]. apply IH.
Qed.

(** The undirected graph carries the weights of the directed one. *)
Lemma nonneg_add_edge g u v d :
  nonneg_weights g = true -> weight_ok d = true -> nonneg_weights (add_edge g u v d) = true.
Proof.
  unfold nonneg_weights, add_edge. rewrite !forallb_forall. intros Hg Hd.
  rewrite !edges_add_node.
  destruct (has_edge _ u v); simpl; intros e He.
  - apply in_map_iff in He. destruct He as (e0 & <- & He0). specialize (Hg e0 He0).
    destruct (is_edge u v e0); [|exact Hg]. unfold e_data at 1. simpl.
    unfold weight_ok, update_data in *. simpl.
    destruct (weight d); [exact Hd | exact Hg].
  - apply in_app_iff in He. destruct He as [He | [<- | []]]; [exact (Hg e He) | exact Hd].
Qed.

Lemma nonneg_Graph g : nonneg_weights g = true -> nonneg_weights (Graph g) = true.
Proof.
  intros Hg. unfold Graph.
  assert (Hall : forall e, In e (edges g) -> weight_ok (e_data e) = true)
    by (apply forallb_forall, Hg).
  assert (Hgen : forall l acc,
             (forall e, In e l -> weight_ok (e_data e) = true) ->
             nonneg_weights acc = true ->
             nonneg_weights
               (fold_left (fun acc e => add_edge (add_edge acc (e_src e) (e_dst e) (e_data e))
                                                  (e_dst e) (e_src e) (e_data e)) l acc) = true).
  { induction l as [|e l IH]; intros acc Hl Hacc; simpl; [exact Hacc|].
    apply IH; [intros e' He'; apply Hl; now right|].
    pose proof (Hl e (or_introl eq_refl)).
    apply nonneg_add_edge; [apply nonneg_add_edge|]; assumption. }
  apply Hgen; [exact Hall | reflexivity].
Qed.

(** ** Import of the tree *)

(** Whenever [stripNonEvents] returns, the graph is the one it was given:
    the branch that removes a node asserts a parent count of 1, and with a
    parent count of 1 the line before it has raised. *)
Lemma stripNonEvents_id fuel dag id roots dag' :
  stripNonEvents fuel dag id roots = Ok dag' -> dag' = dag.
Proof.
  destruct fuel as [|fuel]; [discriminate|].
  cbn [stripNonEvents]. intros H.
  apply bind_Ok in H. destruct H as (u & _ & H).
  destruct (length (in_edges dag id) =? 1) eqn:E; [discriminate|].
  cbn [mbind result_bind] in H.
  match type of H with
  | (if ?b then _ else _) = _ => destruct b
  end.
  - discriminate.
  - congruence.
Qed.

Lemma stripNonEvents_root fuel dag id roots :
  in_edges dag id = [] ->
  mem_node id roots = true \/ out_edges dag id = [] ->
  stripNonEvents (S fuel) dag id roots = Ok dag.
Proof.
  intros Hin Hroot. simpl. rewrite Hin. simpl.
  destruct Hroot as [-> | ->]; simpl; [reflexivity|].
  now rewrite andb_false_r.
Qed.

Lemma importTree_Ok t s :
  importTree t = Ok s ->
  dag s = nxDg t /\ mcTree s = t /\ root s = rootId t /\ ogMap s = ∅ /\
  all_pairs_dijkstra_path_length (nxDg t) = Ok (dmDirected s) /\
  all_pairs_dijkstra_path_length (Graph (nxDg t)) = Ok (dm s).
Proof.
  unfold importTree. intros H.
  apply bind_Ok in H. destruct H as (dag' & Hstrip & H).
  apply stripNonEvents_id in Hstrip. subst dag'.
  apply bind_Ok in H. destruct H as (dmd & Hdmd & H).
  apply bind_Ok in H. destruct H as (dmu & Hdmu & H).
  injection H as <-. simpl. repeat split; assumption.
Qed.

(** C7.  The chain [0 -> 1 -> 2] with only the root flagged: node 1 is not a
    subtree root and has a child, yet [importTree] leaves it in the graph
    and adds no edge from 0 to 2; called on node 1 itself the stripping
    raises [TypeError]; and when the root is not flagged either,
    [importTree] does not return normally. *)
Theorem stripNonEvents_strips_nothing :
  importTree chain_tree = Ok (imported chain_tree) /\
  has_node (dag (imported chain_tree)) 1 = true /\
  has_edge (dag (imported chain_tree)) 0 2 = false /\
  stripNonEvents 4 chain_graph 1 [0] = Raise TypeError /\
  importTree chain_tree_bare = Raise AssertionError.
Proof. repeat split; vm_compute; reflexivity. Qed.

(** The graph of two separate edges is imported without complaint, although
    no path joins node 0 and node 2. *)
Lemma importTree_accepts_disconnected :
  importTree forest_tree = Ok (imported forest_tree) /\
  assoc 0 (dm (imported forest_tree)) ≫= assoc 2 = None /\
  assoc 2 (dm (imported forest_tree)) ≫= assoc 0 = None.
Proof. repeat split; vm_compute; reflexivity. Qed.

Lemma stripNonEvents_parents fuel dag id roots :
  1 < length (in_edges dag id) -> stripNonEvents (S fuel) dag id roots = Raise AssertionError.
Proof.
  intros Hin. simpl.
  destruct (length (in_edges dag id)) as [|[|k]] eqn:E; [lia | lia | reflexivity].
Qed.

(** C8, as amended.  [importTree] makes no test of connectivity and knows
    no [InvalidTreeError].  On a graph in which no node has more than one
    parent, the root has none, every node with a child is flagged as a
    subtree root (nothing is to be stripped) and no weight is negative, it
    returns the object with the graph as given and both distance tables,
    whether the graph is connected or not.  More than one parent is
    reported by the assertion of [stripNonEvents]: every call of it on such
    a node fails with [AssertionError], and with it [importTree] when the
    node is the one at which the stripping starts. *)
Theorem importTree_no_connectivity_check (t : MultiCactusTree) :
  ((forall n, length (in_edges (nxDg t) n) <= 1) ->
   in_edges (nxDg t) (rootId t) = [] ->
   (forall n, out_edges (nxDg t) n <> [] -> mem_node n (subtreeRoots t) = true) ->
   nonneg_weights (nxDg t) = true ->
   exists s, importTree t = Ok s /\ dag s = nxDg t /\ ogMap s = ∅ /\
             all_pairs_dijkstra_path_length (nxDg t) = Ok (dmDirected s) /\
             all_pairs_dijkstra_path_length (Graph (nxDg t)) = Ok (dm s)) /\
  (forall fuel dag id roots,
      1 < length (in_edges dag id) ->
      stripNonEvents (S fuel) dag id roots = Raise AssertionError) /\
  (1 < length (in_edges (nxDg t) (rootId t)) -> importTree t = Raise AssertionError).
Proof.
  split; [|split].
  - intros _ Hin Hevents Hw. unfold importTree.
    assert (Hroot : mem_node (rootId t) (subtreeRoots t) = true \/
                    out_edges (nxDg t) (rootId t) = []).
    { destruct (out_edges (nxDg t) (rootId t)) as [|e es] eqn:E; [now right|].
      left. apply Hevents. rewrite E. discriminate. }
    rewrite (stripNonEvents_root _ _ _ _ Hin Hroot). simpl.
    destruct (all_pairs_returns _ Hw) as [dmd Hdmd].
    destruct (all_pairs_returns _ (nonneg_Graph _ Hw)) as [dmu Hdmu].
    rewrite Hdmd. simpl. rewrite Hdmu. simpl.
    eexists. split; [reflexivity|]. simpl. repeat split; assumption.
  - intros fuel dag id roots. apply stripNonEvents_parents.
  - intros Hin. unfold importTree. rewrite (stripNonEvents_parents _ _ _ _ Hin). reflexivity.
Qed.

Lemma importTree_no_connectivity_check_witness :
  (exists s, importTree forest_tree_events = Ok s /\ dag s = forest_graph /\ ogMap s = ∅ /\
             all_pairs_dijkstra_path_length forest_graph = Ok (dmDirected s) /\
             all_pairs_dijkstra_path_length (Graph forest_graph) = Ok (dm s)) /\
  assoc 0 (table_of (all_pairs_dijkstra_path_length (Graph forest_graph))) ≫= assoc 2 = None.
Proof.
  split; [|vm_compute; reflexivity].
  apply (proj1 (importTree_no_connectivity_check forest_tree_events)).
  - intros n. destruct n as [|[|[|[|n]]]]; cbv; lia.
  - reflexivity.
  - intros n Hn. destruct n as [|[|[|n]]]; try reflexivity; exfalso; apply Hn; reflexivity.
  - reflexivity.
Defined.

(** ** No node is its own outgroup *)

(** The source of a candidate pair has a row in [self.dm]. *)
Lemma orderedPairs_source s c :
  In c (orderedPairs s) -> mem_assoc (fst (snd c)) (dm s) = true.
Proof.
  unfold orderedPairs. intros Hc.
  apply (Permutation_in _ (sorted_perm fst _)) in Hc.
  apply in_concat in Hc. destruct Hc as (l & Hl & Hc).
  apply in_map_iff in Hl. destruct Hl as ([source row] & <- & Hrow).
  simpl in Hc. apply in_concat in Hc. destruct Hc as (l' & Hl' & Hc).
  apply in_map_iff in Hl'. destruct Hl' as ([sink d] & <- & _).
  simpl in Hc.
  destruct (negb (Nat.eqb source (root s)) && negb (Nat.eqb sink (root s))); [|destruct Hc].
  destruct Hc as [<- | []]. simpl. exact (In_mem_assoc _ _ _ Hrow).
Qed.

Lemma onSamePath_self tbl n row :
  assoc n tbl = Some row -> assoc n row = Some 0%Q -> onSamePath tbl n n = true.
Proof.
  intros Hrow Hn. unfold onSamePath, mem_assoc. now rewrite Hrow, Hn.
Qed.

Lemma importTree_tables t s n :
  wf_graph (nxDg t) = true -> importTree t = Ok s -> In n (nodes (dag s)) ->
  assoc n (dm s) ≫= assoc n = Some 0%Q /\
  assoc n (dmDirected s) ≫= assoc n = Some 0%Q /\
  onSamePath (dmDirected s) n n = true.
Proof.
  intros Hwf Himp Hn.
  destruct (importTree_Ok _ _ Himp) as (Hdag & _ & _ & _ & Hdmd & Hdmu).
  rewrite Hdag in Hn.
  destruct (all_pairs_self _ _ n Hdmd Hn) as (rowd & Hrowd & Hd0).
  destruct (all_pairs_self (Graph (nxDg t)) _ n Hdmu) as (rowu & Hrowu & Hu0).
  { apply nodes_Graph; assumption. }
  rewrite Hrowd, Hrowu. simpl. repeat split; try assumption.
  exact (onSamePath_self _ _ _ Hrowd Hd0).
Qed.

Lemma importTree_self_paths t s :
  wf_graph (nxDg t) = true -> importTree t = Ok s -> self_paths s.
Proof.
  intros Hwf Himp c Hc.
  destruct (importTree_Ok _ _ Himp) as (Hdag & _ & _ & _ & _ & Hdmu).
  apply orderedPairs_source in Hc.
  apply (proj1 (all_pairs_rows _ _ Hdmu)) in Hc.
  apply (nodes_Graph _ _ Hwf) in Hc. rewrite <- Hdag in Hc.
  apply (importTree_tables t s _ Hwf Himp Hc).
Qed.

Lemma greedy_loop_frame p pairs st st' :
  greedy_loop p pairs st = Ok st' ->
  dm (self st') = dm (self st) /\ dmDirected (self st') = dmDirected (self st) /\
  root (self st') = root (self st) /\ mcTree (self st') = mcTree (self st).
Proof.
  unfold greedy_loop.
  apply (foldM_invariant
           (fun s1 => dm (self s1) = dm (self st) /\ dmDirected (self s1) = dmDirected (self st) /\
                      root (self s1) = root (self st) /\ mcTree (self s1) = mcTree (self st))
           (greedy_step p) pairs); [|repeat split].
  intros s1 c s2 _ (H1 & H2 & H3 & H4) Hstep.
  destruct (greedy_step_frame _ _ _ _ Hstep) as (-> & -> & -> & ->). repeat split; assumption.
Qed.

Lemma greedy_frame p s s' :
  greedy p s = Ok s' ->
  dm s' = dm s /\ dmDirected s' = dmDirected s /\ root s' = root s /\ mcTree s' = mcTree s.
Proof.
  unfold greedy. intros H.
  apply bind_Ok in H. destruct H as (st0 & Hinit & H).
  apply bind_Ok in H. destruct H as (st & Hloop & H).
  injection H as <-. simpl.
  destruct (greedy_loop_frame _ _ _ _ Hloop) as (-> & -> & -> & ->).
  destruct (greedy_init_self _ _ _ Hinit) as (_ & _ & -> & -> & -> & ->). repeat split.
Qed.

Lemma greedy_no_self p s s' :
  Inj (=) (=) (getName (mcTree s)) -> self_paths s -> no_self (ogMap s) ->
  greedy p s = Ok s' -> no_self (ogMap s').
Proof.
  intros Hinj Hpaths Hno Hrun.
  destruct (greedy_og_list _ _ _ Hrun) as (st0 & st & Hinit & Hloop & Hfinal).
  destruct (greedy_init_self _ _ _ Hinit) as (_ & Hm0 & _ & Hd0 & _ & Ht0).
  assert (Hinv : dmDirected (self st) = dmDirected s /\ mcTree (self st) = mcTree s /\
                 no_self (ogMap (self st))).
  { revert Hloop. unfold greedy_loop.
    apply (foldM_invariant
             (fun s1 => dmDirected (self s1) = dmDirected s /\ mcTree (self s1) = mcTree s /\
                        no_self (ogMap (self s1)))
             (greedy_step p) (orderedPairs s)).
    - intros s1 c s2 Hc (Hd1 & Ht1 & Hno1) Hstep.
      destruct (greedy_step_frame _ _ _ _ Hstep) as (_ & Hd2 & _ & Ht2).
      split; [congruence|]. split; [congruence|].
      destruct (greedy_step_outcome _ _ _ _ Hstep) as
        [_ Hm | s0 source sink dag1 _ _ _ Hm | s0 source sink dag1 _ _ Hpath _ Hm
         | s0 source sink dag1 _ _ Hm]; rewrite Hm; try exact Hno1.
      + intros name d. rewrite og_list_insert.
        destruct (decide _) as [->|]; apply Hno1.
      + intros name d. rewrite og_list_insert.
        destruct (decide _) as [<-|]; [|apply Hno1].
        intros [Hin | [[= Heq _] | []]]%in_app_iff; [exact (Hno1 _ _ Hin)|].
        unfold s0 in Heq, Hpath. rewrite Ht1 in Heq. apply Hinj in Heq.
        rewrite Hd1 in Hpath. unfold source, sink in *. rewrite Heq in Hpath.
        rewrite (Hpaths c Hc) in Hpath. discriminate.
    - rewrite Hd0, Ht0, Hm0. repeat split. exact Hno. }
  destruct Hinv as (_ & _ & Hno'). intros name d. rewrite Hfinal. intros Hin.
  apply (Permutation_in _ (sorted_perm snd _)) in Hin. exact (Hno' _ _ Hin).
Qed.

Lemma self_paths_frame s s' :
  dm s' = dm s -> dmDirected s' = dmDirected s -> root s' = root s ->
  self_paths s -> self_paths s'.
Proof.
  unfold self_paths, orderedPairs. intros -> -> -> H. exact H.
Qed.

Lemma greedy_runs_no_self ps : forall s s',
  Inj (=) (=) (getName (mcTree s)) -> self_paths s -> no_self (ogMap s) ->
  greedy_runs ps s = Ok s' -> no_self (ogMap s').
Proof.
  unfold greedy_runs. induction ps as [|p ps IH]; intros s s' Hinj Hpaths Hno Hrun; simpl in Hrun.
  - injection Hrun as <-. exact Hno.
  - destruct (greedy p s) as [s1|] eqn:E; [|discriminate].
    destruct (greedy_frame _ _ _ E) as (H1 & H2 & H3 & H4).
    apply (IH s1 s'); [| | |exact Hrun].
    + rewrite H4. exact Hinj.
    + exact (self_paths_frame _ _ H1 H2 H3 Hpaths).
    + exact (greedy_no_self _ _ _ Hinj Hpaths Hno E).
Qed.

(** C9.  On an imported tree whose nodes have distinct names, no run of the
    greedy assigner (a first run or any re-run) puts a node into its own
    outgroup list.  Both distance tables pair every node of the graph with
    itself at distance 0, so the same-path test holds for a node and
    itself, and every self-pair is turned down. *)
Theorem greedy_never_assigns_self (t : MultiCactusTree) (ps : list GreedyParams)
    (s s' : GreedyOutgroup)
    (Hwf : wf_graph (nxDg t) = true)
    (Hnames : Inj (=) (=) (getName t))
    (Himport : importTree t = Ok s)
    (Hruns : greedy_runs ps s = Ok s') :
  (forall n, In n (nodes (dag s)) ->
             assoc n (dm s) ≫= assoc n = Some 0%Q /\
             assoc n (dmDirected s) ≫= assoc n = Some 0%Q /\
             onSamePath (dmDirected s) n n = true) /\
  (forall name d, ~ In (name, d) (og_list (ogMap s') name)).
Proof.
  split.
  - intros n. apply (importTree_tables t s n Hwf Himport).
  - destruct (importTree_Ok _ _ Himport) as (_ & Ht & _ & Hm & _).
    apply (greedy_runs_no_self ps s s'); [| | |exact Hruns].
    + rewrite Ht. exact Hnames.
    + exact (importTree_self_paths _ _ Hwf Himport).
    + rewrite Hm. intros name d. unfold og_list. rewrite lookup_empty. intros [].
Qed.

Lemma greedy_never_assigns_self_witness :
  greedy_runs [ex_params_free 2; ex_params_free 2] ex_state = Ok ex_state_run2 /\
  (forall name d, ~ In (name, d) (og_list (ogMap ex_state_run2) name)).
Proof.
  assert (Hruns : greedy_runs [ex_params_free 2; ex_params_free 2] ex_state = Ok ex_state_run2)
    by (vm_compute; reflexivity).
  split; [exact Hruns|].
  apply (greedy_never_assigns_self ex_tree [ex_params_free 2; ex_params_free 2]
           ex_state ex_state_run2).
  - reflexivity.
  - apply pretty_nat_inj.
  - vm_compute. reflexivity.
  - exact Hruns.
Defined.

(** ** The threshold *)

(** On [ex_tree] the run with threshold 1 assigns two outgroups (1 to node 2
    and 1 to node 4), the runs with threshold 2 and without threshold
    assign a single one (2 to node 1, after which the edges from 2 and from
    4 to node 1 would close a cycle). *)
Lemma smaller_threshold_more_assignments :
  greedy (ex_params (Some 1%Z)) ex_state = Ok ex_tight /\
  greedy (ex_params (Some 2%Z)) ex_state = Ok ex_loose /\
  greedy (ex_params None) ex_state = Ok ex_unset /\
  total_assignments (ogMap ex_tight) = 2 /\
  total_assignments (ogMap ex_loose) = 1 /\
  total_assignments (ogMap ex_unset) = 1 /\
  ~ total_assignments (ogMap ex_tight) <= total_assignments (ogMap ex_loose) /\
  ~ total_assignments (ogMap ex_tight) <= total_assignments (ogMap ex_unset).
Proof.
  assert (H1 : total_assignments (ogMap ex_tight) = 2) by (vm_compute; reflexivity).
  assert (H2 : total_assignments (ogMap ex_loose) = 1) by (vm_compute; reflexivity).
  assert (H3 : total_assignments (ogMap ex_unset) = 1) by (vm_compute; reflexivity).
  split; [vm_compute; reflexivity|].
  split; [vm_compute; reflexivity|].
  split; [vm_compute; reflexivity|].
  split; [exact H1|]. split; [exact H2|]. split; [exact H3|].
  rewrite H1, H2, H3. split; lia.
Qed.

Lemma exceeds_threshold_le t1 t2 ht source sink :
  threshold_le t1 t2 ->
  exceeds_threshold t1 ht source sink = Ok false ->
  exceeds_threshold t2 ht source sink = Ok false.
Proof.
  unfold exceeds_threshold, threshold_le.
  destruct t1 as [a|], t2 as [b|]; try tauto; intros Hle H.
  apply bind_Ok in H. destruct H as (hk & -> & H).
  apply bind_Ok in H. destruct H as (hs & -> & H). simpl in *.
  injection H as H. f_equal. apply Z.ltb_ge in H. apply Z.ltb_ge. lia.
Qed.

Lemma exceeds_threshold_ge t1 t2 ht source sink :
  threshold_le t1 t2 ->
  exceeds_threshold t2 ht source sink = Ok true ->
  exceeds_threshold t1 ht source sink = Ok true.
Proof.
  unfold exceeds_threshold, threshold_le.
  destruct t1 as [a|], t2 as [b|]; try tauto; try discriminate. intros Hle.
  destruct (ht !! sink) as [hk|]; simpl; [|discriminate].
  destruct (ht !! source) as [hs|]; simpl; [|discriminate].
  intros [= H]. f_equal. apply Z.ltb_lt in H. apply Z.ltb_lt. lia.
Qed.

(** C5, as amended.  The threshold test is monotone pass by pass, in one
    and the same state of the loop and for the same candidate pair.  A
    pass that records an outgroup under the threshold of [p] does exactly
    the same under any larger threshold and without threshold.  A pair
    whose depth exceeds the larger threshold exceeds the smaller one as
    well: both passes return, in the same state, and neither touches the
    outgroup map or the graph. *)
Theorem greedy_step_threshold_monotone (p : GreedyParams) (t2 : option Z)
    (st : GreedyLoop) (c : Q * (node * node))
    (Hle : threshold_le (threshold p) t2) :
  (forall st1, greedy_step p st c = Ok st1 -> ogMap (self st1) <> ogMap (self st) ->
               greedy_step (with_threshold t2 p) st c = Ok st1) /\
  (exceeds_threshold t2 (htable st) (fst (snd c)) (snd (snd c)) = Ok true ->
   exceeds_threshold (threshold p) (htable st) (fst (snd c)) (snd (snd c)) = Ok true /\
   exists st2, greedy_step (with_threshold t2 p) st c = Ok st2 /\
               greedy_step p st c = Ok st2 /\
               ogMap (self st2) = ogMap (self st) /\ dag (self st2) = dag (self st)).
Proof.
  split.
  - intros st1 Hstep Hrecorded. revert Hstep. unfold greedy_step. simpl.
    destruct (inCandidateSet (mcTree (self st)) (candidateMap (self st)) (snd (snd c))
                (candidateChildFrac p)) as [isCand cmap].
    destruct isCand; simpl.
    2:{ intros [= <-]. exfalso. apply Hrecorded. reflexivity. }
    destruct (exceeds_threshold (threshold p) (htable st) (fst (snd c)) (snd (snd c)))
      as [[|]|e] eqn:E; simpl; [| |discriminate].
    + intros [= <-]. exfalso. apply Hrecorded. reflexivity.
    + rewrite (exceeds_threshold_le _ _ _ _ _ Hle E). simpl. trivial.
  - intros Hover. pose proof (exceeds_threshold_ge _ _ _ _ _ Hle Hover) as Hover1.
    split; [exact Hover1|]. unfold greedy_step. simpl.
    destruct (inCandidateSet (mcTree (self st)) (candidateMap (self st)) (snd (snd c))
                (candidateChildFrac p)) as [isCand cmap].
    destruct isCand; simpl.
    + rewrite Hover, Hover1. simpl. eexists. repeat split.
    + eexists. repeat split.
Qed.

Lemma greedy_step_threshold_monotone_witness :
  (greedy_step (ex_params (Some 1%Z)) ex_loop (2%Q, (2, 1)) = Ok ex_loop_next /\
   og_list (ogMap (self ex_loop_next)) "2" = [("1"%string, 2%Q)] /\
   greedy_step (ex_params None) ex_loop (2%Q, (2, 1)) = Ok ex_loop_next) /\
  (exceeds_threshold (Some 1%Z) (htable ex_loop) 1 2 = Ok true /\
   exceeds_threshold (Some 0%Z) (htable ex_loop) 1 2 = Ok true /\
   exists st2, greedy_step (ex_params (Some 1%Z)) ex_loop (2%Q, (1, 2)) = Ok st2 /\
               greedy_step (ex_params (Some 0%Z)) ex_loop (2%Q, (1, 2)) = Ok st2 /\
               ogMap (self st2) = ogMap (self ex_loop) /\ dag (self st2) = dag (self ex_loop)).
Proof.
  split.
  - assert (Hstep : greedy_step (ex_params (Some 1%Z)) ex_loop (2%Q, (2, 1)) = Ok ex_loop_next)
      by (vm_compute; reflexivity).
    split; [exact Hstep|]. split; [vm_compute; reflexivity|].
    refine (proj1 (greedy_step_threshold_monotone (ex_params (Some 1%Z)) None
                     ex_loop (2%Q, (2, 1)) I) ex_loop_next Hstep _).
    intros Heq. apply (f_equal (fun m => m !! "2"%string)) in Heq.
    vm_compute in Heq. discriminate.
  - assert (Hover : exceeds_threshold (Some 1%Z) (htable ex_loop) 1 2 = Ok true)
      by (vm_compute; reflexivity).
    split; [exact Hover|].
    assert (Hle : threshold_le (threshold (ex_params (Some 0%Z))) (Some 1%Z))
      by (simpl; lia).
    exact (proj2 (greedy_step_threshold_monotone (ex_params (Some 0%Z)) (Some 1%Z)
                    ex_loop (2%Q, (1, 2)) Hle) Hover).
Defined.

(** ** The table of the dynamic programme *)

Lemma dp_set_Ok tbl n k e tbl' :
  dp_set tbl n k e = Ok tbl' ->
  exists row, tbl !! n = Some row /\ k < length row /\ tbl' = <[n := <[k := e]> row]> tbl.
Proof.
  unfold dp_set. intros H. apply bind_Ok in H. destruct H as (row & Hrow & H).
  apply from_option_Ok in Hrow. destruct (k <? length row) eqn:E; [|discriminate].
  apply Nat.ltb_lt in E. injection H as <-. eauto.
Qed.

Lemma dp_get_Ok tbl n k e :
  dp_get tbl n k = Ok e -> exists row, tbl !! n = Some row /\ row !! k = Some e.
Proof.
  unfold dp_get. intros H. apply bind_Ok in H. destruct H as (row & Hrow & H).
  apply from_option_Ok in Hrow, H. eauto.
Qed.

Lemma dp_set_entries_ok tbl n k e tbl' :
  entries_ok tbl -> entry_ok k e -> dp_set tbl n k e = Ok tbl' -> entries_ok tbl'.
Proof.
  intros Hok He Hset. destruct (dp_set_Ok _ _ _ _ _ Hset) as (row & Hrow & Hk & ->).
  intros m row' j e' Hm Hj. rewrite lookup_insert in Hm.
  destruct (decide (n = m)) as [<-|Hne].
  - injection Hm as <-. destruct (decide (k = j)) as [<-|Hkj].
    + rewrite list_lookup_insert_eq in Hj by exact Hk. injection Hj as <-. exact He.
    + rewrite list_lookup_insert_ne in Hj by exact Hkj. exact (Hok _ _ _ _ Hrow Hj).
  - exact (Hok _ _ _ _ Hm Hj).
Qed.

Lemma dp_set_shape numOG tbl n k e tbl' :
  table_shape numOG tbl -> dp_set tbl n k e = Ok tbl' -> table_shape numOG tbl'.
Proof.
  intros Hsh Hset. destruct (dp_set_Ok _ _ _ _ _ Hset) as (row & Hrow & Hk & ->).
  intros m row' Hm. rewrite lookup_insert in Hm.
  destruct (decide (n = m)) as [<-|Hne].
  - injection Hm as <-. rewrite length_insert. exact (Hsh _ _ Hrow).
  - exact (Hsh _ _ Hm).
Qed.

(** [lossProb] starts from [0.] and is only ever multiplied: it stays 0. *)
Lemma dpChild_loss s alloc children : forall acc acc',
  (fst acc == 0)%Q -> foldM (dpChild s alloc) children acc = Ok acc' -> (fst acc' == 0)%Q.
Proof.
  induction children as [|[childNo childId] children IH]; intros [loss sol] acc' H0 Hrun;
    cbn [foldM] in Hrun.
  - injection Hrun as <-. exact H0.
  - destruct (dpChild s alloc (loss, sol) (childNo, childId)) as [[loss1 sol1]|] eqn:E;
      [|discriminate].
    refine (IH _ _ _ Hrun).
    unfold dpChild in E.
    apply bind_Ok in E. destruct E as (childK & _ & E).
    apply bind_Ok in E. destruct E as (e & _ & E).
    apply bind_Ok in E. destruct E as (bp & _ & E).
    injection E as <- _. simpl in *. rewrite H0. ring.
Qed.

(** A pass over one allocation leaves the tree and the probabilities alone
    and writes at most one entry, which then has score 1 and as many
    leaves as its index. *)
Lemma dpAlloc_keeps numOG children n s alloc s' :
  dpAlloc numOG children n s alloc = Ok s' ->
  dpTree s' = dpTree s /\ branchProbs s' = branchProbs s /\ rootSeqInfo s' = rootSeqInfo s /\
  (entries_ok (dpTable s) -> entries_ok (dpTable s')) /\
  (table_shape numOG (dpTable s) -> table_shape numOG (dpTable s')).
Proof.
  unfold dpAlloc. intros H.
  destruct (numOG <? list_sum alloc); [injection H as <-; tauto|].
  apply bind_Ok in H. destruct H as ([loss sol] & Hfold & H).
  apply bind_Ok in H. destruct H as (u1 & _ & H).
  apply bind_Ok in H. destruct H as (u2 & _ & H).
  apply bind_Ok in H. destruct H as (cur & _ & H).
  destruct (Qltb (score cur) (1 - loss) && (length sol =? list_sum alloc)) eqn:E;
    [|injection H as <-; tauto].
  apply bind_Ok in H. destruct H as (tbl & Hset & H). injection H as <-. simpl.
  repeat split.
  - intros Hok. apply (dp_set_entries_ok _ _ _ _ _ Hok) in Hset; [exact Hset|].
    right. simpl. apply andb_true_iff in E. destruct E as [_ E]. apply Nat.eqb_eq in E.
    split; [|exact E].
    pose proof (dpChild_loss s alloc (enumerate children) (0%Q, []) (loss, sol)
                  (Qeq_refl 0) Hfold) as Hl. simpl in Hl.
    rewrite Hl. ring.
  - intros Hsh. exact (dp_set_shape _ _ _ _ _ _ Hsh Hset).
Qed.

Lemma dpNode_keeps numOG n s s' :
  dpNode numOG n s = Ok s' ->
  dpTree s' = dpTree s /\ branchProbs s' = branchProbs s /\ rootSeqInfo s' = rootSeqInfo s /\
  (entries_ok (dpTable s) -> entries_ok (dpTable s')) /\
  (table_shape numOG (dpTable s) -> table_shape numOG (dpTable s')).
Proof.
  unfold dpNode. destruct (getChildren (dpTree s) n) as [|c cs] eqn:Ech.
  - intros H. apply bind_Ok in H. destruct H as (tbl & Hset & H). injection H as <-. simpl.
    repeat split.
    + intros Hok. apply (dp_set_entries_ok _ _ _ _ _ Hok) in Hset; [exact Hset|].
      right. simpl. split; reflexivity.
    + intros Hsh. exact (dp_set_shape _ _ _ _ _ _ Hsh Hset).
  - clear Ech. generalize (product (seq 0 (numOG + 1)) (length (c :: cs))).
    intros allocs. revert s.
    induction allocs as [|alloc allocs IH]; intros s H; cbn [foldM] in H.
    + injection H as <-. tauto.
    + destruct (dpAlloc numOG (c :: cs) n s alloc) as [s1|] eqn:E; [|discriminate].
      destruct (dpAlloc_keeps _ _ _ _ _ _ E) as (Ht & Hb & Hr & Hok & Hsh).
      destruct (IH s1 H) as (Ht' & Hb' & Hr' & Hok' & Hsh').
      repeat split; try congruence; tauto.
Qed.

Lemma dpRun_keeps fuel numOG : forall n s s',
  dpRun fuel numOG n s = Ok s' ->
  dpTree s' = dpTree s /\ branchProbs s' = branchProbs s /\ rootSeqInfo s' = rootSeqInfo s /\
  (entries_ok (dpTable s) -> entries_ok (dpTable s')) /\
  (table_shape numOG (dpTable s) -> table_shape numOG (dpTable s')).
Proof.
  induction fuel as [|fuel IH]; intros n s s' H; [discriminate|].
  cbn [dpRun] in H. apply bind_Ok in H. destruct H as (s1 & Hkids & H).
  assert (Hk : dpTree s1 = dpTree s /\ branchProbs s1 = branchProbs s /\
               rootSeqInfo s1 = rootSeqInfo s /\
               (entries_ok (dpTable s) -> entries_ok (dpTable s1)) /\
               (table_shape numOG (dpTable s) -> table_shape numOG (dpTable s1))).
  { revert Hkids. generalize (getChildren (dpTree s) n). intros kids. revert s.
    induction kids as [|c kids IHk]; intros s Hkids; cbn [foldM] in Hkids.
    - injection Hkids as <-. tauto.
    - destruct (dpRun fuel numOG c s) as [s2|] eqn:E; [|discriminate].
      destruct (IH _ _ _ E) as (Ht & Hb & Hr & Hok & Hsh).
      destruct (IHk _ Hkids) as (Ht' & Hb' & Hr' & Hok' & Hsh').
      repeat split; try congruence; tauto. }
  destruct Hk as (Ht & Hb & Hr & Hok & Hsh).
  destruct (dpNode_keeps _ _ _ _ H) as (Ht' & Hb' & Hr' & Hok' & Hsh').
  repeat split; try congruence; tauto.
Qed.

Lemma Qltb_lt a b : Qltb a b = true <-> (a < b)%Q.
Proof.
  unfold Qltb. rewrite negb_true_iff. split.
  - intros H. apply Qnot_le_lt. intros Hle. apply Qle_bool_iff in Hle. congruence.
  - intros H. destruct (Qle_bool b a) eqn:E; [|reflexivity].
    apply Qle_bool_iff in E. lra.
Qed.

Lemma entry_ok_zero e : entry_ok 0 e -> solution e = [].
Proof.
  intros [[_ H] | [_ H]]; [exact H | now apply length_zero_iff_nil].
Qed.

Lemma product_zeros cs m :
  exists rest, product (0 :: cs) m = repeat 0 m :: rest.
Proof.
  induction m as [|m [rest IH]]; simpl; [eauto|].
  rewrite IH. simpl. eauto.
Qed.

Lemma lookup_repeat_zero m i k : repeat 0 m !! i = Some k -> k = 0.
Proof.
  revert i. induction m as [|m IH]; intros [|i]; simpl; try discriminate.
  - congruence.
  - apply IH.
Qed.

(** With the allocation of all zeros every child contributes its entry 0,
    whose solution is empty. *)
Lemma dpChild_zeros s m children : forall acc acc',
  entries_ok (dpTable s) -> snd acc = [] ->
  foldM (dpChild s (repeat 0 m)) children acc = Ok acc' -> snd acc' = [].
Proof.
  induction children as [|[childNo childId] children IH]; intros [loss sol] acc' Hok Hs Hrun;
    cbn [foldM] in Hrun.
  - injection Hrun as <-. exact Hs.
  - destruct (dpChild s (repeat 0 m) (loss, sol) (childNo, childId)) as [[loss1 sol1]|] eqn:E;
      [|discriminate].
    refine (IH _ _ Hok _ Hrun).
    unfold dpChild in E.
    apply bind_Ok in E. destruct E as (childK & Hk & E).
    apply from_option_Ok in Hk. apply lookup_repeat_zero in Hk. subst childK.
    apply bind_Ok in E. destruct E as (e & He & E).
    apply bind_Ok in E. destruct E as (bp & _ & E).
    injection E as _ <-. simpl in *. subst sol.
    destruct (dp_get_Ok _ _ _ _ He) as (row & Hrow & Hrk).
    now rewrite (entry_ok_zero _ (Hok _ _ _ _ Hrow Hrk)).
Qed.

Lemma dp_get_set_ne tbl n k e tbl' j :
  dp_set tbl n k e = Ok tbl' -> k <> j -> dp_get tbl' n j = dp_get tbl n j.
Proof.
  intros Hset Hne. destruct (dp_set_Ok _ _ _ _ _ Hset) as (row & Hrow & Hk & ->).
  unfold dp_get. rewrite lookup_insert_eq, Hrow. simpl.
  now rewrite list_lookup_insert_ne.
Qed.

Lemma dp_get_set_eq tbl n k e tbl' :
  dp_set tbl n k e = Ok tbl' -> dp_get tbl' n k = Ok e.
Proof.
  intros Hset. destruct (dp_set_Ok _ _ _ _ _ Hset) as (row & Hrow & Hk & ->).
  unfold dp_get. rewrite lookup_insert_eq. simpl.
  now rewrite list_lookup_insert_eq.
Qed.

Lemma dpAlloc_zero_entry numOG children n s alloc s' :
  zero_entry_one n s -> dpAlloc numOG children n s alloc = Ok s' -> zero_entry_one n s'.
Proof.
  intros (e0 & Hget & Hsc & Hsol). unfold dpAlloc. intros H.
  destruct (numOG <? list_sum alloc); [injection H as <-; exists e0; auto|].
  apply bind_Ok in H. destruct H as ([loss sol] & Hfold & H).
  apply bind_Ok in H. destruct H as (u1 & _ & H).
  apply bind_Ok in H. destruct H as (u2 & _ & H).
  apply bind_Ok in H. destruct H as (cur & Hcur & H).
  destruct (Qltb (score cur) (1 - loss) && (length sol =? list_sum alloc)) eqn:E;
    [|injection H as <-; exists e0; auto].
  apply bind_Ok in H. destruct H as (tbl & Hset & H). injection H as <-. simpl.
  exists e0. split; [|auto]. simpl.
  rewrite (dp_get_set_ne _ _ _ _ _ 0 Hset); [exact Hget|].
  intros Hk. rewrite Hk in Hcur. rewrite Hget in Hcur. injection Hcur as <-.
  apply andb_true_iff in E. destruct E as [E _]. apply Qltb_lt in E.
  pose proof (dpChild_loss s alloc (enumerate children) (0%Q, []) (loss, sol)
                (Qeq_refl 0) Hfold) as Hl. simpl in Hl.
  rewrite Hsc, Hl in E. lra.
Qed.

Lemma dpAlloc_zeros numOG children n s s' :
  entries_ok (dpTable s) ->
  dpAlloc numOG children n s (repeat 0 (length children)) = Ok s' -> zero_entry_one n s'.
Proof.
  intros Hok. unfold dpAlloc.
  assert (Hsum : list_sum (repeat 0 (length children)) = 0)
    by (induction (length children); simpl; auto).
  rewrite Hsum. change (numOG <? 0) with false. cbv iota. intros H.
  apply bind_Ok in H. destruct H as ([loss sol] & Hfold & H).
  pose proof (dpChild_zeros s (length children) (enumerate children) (0%Q, []) (loss, sol)
                Hok eq_refl Hfold) as Hsol. simpl in Hsol. subst sol.
  pose proof (dpChild_loss s _ (enumerate children) (0%Q, []) (loss, [])
                (Qeq_refl 0) Hfold) as Hl. simpl in Hl.
  apply bind_Ok in H. destruct H as (u1 & _ & H).
  apply bind_Ok in H. destruct H as (u2 & _ & H).
  apply bind_Ok in H. destruct H as (cur & Hcur & H).
  destruct (dp_get_Ok _ _ _ _ Hcur) as (row & Hrow & Hrk).
  pose proof (Hok _ _ _ _ Hrow Hrk) as Hcok.
  destruct (Qltb (score cur) (1 - loss) && (length (@nil node) =? 0)) eqn:E.
  - apply bind_Ok in H. destruct H as (tbl & Hset & H). injection H as <-. simpl.
    eexists. split; [exact (dp_get_set_eq _ _ _ _ _ Hset)|]. simpl.
    split; [rewrite Hl; ring | reflexivity].
  - injection H as <-. exists cur. split; [exact Hcur|].
    split; [|exact (entry_ok_zero _ Hcok)].
    destruct Hcok as [[Hz _] | [Ho _]]; [|exact Ho].
    exfalso. rewrite andb_true_r in E.
    assert (Qltb (score cur) (1 - loss) = true); [|congruence].
    apply Qltb_lt. rewrite Hz, Hl. lra.
Qed.

Lemma dpInit_table exp st a s0 :
  dpInit exp st a = Ok s0 ->
  entries_ok (dpTable s0) /\ table_shape (numOG st) (dpTable s0).
Proof.
  unfold dpInit. intros H.
  apply bind_Ok in H. destruct H as (rootInfo & _ & H).
  apply bind_Ok in H. destruct H as (probs & _ & H).
  injection H as <-. simpl.
  match goal with
  | |- entries_ok (fold_left ?f ?l ∅) /\ _ =>
    assert (Hrows : forall n row, fold_left f l ∅ !! n = Some row ->
                row = replicate (numOG st + 1) {| score := 0%Q; solution := [] |})
  end.
  { match goal with |- forall n row, fold_left ?f ?l ∅ !! n = Some row -> _ =>
      generalize l; intros l0;
      assert (Hgen : forall tbl,
                 (forall n row, tbl !! n = Some row ->
                    row = replicate (numOG st + 1) {| score := 0%Q; solution := [] |}) ->
                 forall n row, fold_left f l0 tbl !! n = Some row ->
                    row = replicate (numOG st + 1) {| score := 0%Q; solution := [] |})
    end.
    - induction l0 as [|x l0 IH]; intros tbl Htbl; simpl; [exact Htbl|].
      apply IH. intros n row. rewrite lookup_insert.
      destruct (decide (x = n)); [congruence | apply Htbl].
    - apply Hgen. intros n row. rewrite lookup_empty. discriminate. }
  split.
  - intros n row k e Hn Hk. rewrite (Hrows _ _ Hn) in Hk.
    apply lookup_replicate in Hk. destruct Hk as [-> _]. left. simpl. split; reflexivity.
  - intros n row Hn. rewrite (Hrows _ _ Hn). apply length_replicate.
Qed.

(** X1.  After [__dpInit] and [__dpRun] for an ancestor, every entry of the
    table is the initial entry (score 0.0, no leaves) or has the score 1.0
    and exactly as many leaves as its index; every row has the indices
    0 .. numOG.  The score never depends on the branch probabilities: the
    probability of loss starts from 0 and is only multiplied. *)
Theorem dp_entries_zero_or_one (exp : Q -> Q) (st : DynamicOutgroup) (a : node)
    (fuel : nat) (s0 s1 : DPScratch)
    (Hinit : dpInit exp st a = Ok s0)
    (Hrun : dpRun fuel (numOG st) a s0 = Ok s1) :
  forall n row, dpTable s1 !! n = Some row ->
    length row = numOG st + 1 /\
    forall k e, row !! k = Some e ->
      (score e == 0 /\ solution e = [])%Q \/ (score e == 1 /\ length (solution e) = k)%Q.
Proof.
  destruct (dpInit_table _ _ _ _ Hinit) as [Hok Hsh].
  destruct (dpRun_keeps _ _ _ _ _ Hrun) as (_ & _ & _ & Hok' & Hsh').
  intros n row Hn. split; [exact (Hsh' Hsh _ _ Hn)|].
  intros k e Hk. exact (Hok' Hok _ _ _ _ Hn Hk).
Qed.

Lemma dp_entries_zero_or_one_witness :
  dpInit dp_exp dp_state 1 = Ok dp_scratch_init /\
  dpRun 6 1 1 dp_scratch_init = Ok dp_scratch_run /\
  (forall n row, dpTable dp_scratch_run !! n = Some row ->
     length row = 2 /\
     forall k e, row !! k = Some e ->
       (score e == 0 /\ solution e = [])%Q \/ (score e == 1 /\ length (solution e) = k)%Q).
Proof.
  assert (H1 : dpInit dp_exp dp_state 1 = Ok dp_scratch_init) by (vm_compute; reflexivity).
  assert (H2 : dpRun 6 (numOG dp_state) 1 dp_scratch_init = Ok dp_scratch_run)
    by (vm_compute; reflexivity).
  split; [exact H1|]. split; [exact H2|].
  exact (dp_entries_zero_or_one dp_exp dp_state 1 6 dp_scratch_init dp_scratch_run H1 H2).
Defined.

(** X2.  For a node with children, [__dpNode] leaves the entry 0 of the node
    with score 1.0 and the empty solution, whatever the entries of the
    children and the branch probabilities are: the allocation of all zeros
    comes first and yields a conservation of 1 - 0. *)
Theorem dpNode_internal_entry_zero (numOG : nat) (n : node) (s s' : DPScratch)
    (Hchildren : getChildren (dpTree s) n <> [])
    (Hok : entries_ok (dpTable s))
    (Hrun : dpNode numOG n s = Ok s') :
  exists e, dp_get (dpTable s') n 0 = Ok e /\ (score e == 1)%Q /\ solution e = [].
Proof.
  unfold dpNode in Hrun. destruct (getChildren (dpTree s) n) as [|c cs]; [congruence|].
  clear Hchildren. change (seq 0 (numOG + 1)) with (seq 0 (numOG + 1)) in Hrun.
  replace (numOG + 1) with (S numOG) in Hrun by lia. cbn [seq] in Hrun.
  destruct (product_zeros (seq 1 numOG) (length (c :: cs))) as [rest Hp].
  rewrite Hp in Hrun. cbn [foldM] in Hrun.
  destruct (dpAlloc numOG (c :: cs) n s (repeat 0 (length (c :: cs)))) as [s1|] eqn:E;
    [|discriminate].
  pose proof (dpAlloc_zeros _ _ _ _ _ Hok E) as Hz.
  revert Hrun. apply (foldM_invariant (zero_entry_one n)); [|exact Hz].
  intros s2 alloc s3 _. apply dpAlloc_zero_entry.
Qed.

Lemma dpNode_internal_entry_zero_witness :
  exists s', dpNode 1 0 (scratch_or dp_blank (dpRun 5 1 2 dp_scratch_init)) = Ok s' /\
             exists e, dp_get (dpTable s') 0 0 = Ok e /\ (score e == 1)%Q /\ solution e = [].
Proof.
  eexists. split; [vm_compute; reflexivity|].
  eapply (dpNode_internal_entry_zero 1 0 (scratch_or dp_blank (dpRun 5 1 2 dp_scratch_init))).
  - vm_compute. discriminate.
  - assert (H1 : dpInit dp_exp dp_state 1 = Ok dp_scratch_init) by (vm_compute; reflexivity).
    assert (H2 : dpRun 5 (numOG dp_state) 2 dp_scratch_init
                 = Ok (scratch_or dp_blank (dpRun 5 1 2 dp_scratch_init)))
      by (vm_compute; reflexivity).
    destruct (dpRun_keeps _ _ _ _ _ H2) as (_ & _ & _ & Hok & _).
    apply Hok. apply (dpInit_table _ _ _ _ H1).
  - vm_compute. reflexivity.
Defined.

(** X3.  For a leaf of the working tree whose row has the indices
    0 .. numOG, [__dpNode] raises [IndexError] when numOG is 0; otherwise it
    stores score 1.0 with the leaf itself at index 1 and leaves the entry 0
    as it was. *)
Theorem dpNode_leaf (numOG : nat) (n : node) (s : DPScratch) (row : list DPEntry)
    (Hleaf : getChildren (dpTree s) n = [])
    (Hrow : dpTable s !! n = Some row)
    (Hlen : length row = numOG + 1) :
  (numOG = 0 -> dpNode numOG n s = Raise IndexError) /\
  (1 <= numOG ->
   exists s', dpNode numOG n s = Ok s' /\
              dp_get (dpTable s') n 1 = Ok {| score := 1%Q; solution := [n] |} /\
              dp_get (dpTable s') n 0 = dp_get (dpTable s) n 0).
Proof.
  unfold dpNode. rewrite Hleaf. unfold dp_set. rewrite Hrow. simpl. split.
  - intros ->. rewrite Hlen. reflexivity.
  - intros Hn. assert (Hlt : (1 <? length row) = true) by (apply Nat.ltb_lt; lia).
    rewrite Hlt. eexists. split; [reflexivity|]. simpl.
    unfold dp_get. rewrite lookup_insert_eq, Hrow. simpl. split.
    + rewrite list_lookup_insert_eq by (apply Nat.ltb_lt; exact Hlt). reflexivity.
    + rewrite list_lookup_insert_ne by lia. reflexivity.
Qed.

Lemma dpNode_leaf_witness :
  exists s', dpNode 1 2 dp_scratch_init = Ok s' /\
             dp_get (dpTable s') 2 1 = Ok {| score := 1%Q; solution := [2] |} /\
             dp_get (dpTable s') 2 0 = dp_get (dpTable dp_scratch_init) 2 0.
Proof.
  refine (proj2 (dpNode_leaf 1 2 dp_scratch_init
                   (replicate 2 {| score := 0%Q; solution := [] |}) _ _ _) _).
  - vm_compute. reflexivity.
  - vm_compute. reflexivity.
  - reflexivity.
  - lia.
Defined.

(** ** The candidate pairs *)

(** X4.  The candidate list of [greedy] is sorted by ascending distance, and
    it holds exactly the entries [(sink, dist)] of the rows of [self.dm]
    whose source and sink are both different from the root. *)
Theorem orderedPairs_spec (s : GreedyOutgroup) :
  StronglySorted (fun a b => (fst a <= fst b)%Q) (orderedPairs s) /\
  (forall d source sink,
      In (d, (source, sink)) (orderedPairs s) <->
      source <> root s /\ sink <> root s /\
      exists row, In (source, row) (dm s) /\ In (sink, d) row).
Proof.
  split; [apply (sorted_sorted fst)|].
  intros d source sink. unfold orderedPairs. split.
  - intros Hc. apply (Permutation_in _ (sorted_perm fst _)) in Hc.
    apply in_concat in Hc. destruct Hc as (l & Hl & Hc).
    apply in_map_iff in Hl. destruct Hl as ([source' row] & <- & Hrow).
    simpl in Hc. apply in_concat in Hc. destruct Hc as (l' & Hl' & Hc).
    apply in_map_iff in Hl'. destruct Hl' as ([sink' d'] & <- & Hsd).
    simpl in Hc.
    destruct (negb (Nat.eqb source' (root s)) && negb (Nat.eqb sink' (root s))) eqn:E;
      [|destruct Hc].
    destruct Hc as [[= <- <- <-] | []].
    apply andb_true_iff in E. rewrite !negb_true_iff, !Nat.eqb_neq in E.
    destruct E as [E1 E2]. repeat split; try assumption. eauto.
  - intros (Hs & Hk & row & Hrow & Hsd).
    apply (Permutation_in _ (Permutation_sym (sorted_perm fst _))).
    apply in_concat. eexists. split.
    + apply in_map_iff. exists (source, row). split; [reflexivity | exact Hrow].
    + simpl. apply in_concat. eexists. split.
      * apply in_map_iff. exists (sink, d). split; [reflexivity | exact Hsd].
      * simpl. apply Nat.eqb_neq in Hs, Hk. rewrite Hs, Hk. simpl. now left.
Qed.

(** ** Size of the lists *)

Lemma greedy_loop_bound_one p pairs st st' :
  (forall name, (Z.of_nat (length (og_list (ogMap (self st)) name))
                 <= Z.max 1 (maxNumOutgroups p))%Z) ->
  greedy_loop p pairs st = Ok st' ->
  forall name, (Z.of_nat (length (og_list (ogMap (self st')) name))
                <= Z.max 1 (maxNumOutgroups p))%Z.
Proof.
  unfold greedy_loop. intros Hst Hloop.
  apply (foldM_invariant
           (fun s1 => forall name,
                (Z.of_nat (length (og_list (ogMap (self s1)) name))
                 <= Z.max 1 (maxNumOutgroups p))%Z)
           (greedy_step p) pairs) with (s := st); [|exact Hst|exact Hloop].
  intros s1 c s2 _ IH Hstep name.
  destruct (greedy_step_appends _ _ _ _ Hstep name) as [-> | (x & -> & [Hnil | Hlt])].
  - apply IH.
  - rewrite Hnil. simpl. lia.
  - rewrite length_app. simpl. lia.
Qed.

(** X5.  A first run of [greedy] (on the empty map left by [importTree])
    gives no source more than [max(1, maxNumOutgroups)] outgroups: at most
    [maxNumOutgroups] when that is positive, and still one when it is 0 or
    negative, because a source is only marked finished after its first
    outgroup has been recorded. *)
Theorem greedy_first_run_bound (p : GreedyParams) (s s' : GreedyOutgroup)
    (Hempty : ogMap s = ∅)
    (Hrun : greedy p s = Ok s') :
  forall name,
    (Z.of_nat (length (og_list (ogMap s') name)) <= Z.max 1 (maxNumOutgroups p))%Z.
Proof.
  destruct (greedy_og_list _ _ _ Hrun) as (st0 & st & Hinit & Hloop & Hfinal).
  destruct (greedy_init_self _ _ _ Hinit) as (_ & Hm0 & _).
  intros name. rewrite Hfinal, sorted_length.
  apply (greedy_loop_bound_one p (orderedPairs s) st0 st); [|exact Hloop].
  intros n. rewrite Hm0, Hempty. unfold og_list. rewrite lookup_empty. simpl. lia.
Qed.

Lemma greedy_first_run_bound_witness :
  (exists s', greedy (ex_params_free 0) ex_state = Ok s' /\
              length (og_list (ogMap s') "1") = 1 /\
              forall name, (Z.of_nat (length (og_list (ogMap s') name)) <= 1)%Z).
Proof.
  eexists. split; [vm_compute; reflexivity|]. split; [vm_compute; reflexivity|].
  apply (greedy_first_run_bound (ex_params_free 0) ex_state); [reflexivity|].
  vm_compute. reflexivity.
Defined.

(** ** Where the outgroups come from *)

(** X6.  Every outgroup that a first run of [greedy] records for a source
    comes from a candidate pair of that source: the recorded distance is
    the one of the pair, and source and sink are not on the same path of
    the directed table, neither being an ancestor of the other. *)
Theorem greedy_outgroups_off_path (p : GreedyParams) (s s' : GreedyOutgroup)
    (Hempty : ogMap s = ∅)
    (Hrun : greedy p s = Ok s') :
  forall name sinkName d,
    In (sinkName, d) (og_list (ogMap s') name) ->
    exists source sink,
      getName (mcTree s) source = name /\ getName (mcTree s) sink = sinkName /\
      In (d, (source, sink)) (orderedPairs s) /\
      onSamePath (dmDirected s) source sink = false.
Proof.
  destruct (greedy_og_list _ _ _ Hrun) as (st0 & st & Hinit & Hloop & Hfinal).
  destruct (greedy_init_self _ _ _ Hinit) as (_ & Hm0 & _ & Hd0 & _ & Ht0).
  set (P := fun st1 : GreedyLoop =>
              dmDirected (self st1) = dmDirected s /\ mcTree (self st1) = mcTree s /\
              forall name sinkName d,
                In (sinkName, d) (og_list (ogMap (self st1)) name) ->
                exists source sink,
                  getName (mcTree s) source = name /\ getName (mcTree s) sink = sinkName /\
                  In (d, (source, sink)) (orderedPairs s) /\
                  onSamePath (dmDirected s) source sink = false).
  assert (Hinv : P st).
  { revert Hloop. unfold greedy_loop.
    apply (foldM_invariant P (greedy_step p) (orderedPairs s)).
    - intros s1 c s2 Hc (Hd1 & Ht1 & Hall) Hstep.
      destruct (greedy_step_frame _ _ _ _ Hstep) as (_ & Hd2 & _ & Ht2).
      split; [congruence|]. split; [congruence|].
      destruct (greedy_step_outcome _ _ _ _ Hstep) as
        [_ Hm | s0 source sink dag1 _ _ _ Hm | s0 source sink dag1 _ _ Hpath _ Hm
         | s0 source sink dag1 _ _ Hm]; rewrite Hm; try exact Hall.
      + intros name sinkName d. rewrite og_list_insert.
        destruct (decide _) as [->|]; apply Hall.
      + intros name sinkName d. rewrite og_list_insert.
        destruct (decide _) as [<-|]; [|apply Hall].
        intros [Hin | [[= <- <-] | []]]%in_app_iff; [exact (Hall _ _ _ Hin)|].
        exists source, sink. unfold s0 in *. rewrite Ht1, Hd1 in *.
        repeat split; try assumption.
        destruct c as [d [a b]]. exact Hc.
    - split; [exact Hd0|]. split; [exact Ht0|]. rewrite Hm0, Hempty.
      intros name sinkName d. unfold og_list. rewrite lookup_empty. intros []. }
  destruct Hinv as (_ & _ & Hall). intros name sinkName d. rewrite Hfinal. intros Hin.
  apply (Permutation_in _ (sorted_perm snd _)) in Hin. exact (Hall _ _ _ Hin).
Qed.

Lemma greedy_outgroups_off_path_witness :
  og_list (ogMap ex_state_run1) "1" = [("2"%string, 2%Q); ("4"%string, 3%Q)] /\
  (exists source sink,
      getName (mcTree ex_state) source = "1"%string /\
      getName (mcTree ex_state) sink = "4"%string /\
      In (3%Q, (source, sink)) (orderedPairs ex_state) /\
      onSamePath (dmDirected ex_state) source sink = false).
Proof.
  split; [vm_compute; reflexivity|].
  apply (greedy_outgroups_off_path (ex_params_free 2) ex_state ex_state_run1).
  - reflexivity.
  - vm_compute. reflexivity.
  - vm_compute. right. left. reflexivity.
Defined.

(** ** Leaves receive no outgroup *)

Lemma filter_map_same {A} (P : A -> bool) (f : A -> A) (l : list A) :
  (forall x, P (f x) = P x) -> (forall x, P x = true -> f x = x) ->
  List.filter P (map f l) = List.filter P l.
Proof.
  intros HP Hf. induction l as [|x l IH]; simpl; [reflexivity|].
  rewrite HP. destruct (P x) eqn:E; [|exact IH]. now rewrite (Hf x E), IH.
Qed.

Lemma out_edges_add_edge g s k d n :
  s <> n -> out_edges (add_edge g s k d) n = out_edges g n.
Proof.
  intros Hne. unfold out_edges, add_edge. rewrite !edges_add_node.
  destruct (has_edge _ s k); simpl.
  - f_equal. apply filter_map_same.
    + intros e. destruct (is_edge s k e) eqn:E; [|reflexivity].
      apply is_edge_true in E. destruct E as [<- _]. reflexivity.
    + intros e He. destruct (is_edge s k e) eqn:E; [|reflexivity].
      apply is_edge_true in E. destruct E as [E _]. apply Nat.eqb_eq in He. congruence.
  - rewrite List.filter_app. simpl. unfold e_src at 2. simpl.
    apply Nat.eqb_neq in Hne. rewrite Hne. now rewrite app_nil_r.
Qed.

Lemma out_edges_remove_edge g s k n :
  s <> n -> out_edges (remove_edge g s k) n = out_edges g n.
Proof.
  intros Hne. unfold out_edges, remove_edge. simpl. f_equal.
  induction (edges g) as [|e l IH]; simpl; [reflexivity|].
  destruct (is_edge s k e) eqn:E; simpl.
  - apply is_edge_true in E. destruct E as [E _].
    assert (Nat.eqb (e_src e) n = false) by (apply Nat.eqb_neq; congruence).
    now rewrite H.
  - destruct (Nat.eqb (e_src e) n); [now rewrite IH | exact IH].
Qed.

(** A pass for a source without outgoing edge changes neither the graph nor
    the map: the source is put into [finished] at once. *)
Lemma greedy_step_leaf_source p st c st' :
  out_edges (dag (self st)) (fst (snd c)) = [] ->
  greedy_step p st c = Ok st' ->
  dag (self st') = dag (self st) /\ ogMap (self st') = ogMap (self st).
Proof.
  intros Hleaf. unfold greedy_step. rewrite Hleaf.
  change (length (@nil (node * node)) =? 0) with true. cbv iota. intros H.
  destruct (inCandidateSet (mcTree (self st)) (candidateMap (self st)) (snd (snd c))
              (candidateChildFrac p)) as [isCand cmap].
  destruct isCand; simpl in H.
  2:{ injection H as <-. split; reflexivity. }
  apply bind_Ok in H. destruct H as (over & _ & H).
  destruct over.
  { injection H as <-. split; reflexivity. }
  match type of H with
  | (if negb (bool_decide (_ ∈ ?F)) && _ then _ else _) = _ =>
    assert (Hin : fst (snd c) ∈ F)
  end.
  { destruct (ogMap (self st) !! getName (mcTree (self st)) (fst (snd c))) as [l|];
      [destruct (maxNumOutgroups p <=? Z.of_nat (length l))%Z|]; set_solver. }
  rewrite (bool_decide_eq_true_2 _ Hin) in H. simpl in H.
  injection H as <-. split; reflexivity.
Qed.

(** X7.  A node without outgoing edge (a leaf of the tree) never becomes a
    source: when its list is empty before a run of [greedy] it is empty
    after the run, and the node still has no outgoing edge. *)
Theorem greedy_leaf_gets_no_outgroup (p : GreedyParams) (s s' : GreedyOutgroup) (n : node)
    (Hnames : Inj (=) (=) (getName (mcTree s)))
    (Hleaf : out_edges (dag s) n = [])
    (Hnone : og_list (ogMap s) (getName (mcTree s) n) = [])
    (Hrun : greedy p s = Ok s') :
  og_list (ogMap s') (getName (mcTree s) n) = [] /\ out_edges (dag s') n = [].
Proof.
  destruct (greedy_og_list _ _ _ Hrun) as (st0 & st & Hinit & Hloop & Hfinal).
  destruct (greedy_init_self _ _ _ Hinit) as (Hg0 & Hm0 & _ & _ & _ & Ht0).
  set (P := fun st1 : GreedyLoop =>
              mcTree (self st1) = mcTree s /\ out_edges (dag (self st1)) n = [] /\
              og_list (ogMap (self st1)) (getName (mcTree s) n) = []).
  assert (Hinv : P st).
  { revert Hloop. unfold greedy_loop.
    apply (foldM_invariant P (greedy_step p) (orderedPairs s)).
    - intros s1 c s2 _ (Ht1 & Hout & Hlist) Hstep.
      destruct (greedy_step_frame _ _ _ _ Hstep) as (_ & _ & _ & Ht2).
      split; [congruence|].
      destruct (Nat.eq_dec (fst (snd c)) n) as [Heq | Hne].
      + rewrite <- Heq in Hout.
        destruct (greedy_step_leaf_source _ _ _ _ Hout Hstep) as [-> ->].
        rewrite Heq in Hout. split; assumption.
      + destruct (greedy_step_outcome _ _ _ _ Hstep) as
          [Hd Hm | s0 source sink dag1 _ Hd _ Hm | s0 source sink dag1 _ Hd _ _ Hm
           | s0 source sink dag1 _ Hd Hm]; rewrite Hd, Hm.
        * split; assumption.
        * split; [unfold dag1; now rewrite out_edges_add_edge|].
          rewrite og_list_insert. destruct (decide _) as [->|]; exact Hlist.
        * split; [unfold dag1; now rewrite out_edges_add_edge|].
          rewrite og_list_insert. destruct (decide _) as [Heq|]; [|exact Hlist].
          unfold s0 in Heq. rewrite Ht1 in Heq. apply Hnames in Heq. contradiction.
        * split; [|exact Hlist].
          unfold dag1. rewrite out_edges_remove_edge, out_edges_add_edge; assumption.
    - split; [exact Ht0|]. rewrite Hg0, Hm0. split; assumption. }
  destruct Hinv as (_ & Hout & Hlist). split.
  - rewrite Hfinal, Hlist. reflexivity.
  - unfold greedy in Hrun. rewrite Hinit in Hrun. simpl in Hrun.
    unfold greedy_loop in Hloop. unfold greedy_loop in Hrun. rewrite Hloop in Hrun.
    simpl in Hrun. injection Hrun as <-. exact Hout.
Qed.

Lemma greedy_leaf_gets_no_outgroup_witness :
  og_list (ogMap ex_state_run1) "3" = [] /\ out_edges (dag ex_state_run1) 3 = [].
Proof.
  apply (greedy_leaf_gets_no_outgroup (ex_params_free 2) ex_state ex_state_run1 3).
  - apply pretty_nat_inj.
  - reflexivity.
  - reflexivity.
  - vm_compute. reflexivity.
Defined.

(** ** The height table *)

Lemma out_edges_children g n c :
  In c (map snd (out_edges g n)) <-> has_edge g n c = true.
Proof.
  unfold out_edges. rewrite map_map, in_map_iff, has_edge_In. split.
  - intros ([[u v] d] & Hv & He). simpl in Hv. subst v.
    apply filter_In in He. destruct He as [He Hu]. apply Nat.eqb_eq in Hu.
    unfold e_src in Hu. simpl in Hu. subst u. eauto.
  - intros [d Hd]. exists (n, c, d). split; [reflexivity|].
    apply filter_In. split; [exact Hd|]. apply Nat.eqb_refl.
Qed.

Lemma gather_heights (ht : gmap node Z) l : forall acc hs,
  foldM (fun acc i => h ← from_option KeyError (ht !! i); Ok (acc ++ [h])) l acc = Ok hs ->
  exists hs', hs = acc ++ hs' /\ Forall2 (fun c h => ht !! c = Some h) l hs'.
Proof.
  induction l as [|c l IH]; intros acc hs H; cbn [foldM] in H.
  - injection H as <-. exists []. split; [now rewrite app_nil_r | constructor].
  - destruct (ht !! c) as [h|] eqn:E; simpl in H; [|discriminate].
    destruct (IH _ _ H) as (hs' & -> & Hall). exists (h :: hs').
    split; [now rewrite <- app_assoc | constructor; assumption].
Qed.

Lemma foldM_raises {A S} (f : S -> A -> result S) (l : list A) (x : A) s s' :
  In x l -> (forall s0 s1, f s0 x <> Ok s1) -> foldM f l s <> Ok s'.
Proof.
  revert s. induction l as [|y l IH]; intros s Hin Hx; [destruct Hin|].
  cbn [foldM]. destruct Hin as [-> | Hin].
  - destruct (f s x) as [s1|] eqn:E; [exfalso; exact (Hx _ _ E) | discriminate].
  - destruct (f s y) as [s1|]; [exact (IH _ Hin Hx) | discriminate].
Qed.

(** With an edge from a node to itself the recursion never returns. *)
Lemma heightTable_self_loop dag n :
  has_edge dag n n = true -> forall fuel ht ht', heightTable fuel dag n ht <> Ok ht'.
Proof.
  intros Hloop. induction fuel as [|fuel IH]; intros ht ht'; [discriminate|].
  cbn [heightTable]. apply out_edges_children in Hloop.
  destruct (map snd (out_edges dag n)) as [|c cs] eqn:Ecs; [destruct Hloop|].
  intros H. apply bind_Ok in H. destruct H as (ht1 & Hfold & _).
  exact (foldM_raises _ _ n _ _ Hloop (fun s0 s1 => IH s0 s1) Hfold).
Qed.

Lemma heightTable_defined fuel dag : forall n ht ht',
  heightTable fuel dag n ht = Ok ht' ->
  (forall m, is_Some (ht !! m) -> is_Some (ht' !! m)) /\
  (forall m, rtc (edge_rel dag) n m -> is_Some (ht' !! m)).
Proof.
  induction fuel as [|fuel IH]; intros n ht ht' H; [discriminate|].
  cbn [heightTable] in H.
  destruct (map snd (out_edges dag n)) as [|c cs] eqn:Ecs.
  - injection H as <-. split.
    + intros m Hm. rewrite lookup_insert. destruct (decide (n = m)); [eauto | exact Hm].
    + intros m Hm. apply rtc_inv in Hm. destruct Hm as [<- | (y & Hy & _)].
      * rewrite lookup_insert_eq. eauto.
      * apply out_edges_children in Hy. rewrite Ecs in Hy. destruct Hy.
  - apply bind_Ok in H. destruct H as (ht1 & Hfold & H).
    apply bind_Ok in H. destruct H as (hs & _ & H). injection H as <-.
    assert (Hkids : (forall m, is_Some (ht !! m) -> is_Some (ht1 !! m)) /\
                    (forall k m, In k (c :: cs) -> rtc (edge_rel dag) k m ->
                                 is_Some (ht1 !! m))).
    { revert Hfold. generalize (c :: cs). intros kids. revert ht.
      induction kids as [|k kids IHk]; intros ht Hfold; cbn [foldM] in Hfold.
      - injection Hfold as <-. split; [auto | intros k m []].
      - destruct (heightTable fuel dag k ht) as [ht2|] eqn:E; [|discriminate].
        destruct (IH _ _ _ E) as [Hmono Hreach].
        destruct (IHk _ Hfold) as [Hmono' Hreach'].
        split; [auto|]. intros k' m [<- | Hin] Hm; [auto | eauto]. }
    destruct Hkids as [Hmono Hreach]. split.
    + intros m Hm. rewrite lookup_insert. destruct (decide (n = m)); [eauto | auto].
    + intros m Hm. rewrite lookup_insert. destruct (decide (n = m)); [eauto|].
      apply rtc_inv in Hm. destruct Hm as [<- | (y & Hy & Hym)]; [congruence|].
      apply out_edges_children in Hy. rewrite Ecs in Hy. exact (Hreach y m Hy Hym).
Qed.

Lemma heights_insert (ht : gmap node Z) n v l hs :
  Forall2 (fun c h => ht !! c = Some h) l hs -> ~ In n l ->
  Forall2 (fun c h => <[n := v]> ht !! c = Some h) l hs.
Proof.
  induction 1 as [|k h ks hs0 Hk Hall IHa]; intros Hn; constructor.
  - rewrite lookup_insert_ne; [exact Hk|]. intros ->. apply Hn. now left.
  - apply IHa. intros Hin. apply Hn. now right.
Qed.

(** X8.  When [heightTable] returns for a node, every node that can be
    reached from it has an entry, entries that were there are still there,
    and the entry of the node itself is 0 when it has no children and
    otherwise one more than the largest entry of its children. *)
Theorem heightTable_spec (fuel : nat) (dag : DiGraph) (n : node) (ht ht' : gmap node Z)
    (Hrun : heightTable fuel dag n ht = Ok ht') :
  (forall m, rtc (edge_rel dag) n m -> is_Some (ht' !! m)) /\
  (forall m, is_Some (ht !! m) -> is_Some (ht' !! m)) /\
  exists hs, Forall2 (fun c h => ht' !! c = Some h) (map snd (out_edges dag n)) hs /\
             ht' !! n = Some (match hs with
                              | [] => 0
                              | _ :: _ => fold_right Z.max (hd 0 hs) hs + 1
                              end)%Z.
Proof.
  destruct (heightTable_defined _ _ _ _ _ Hrun) as [Hmono Hreach].
  split; [exact Hreach|]. split; [exact Hmono|].
  destruct fuel as [|fuel]; [discriminate|]. cbn [heightTable] in Hrun.
  destruct (map snd (out_edges dag n)) as [|c cs] eqn:Ecs.
  - injection Hrun as <-. exists []. split; [constructor | apply lookup_insert_eq].
  - assert (Hself : ~ In n (c :: cs)).
    { intros Hin. rewrite <- Ecs in Hin. apply out_edges_children in Hin.
      refine (heightTable_self_loop dag n Hin (S fuel) ht ht' _).
      cbn [heightTable]. rewrite Ecs. exact Hrun. }
    apply bind_Ok in Hrun. destruct Hrun as (ht1 & _ & H).
    apply bind_Ok in H. destruct H as (hs & Hhs & H). injection H as <-.
    destruct (gather_heights _ _ _ _ Hhs) as (hs' & -> & Hall). simpl.
    exists hs'. split.
    + exact (heights_insert _ _ _ _ _ Hall Hself).
    + rewrite lookup_insert_eq. inversion Hall; subst. reflexivity.
Qed.

Lemma heightTable_spec_witness :
  exists ht', heightTable 6 ex_graph 0 ∅ = Ok ht' /\
              ht' !! 5 = Some 0%Z /\ ht' !! 2 = Some 2%Z /\ ht' !! 0 = Some 3%Z /\
              (forall m, rtc (edge_rel ex_graph) 0 m -> is_Some (ht' !! m)).
Proof.
  eexists. split; [vm_compute; reflexivity|].
  split; [vm_compute; reflexivity|]. split; [vm_compute; reflexivity|].
  split; [vm_compute; reflexivity|].
  apply (heightTable_spec 6 ex_graph 0 ∅). vm_compute. reflexivity.
Defined.

(** ** The candidate filter *)

(** X9.  [inCandidateSet] memoises: it never changes an entry of
    [candidateMap] that is there; asked again for the same node it gives
    the same answer and leaves the map alone; without candidates (an empty
    map) every node passes and nothing is stored; otherwise the answer is
    stored under the name of the node. *)
Theorem inCandidateSet_memo (t : MultiCactusTree) (cmap cmap' : gmap string bool)
    (n : node) (frac : Q) (b : bool)
    (Hcall : inCandidateSet t cmap n frac = (b, cmap')) :
  (forall k v, cmap !! k = Some v -> cmap' !! k = Some v) /\
  inCandidateSet t cmap' n frac = (b, cmap') /\
  (cmap = ∅ -> b = true /\ cmap' = ∅) /\
  (cmap <> ∅ -> cmap' !! getName t n = Some b).
Proof.
  unfold inCandidateSet in Hcall.
  destruct (size cmap =? 0) eqn:Esize.
  - apply Nat.eqb_eq, map_size_empty_iff in Esize. injection Hcall as <- <-.
    split; [auto|]. split.
    { unfold inCandidateSet. rewrite Esize, map_size_empty. reflexivity. }
    split; [auto|]. intros Hne. contradiction.
  - assert (Hne : cmap <> ∅).
    { intros ->. rewrite map_size_empty in Esize. discriminate. }
    assert (Hmemo : forall m, m !! getName t n = Some b ->
                              inCandidateSet t m n frac = (b, m)).
    { intros m Hm. unfold inCandidateSet.
      destruct (size m =? 0) eqn:E.
      - apply Nat.eqb_eq, map_size_empty_iff in E. subst m.
        rewrite lookup_empty in Hm. discriminate.
      - rewrite Hm. reflexivity. }
    destruct (cmap !! getName t n) as [b0|] eqn:Elook.
    + injection Hcall as <- <-.
      split; [auto|]. split; [now apply Hmemo|]. split; [intros ->; contradiction | auto].
    + assert (Hins : forall v, cmap' = <[getName t n := v]> cmap -> b = v ->
                 (forall k v0, cmap !! k = Some v0 -> cmap' !! k = Some v0) /\
                 inCandidateSet t cmap' n frac = (b, cmap') /\
                 (cmap = ∅ -> b = true /\ cmap' = ∅) /\
                 (cmap <> ∅ -> cmap' !! getName t n = Some b)).
      { intros v -> ->. split; [|split; [|split]].
        - intros k v0 Hk. rewrite lookup_insert_ne; [exact Hk | congruence].
        - apply Hmemo, lookup_insert_eq.
        - intros ->. contradiction.
        - intros _. apply lookup_insert_eq. }
      destruct (length (List.filter (isLeaf t) (breadthFirstTraversal t n)) =? 0).
      * injection Hcall as <- <-. now apply (Hins false).
      * match type of Hcall with
        | (if ?c then _ else _) = _ => destruct c
        end; injection Hcall as <- <-; [now apply (Hins true) | now apply (Hins false)].
Qed.

(** ** Stripping of the non-event nodes *)

(** X10.  [stripNonEvents] never changes the graph.  It returns the graph as
    it is when the node has no parent and is a subtree root or has no
    children; it raises [TypeError] when the node has exactly one parent,
    and fails an assertion when the node has several parents or is a
    parentless non-event node with children. *)
Theorem stripNonEvents_outcome (fuel : nat) (dag : DiGraph) (id : node) (roots : list node) :
  let parentCount := length (in_edges dag id) in
  let keep := mem_node id roots || (length (out_edges dag id) =? 0) in
  stripNonEvents (S fuel) dag id roots =
    if 1 <? parentCount then Raise AssertionError
    else if parentCount =? 1 then Raise TypeError
    else if keep then Ok dag
    else Raise AssertionError.
Proof.
  cbn [stripNonEvents]. rewrite length_map.
  destruct (length (in_edges dag id)) as [|[|k]] eqn:E; simpl.
  - destruct (mem_node id roots); simpl; [reflexivity|].
    destruct (length (out_edges dag id)) as [|j]; reflexivity.
  - reflexivity.
  - reflexivity.
Qed.

Lemma inCandidateSet_memo_witness :
  inCandidateSet ex_tree {[ "1"%string := true ]} 3 2 = (false, <[ "3"%string := false ]> {[ "1"%string := true ]}) /\
  inCandidateSet ex_tree (<[ "3"%string := false ]> {[ "1"%string := true ]}) 3 2
  = (false, <[ "3"%string := false ]> {[ "1"%string := true ]}).
Proof.
  assert (H : inCandidateSet ex_tree {[ "1"%string := true ]} 3 2
              = (false, <[ "3"%string := false ]> {[ "1"%string := true ]}))
    by (vm_compute; reflexivity).
  split; [exact H|].
  exact (proj1 (proj2 (inCandidateSet_memo _ _ _ _ _ _ H))).
Defined.

(** ** [compute] *)

Lemma compute_node_frame exp st n st' :
  compute_node exp st n = Ok st' ->
  d_mcTree st' = d_mcTree st /\ numOG st' = numOG st /\
  (d_ogMap st' = d_ogMap st \/
   exists e, isLeaf (d_mcTree st) n = false /\
             d_ogMap st' = <[getName (d_mcTree st) n := OgNodes (solution e)]> (d_ogMap st) /\
             entry_ok (numOG st) e).
Proof.
  unfold compute_node. destruct (isLeaf (d_mcTree st) n) eqn:Eleaf.
  - intros [= <-]. auto.
  - intros H. apply bind_Ok in H. destruct H as (s0 & Hinit & H).
    apply bind_Ok in H. destruct H as (s1 & Hrun & H).
    apply bind_Ok in H. destruct H as (e & He & H).
    injection H as <-. simpl. repeat split. right. exists e. repeat split.
    destruct (dp_get_Ok _ _ _ _ He) as (row & Hrow & Hk).
    destruct (dpInit_table _ _ _ _ Hinit) as [Hok _].
    destruct (dpRun_keeps _ _ _ _ _ Hrun) as (_ & _ & _ & Hok' & _).
    exact (Hok' Hok _ _ _ _ Hrow Hk).
Qed.

(** X11.  [compute] starts from an empty outgroup map: its result is the same
    whatever the map held before the call.  Every entry of the map it
    returns was written in this call for a node of the traversal that is
    not a leaf, and is a list of at most [numOG] nodes. *)
Theorem compute_discards_prior_map (exp : Q -> Q) (st st' : DynamicOutgroup)
    (Hrun : compute exp st = Ok st') :
  (forall m, compute exp (set_d_ogMap st m) = Ok st') /\
  (forall name v, d_ogMap st' !! name = Some v ->
     exists n l, In n (breadthFirstTraversal (d_mcTree st) (rootId (d_mcTree st))) /\
                 isLeaf (d_mcTree st) n = false /\ getName (d_mcTree st) n = name /\
                 v = OgNodes l /\ length l <= numOG st).
Proof.
  split; [intros m; exact Hrun|].
  unfold compute in Hrun.
  set (bfs := breadthFirstTraversal (d_mcTree st) (rootId (d_mcTree st))) in *.
  set (P := fun s : DynamicOutgroup =>
              d_mcTree s = d_mcTree st /\ numOG s = numOG st /\
              forall name v, d_ogMap s !! name = Some v ->
                exists n l, In n bfs /\ isLeaf (d_mcTree st) n = false /\
                            getName (d_mcTree st) n = name /\ v = OgNodes l /\
                            length l <= numOG st).
  assert (Hinv : P st').
  { revert Hrun. apply (foldM_invariant P (compute_node exp) bfs).
    - intros s n s1 Hn (Ht & Hk & Hall) Hstep.
      destruct (compute_node_frame _ _ _ _ Hstep) as (Ht1 & Hk1 & Hmap).
      split; [congruence|]. split; [congruence|].
      destruct Hmap as [-> | (e & Hleaf & -> & He)]; [exact Hall|].
      intros name v. rewrite lookup_insert. destruct (decide _) as [Hname|]; [|apply Hall].
      intros [= <-]. exists n, (solution e). rewrite Ht in *. repeat split; try assumption.
      rewrite Hk in He. destruct He as [[_ ->] | [_ ->]]; simpl; lia.
    - repeat split. simpl. intros name v. rewrite lookup_empty. discriminate. }
  exact (proj2 (proj2 Hinv)).
Qed.

Lemma compute_discards_prior_map_witness :
  exists st', compute dp_exp (set_d_ogMap dp_state {[ "1"%string := OgPairs [("2"%string, 1%Q)] ]})
              = Ok st' /\
              d_ogMap st' !! "1"%string = Some (OgNodes [2]) /\
              (forall name v, d_ogMap st' !! name = Some v ->
                 exists n l, In n (breadthFirstTraversal dp_tree 0) /\
                             isLeaf dp_tree n = false /\ pretty n = name /\
                             v = OgNodes l /\ length l <= 1).
Proof.
  destruct (compute dp_exp dp_state) as [st'|] eqn:E; [|vm_compute in E; discriminate].
  exists st'.
  destruct (compute_discards_prior_map dp_exp dp_state st' E) as [H1 H2].
  split; [apply H1|]. split; [|exact H2].
  vm_compute in E. injection E as <-. vm_compute. reflexivity.
Defined.

(** ** Sequence statistics *)

Lemma scan_counts records : forall c l,
  fold_left (fun ct (r : string * string) =>
               (fst ct + 1, snd ct + Z.of_nat (String.length (snd r)))%Z) records (c, l)
  = (c + fst (file_stats records), l + snd (file_stats records))%Z.
Proof.
  induction records as [|r records IH]; intros c l.
  - simpl. f_equal; lia.
  - cbn [fold_left]. rewrite IH. unfold file_stats. cbn [fst snd length fold_right].
    rewrite Nat2Z.inj_succ. f_equal; lia.
Qed.

(** X12.  The counters are reset for every file: after the files of an event
    have been read, [count] and [totalLen] are those of the last file
    alone, whatever the files before it held. *)
Theorem scan_keeps_last_file (fs : FileSystem) (paths : list string) (last : string)
    (cur cur' : option (Z * Z))
    (Hscan : foldM (scan_file fs) (paths ++ [last]) cur = Ok cur') :
  exists records, fs last = Some (FsFile records) /\ cur' = Some (file_stats records).
Proof.
  rewrite foldM_app in Hscan. apply bind_Ok in Hscan. destruct Hscan as (cur1 & _ & H).
  cbn [foldM] in H. unfold scan_file in H.
  destruct (fs last) as [[records|entries]|]; try discriminate.
  injection H as <-. exists records. split; [reflexivity|].
  rewrite scan_counts. reflexivity.
Qed.

Lemma scan_keeps_last_file_witness :
  exists records, dp_fs "d2/b" = Some (FsFile records) /\
                  Some (1, 5)%Z = Some (file_stats records).
Proof.
  apply (scan_keeps_last_file dp_fs ["d2/a"%string] "d2/b" None (Some (1, 5)%Z)).
  vm_compute. reflexivity.
Defined.

Lemma propagate_monotone fuel t ct : forall x info info',
  propagate fuel t ct x info = Ok info' ->
  forall a si, info !! a = Some si ->
    exists si', info' !! a = Some si' /\
                (count si' <= count si)%Z /\ (totalLen si <= totalLen si')%Z.
Proof.
  induction fuel as [|fuel IH]; intros x info info' H a si Ha.
  - cbn [propagate] in H. destruct (getParent t x); [discriminate|].
    injection H as <-. exists si. repeat split; [exact Ha | lia | lia].
  - cbn [propagate] in H. destruct (getParent t x) as [x'|].
    2:{ injection H as <-. exists si. repeat split; [exact Ha | lia | lia]. }
    destruct (info !! x') as [old|] eqn:Eold.
    + destruct (decide (x' = a)) as [->|Hne].
      * rewrite Ha in Eold. injection Eold as <-.
        destruct (IH _ _ _ H a _ (lookup_insert_eq _ _ _)) as (si' & Hsi' & Hc & Hl).
        simpl in Hc, Hl. exists si'. repeat split; [exact Hsi' | lia | lia].
      * apply (IH _ _ _ H). rewrite lookup_insert_ne by exact Hne. exact Ha.
    + destruct (decide (x' = a)) as [->|Hne]; [congruence|].
      apply (IH _ _ _ H). rewrite lookup_insert_ne by exact Hne. exact Ha.
Qed.

(** X13.  The walk from a node to the root is conservative: when it returns,
    every ancestor of the node has statistics with a count that is at most
    the count carried up and a total length that is at least the length
    carried up, and no entry of the table has gained in count or lost in
    length. *)
Theorem propagate_min_max (fuel : nat) (t : MultiCactusTree) (ct : Z * Z) (x : node)
    (info info' : gmap node SeqInfo)
    (Hrun : propagate fuel t ct x info = Ok info') :
  (forall a, tc (parent_of t) x a ->
     exists si, info' !! a = Some si /\
                (count si <= fst ct)%Z /\ (snd ct <= totalLen si)%Z) /\
  (forall a si, info !! a = Some si ->
     exists si', info' !! a = Some si' /\
                 (count si' <= count si)%Z /\ (totalLen si <= totalLen si')%Z).
Proof.
  split; [|exact (propagate_monotone _ _ _ _ _ _ Hrun)].
  revert x info info' Hrun.
  induction fuel as [|fuel IH]; intros x info info' H a Hanc.
  - cbn [propagate] in H. destruct (getParent t x) as [x'|] eqn:Ep; [discriminate|].
    exfalso. inversion Hanc as [? ? Hxy | ? ? ? Hxy _]; subst;
      unfold parent_of in Hxy; congruence.
  - cbn [propagate] in H. destruct (getParent t x) as [x'|] eqn:Ep.
    2:{ exfalso. inversion Hanc as [? ? Hxy | ? ? ? Hxy _]; subst;
        unfold parent_of in Hxy; congruence. }
    set (info1 := match info !! x' with
                  | Some old => <[x' := {| count := Z.min (fst ct) (count old);
                                           totalLen := Z.max (snd ct) (totalLen old) |}]> info
                  | None => <[x' := {| count := fst ct; totalLen := snd ct |}]> info
                  end).
    assert (H1 : propagate fuel t ct x' info1 = Ok info').
    { unfold info1. destruct (info !! x'); exact H. }
    assert (Hx' : exists si, info1 !! x' = Some si /\
                             (count si <= fst ct)%Z /\ (snd ct <= totalLen si)%Z).
    { unfold info1. destruct (info !! x') as [old|]; rewrite lookup_insert_eq;
        eexists; (split; [reflexivity|]); simpl; lia. }
    assert (Hcase : a = x' \/ tc (parent_of t) x' a).
    { inversion Hanc as [? ? Hxy | ? y ? Hxy Hya]; subst; unfold parent_of in Hxy;
        rewrite Ep in Hxy; injection Hxy as <-; [now left | now right]. }
    destruct Hcase as [-> | Hanc'].
    + destruct Hx' as (si & Hsi & Hc & Hl).
      destruct (propagate_monotone _ _ _ _ _ _ H1 _ _ Hsi) as (si' & Hsi' & Hc' & Hl').
      exists si'. repeat split; [exact Hsi' | lia | lia].
    + exact (IH _ _ _ H1 a Hanc').
Qed.

Lemma propagate_min_max_witness :
  exists info', propagate 5 dp_tree (2, 10)%Z 3 {[ 1 := {| count := 1; totalLen := 12 |} ]}
                = Ok info' /\
                info' !! 1 = Some {| count := 1; totalLen := 12 |} /\
                (forall a, tc (parent_of dp_tree) 3 a ->
                   exists si, info' !! a = Some si /\
                              (count si <= 2)%Z /\ (10 <= totalLen si)%Z).
Proof.
  eexists. split; [vm_compute; reflexivity|]. split; [vm_compute; reflexivity|].
  apply (propagate_min_max 5 dp_tree (2, 10)%Z 3 {[ 1 := {| count := 1; totalLen := 12 |} ]}).
  vm_compute. reflexivity.
Defined.

(** ** The directed table holds the reachable nodes *)

Lemma mem_assoc_set_assoc {A} k (a : A) l u :
  mem_assoc u (set_assoc k a l) = Nat.eqb u k || mem_assoc u l.
Proof.
  unfold mem_assoc. rewrite assoc_set_assoc. destruct (Nat.eqb u k); reflexivity.
Qed.

Lemma succ_weights_edge g v w :
  has_edge g v w = true <-> exists wt, In (w, wt) (succ_weights g v).
Proof.
  unfold succ_weights. rewrite has_edge_In. split.
  - intros [d Hd]. eexists. apply in_map_iff. exists (v, w, d). split; [reflexivity|].
    apply filter_In. split; [exact Hd | apply Nat.eqb_refl].
  - intros [wt Hwt]. apply in_map_iff in Hwt. destruct Hwt as ([[a b] d] & [= <- _] & He).
    apply filter_In in He. destruct He as [He Ha]. apply Nat.eqb_eq in Ha.
    unfold e_src in Ha. simpl in Ha. subst a. unfold e_dst. simpl. eauto.
Qed.

(** What one relaxation does to [seen] and to the fringe. *)
Lemma relax_facts dist d seen fringe w wt seen1 fringe1 :
  relax dist d (seen, fringe) (w, wt) = Ok (seen1, fringe1) ->
  (forall x, In x fringe -> In x fringe1) /\
  (forall x, In x fringe1 -> In x fringe \/ snd x = w) /\
  (forall u, mem_assoc u seen1 = true ->
             mem_assoc u seen = true \/ exists d', In (d', u) fringe1) /\
  (mem_assoc w dist = true \/ mem_assoc w seen = true \/ exists d', In (d', w) fringe1).
Proof.
  unfold relax.
  assert (Hpush : forall x0,
             (forall x, In x fringe -> In x (heappush fringe (x0, w))) /\
             (forall x, In x (heappush fringe (x0, w)) -> In x fringe \/ snd x = w) /\
             (forall u, mem_assoc u (set_assoc w x0 seen) = true ->
                        mem_assoc u seen = true \/
                        exists d', In (d', u) (heappush fringe (x0, w))) /\
             (mem_assoc w dist = true \/ mem_assoc w seen = true \/
              exists d', In (d', w) (heappush fringe (x0, w)))).
  { intros x0. repeat split.
    - intros x Hx. apply heappush_In. now right.
    - intros x [-> | Hx]%heappush_In; [now right | now left].
    - intros u. rewrite mem_assoc_set_assoc.
      intros [->%Nat.eqb_eq | Hu]%orb_true_iff; [|now left].
      right. exists x0. apply heappush_In. now left.
    - right. right. exists x0. apply heappush_In. now left. }
  destruct (assoc w dist) as [dw|] eqn:Ew.
  - destruct (Qltb (d + wt) dw); [discriminate|]. intros [= <- <-].
    repeat split; auto. left. unfold mem_assoc. now rewrite Ew.
  - destruct (assoc w seen) as [sw|] eqn:Es.
    + destruct (Qltb (d + wt) sw).
      * intros [= <- <-]. apply Hpush.
      * intros [= <- <-]. repeat split; auto. right. left. unfold mem_assoc. now rewrite Es.
    + intros [= <- <-]. apply Hpush.
Qed.

Lemma relax_fold_facts dist d l : forall seen fringe seen1 fringe1,
  foldM (relax dist d) l (seen, fringe) = Ok (seen1, fringe1) ->
  (forall x, In x fringe -> In x fringe1) /\
  (forall x, In x fringe1 -> In x fringe \/ exists wt, In (snd x, wt) l) /\
  (forall u, mem_assoc u seen1 = true ->
             mem_assoc u seen = true \/ exists d', In (d', u) fringe1) /\
  (forall w wt, In (w, wt) l ->
     mem_assoc w dist = true \/ mem_assoc w seen = true \/ exists d', In (d', w) fringe1).
Proof.
  induction l as [|[w wt] l IH]; intros seen fringe seen1 fringe1 H; cbn [foldM] in H.
  - injection H as <- <-. repeat split; auto; intros w wt [].
  - destruct (relax dist d (seen, fringe) (w, wt)) as [[seen2 fringe2]|] eqn:E; [|discriminate].
    destruct (relax_facts _ _ _ _ _ _ _ _ E) as (A1 & B1 & C1 & D1).
    destruct (IH _ _ _ _ H) as (A2 & B2 & C2 & D2).
    split; [auto|]. split; [|split].
    + intros x Hx. destruct (B2 x Hx) as [Hx2 | [wt' Hw]].
      * destruct (B1 x Hx2) as [Hx1 | Hw]; [now left|].
        right. exists wt. left. now rewrite Hw.
      * right. exists wt'. now right.
    + intros u Hu. destruct (C2 u Hu) as [Hu2 | Hf]; [|now right].
      destruct (C1 u Hu2) as [Hu1 | [d' Hd']]; [now left|]. right. eauto.
    + intros w' wt' [[= <- <-] | Hin].
      * destruct D1 as [Hd | [Hs | [d' Hd']]]; [now left | now right; left |].
        right. right. eauto.
      * destruct (D2 w' wt' Hin) as [Hd | [Hs | Hf]]; [now left | | now right; right].
        destruct (C1 w' Hs) as [Hs1 | [d' Hd']]; [now right; left|].
        right. right. eauto.
Qed.

Section reach.
Variables (g : DiGraph) (n : node).

Lemma dijkstra_loop_sound fuel : forall dist seen fringe row,
  dijkstra_loop fuel g dist seen fringe = Ok row ->
  (forall m, mem_assoc m dist = true -> rtc (edge_rel g) n m) ->
  (forall x, In x fringe -> rtc (edge_rel g) n (snd x)) ->
  forall m, mem_assoc m row = true -> rtc (edge_rel g) n m.
Proof.
  induction fuel as [|fuel IH]; intros dist seen fringe row H Hd Hf.
  - destruct fringe as [|[d v] fringe]; simpl in H; [|discriminate].
    injection H as <-. exact Hd.
  - destruct fringe as [|[d v] fringe]; [simpl in H; injection H as <-; exact Hd|].
    rewrite dijkstra_loop_S in H. destruct (mem_assoc v dist) eqn:Ev.
    + apply (IH _ _ _ _ H Hd). intros x Hx. apply Hf. now right.
    + destruct (foldM (relax (dist ++ [(v, d)]) d) (succ_weights g v) (seen, fringe))
        as [[seen1 fringe1]|] eqn:E; [|discriminate].
      destruct (relax_fold_facts _ _ _ _ _ _ _ E) as (_ & B & _ & _).
      assert (Hv : rtc (edge_rel g) n v) by (apply (Hf (d, v)); now left).
      apply (IH _ _ _ _ H).
      * intros m. rewrite mem_assoc_app. intros [Hm | Hm]%orb_true_iff; [auto|].
        unfold mem_assoc in Hm. simpl in Hm. destruct (Nat.eqb m v) eqn:Em; [|discriminate].
        apply Nat.eqb_eq in Em. now subst m.
      * intros x Hx. destruct (B x Hx) as [Hx0 | [wt Hw]]; [apply Hf; now right|].
        eapply rtc_r; [exact Hv|]. apply succ_weights_edge. eauto.
Qed.

Lemma dijkstra_loop_complete fuel : forall dist seen fringe row,
  dijkstra_loop fuel g dist seen fringe = Ok row ->
  (forall v w, mem_assoc v dist = true -> has_edge g v w = true ->
               mem_assoc w dist = true \/ exists d', In (d', w) fringe) ->
  (forall w, mem_assoc w seen = true ->
             mem_assoc w dist = true \/ exists d', In (d', w) fringe) ->
  (forall v w, mem_assoc v row = true -> has_edge g v w = true -> mem_assoc w row = true) /\
  (forall m, mem_assoc m dist = true \/ (exists d', In (d', m) fringe) ->
             mem_assoc m row = true).
Proof.
  induction fuel as [|fuel IH]; intros dist seen fringe row H Hcl Hseen.
  - destruct fringe as [|[d v] fringe]; simpl in H; [|discriminate].
    injection H as <-. split.
    + intros v w Hv Hvw. destruct (Hcl v w Hv Hvw) as [Hw | [d' []]]. exact Hw.
    + intros m [Hm | [d' []]]. exact Hm.
  - destruct fringe as [|[d v] fringe].
    { simpl in H. injection H as <-. split.
      - intros v w Hv Hvw. destruct (Hcl v w Hv Hvw) as [Hw | [d' []]]. exact Hw.
      - intros m [Hm | [d' []]]. exact Hm. }
    rewrite dijkstra_loop_S in H. destruct (mem_assoc v dist) eqn:Ev.
    + assert (Hdrop : forall w, (exists d', In (d', w) ((d, v) :: fringe)) ->
                                mem_assoc w dist = true \/ exists d', In (d', w) fringe).
      { intros w [d' [[= <- <-] | Hin]]; [now left | right; eauto]. }
      destruct (IH _ _ _ _ H) as [Hclosed Hin].
      * intros a b Ha Hab. destruct (Hcl a b Ha Hab) as [Hb | Hb]; [now left | auto].
      * intros w Hw. destruct (Hseen w Hw) as [Hb | Hb]; [now left | auto].
      * split; [exact Hclosed|]. intros m [Hm | Hm]; [apply Hin; now left|].
        apply Hin. exact (Hdrop m Hm).
    + destruct (foldM (relax (dist ++ [(v, d)]) d) (succ_weights g v) (seen, fringe))
        as [[seen1 fringe1]|] eqn:E; [|discriminate].
      destruct (relax_fold_facts _ _ _ _ _ _ _ E) as (A & _ & C & D).
      assert (Hdrop : forall w, (exists d', In (d', w) ((d, v) :: fringe)) ->
                 mem_assoc w (dist ++ [(v, d)]) = true \/ exists d', In (d', w) fringe1).
      { intros w [d' [[= <- <-] | Hin]].
        - left. rewrite mem_assoc_app. unfold mem_assoc at 2. simpl.
          rewrite Nat.eqb_refl. apply orb_true_r.
        - right. exists d'. now apply A. }
      assert (Hold : forall w, mem_assoc w dist = true ->
                               mem_assoc w (dist ++ [(v, d)]) = true).
      { intros w Hw. rewrite mem_assoc_app, Hw. reflexivity. }
      assert (Hseen0 : forall w, mem_assoc w seen = true ->
                 mem_assoc w (dist ++ [(v, d)]) = true \/ exists d', In (d', w) fringe1).
      { intros w Hw. destruct (Hseen w Hw) as [Hb | Hb]; [left; auto | auto]. }
      destruct (IH _ _ _ _ H) as [Hclosed Hin].
      * intros a b. rewrite mem_assoc_app. intros [Ha | Ha]%orb_true_iff Hab.
        -- destruct (Hcl a b Ha Hab) as [Hb | Hb]; [left; auto | auto].
        -- unfold mem_assoc in Ha. simpl in Ha.
           destruct (Nat.eqb a v) eqn:Ea; [|discriminate]. apply Nat.eqb_eq in Ea. subst a.
           apply succ_weights_edge in Hab. destruct Hab as [wt Hwt].
           destruct (D b wt Hwt) as [Hb | [Hb | Hb]]; [now left | auto | now right].
      * intros w Hw. destruct (C w Hw) as [Hs | Hf]; [auto | now right].
      * split; [exact Hclosed|]. intros m [Hm | Hm]; [apply Hin; left; auto|].
        apply Hin. exact (Hdrop m Hm).
Qed.

Lemma single_source_reach row :
  single_source_dijkstra_path_length g n = Ok row ->
  forall m, mem_assoc m row = true <-> rtc (edge_rel g) n m.
Proof.
  unfold single_source_dijkstra_path_length. intros H m. split.
  - apply (dijkstra_loop_sound _ _ _ _ _ H).
    + intros k. discriminate.
    + intros x [<- | []]. simpl. apply rtc_refl.
  - destruct (dijkstra_loop_complete _ _ _ _ _ H) as [Hclosed Hin].
    + intros v w. discriminate.
    + intros w. unfold mem_assoc. simpl.
      destruct (Nat.eqb w n) eqn:E; [|discriminate]. apply Nat.eqb_eq in E. subst w.
      intros _. right. exists 0%Q. now left.
    + revert m. apply rtc_ind_r.
      * apply Hin. right. exists 0%Q. now left.
      * intros y z _ Hyz IH. exact (Hclosed _ _ IH Hyz).
Qed.
End reach.

(** X14.  After [importTree], [onSamePath] decides reachability in the
    imported graph: for two of its nodes the answer is [True] exactly when
    a directed path, possibly empty, leads from one of them to the other. *)
Theorem onSamePath_reachable (t : MultiCactusTree) (s : GreedyOutgroup) (source sink : node)
    (Himp : importTree t = Ok s)
    (Hsource : In source (nodes (dag s)))
    (Hsink : In sink (nodes (dag s))) :
  onSamePath (dmDirected s) source sink = true <->
  rtc (edge_rel (dag s)) source sink \/ rtc (edge_rel (dag s)) sink source.
Proof.
  destruct (importTree_Ok _ _ Himp) as (Hdag & _ & _ & _ & Hdmd & _).
  rewrite Hdag in *. destruct (all_pairs_rows _ _ Hdmd) as [Hk Hr].
  assert (Hrow : forall a b, In a (nodes (nxDg t)) ->
            match assoc a (dmDirected s) with
            | Some row => mem_assoc b row
            | None => false
            end = true <-> rtc (edge_rel (nxDg t)) a b).
  { intros a b Ha. apply Hk, mem_assoc_true in Ha. destruct Ha as [row Hrow].
    rewrite Hrow. apply single_source_reach, Hr, Hrow. }
  unfold onSamePath. rewrite orb_true_iff, (Hrow _ _ Hsource), (Hrow _ _ Hsink).
  reflexivity.
Qed.

Lemma onSamePath_reachable_witness :
  onSamePath (dmDirected ex_state) 4 5 = true <->
  rtc (edge_rel (dag ex_state)) 4 5 \/ rtc (edge_rel (dag ex_state)) 5 4.
Proof.
  apply (onSamePath_reachable ex_tree ex_state 4 5).
  - vm_compute. reflexivity.
  - simpl. auto 10.
  - simpl. auto 10.
Defined.

(** ** The acyclicity check is complete *)

Lemma no_pred_in_false es rest v :
  no_pred_in es rest v = false -> In v rest -> exists u, edge_in es rest u v.
Proof.
  unfold no_pred_in. intros H Hv. induction es as [|[[a b] d] es IH]; [discriminate|].
  simpl in H. apply andb_false_iff in H. destruct H as [H | H].
  - apply negb_false_iff, andb_true_iff in H. unfold e_dst, e_src in H. simpl in H.
    destruct H as [Hb%Nat.eqb_eq Ha]. subst b.
    apply existsb_exists in Ha. destruct Ha as (u & Hu & Hau%Nat.eqb_eq).
    exists a. repeat split; [exists d; now left | now rewrite Hau | exact Hv].
  - destruct (IH H) as (u & [d' Hd'] & Hu & _).
    exists u. repeat split; [exists d'; now right | exact Hu | exact Hv].
Qed.

(** Walking backwards in a relation without cycles never meets a node
    twice. *)
Lemma long_walk (R : relation node) (rest : list node) :
  (forall v, In v rest -> exists u, In u rest /\ R u v) ->
  (forall n, ~ tc R n n) ->
  forall k v, In v rest ->
    exists l, length l = k /\ incl l rest /\ List.NoDup l /\ forall x, In x l -> tc R x v.
Proof.
  intros Hpred Hac. induction k as [|k IH]; intros v Hv.
  - exists []. repeat split; [intros x [] | apply List.NoDup_nil | intros x []].
  - destruct (Hpred v Hv) as (u & Hu & Huv).
    destruct (IH u Hu) as (l & Hlen & Hincl & Hnd & Hl).
    exists (u :: l). repeat split.
    + simpl. now rewrite Hlen.
    + intros x [<- | Hx]; [exact Hu | exact (Hincl x Hx)].
    + apply List.NoDup_cons; [|exact Hnd]. intros Hin. exact (Hac u (Hl u Hin)).
    + intros x [<- | Hx]; [now apply tc_once|]. eapply tc_r; [exact (Hl x Hx) | exact Huv].
Qed.

Lemma find_source es r rest :
  (forall n, ~ tc (edge_in es (r :: rest)) n n) ->
  exists v, List.find (no_pred_in es (r :: rest)) (r :: rest) = Some v.
Proof.
  intros Hac. destruct (List.find _ _) as [v|] eqn:Ef; [eauto|]. exfalso.
  pose proof (find_none _ _ Ef) as Hnone.
  destruct (long_walk (edge_in es (r :: rest)) (r :: rest)) with
    (k := S (length (r :: rest))) (v := r) as (l & Hlen & Hincl & Hnd & _).
  - intros v Hv. destruct (no_pred_in_false _ _ _ (Hnone v Hv) Hv) as [u Hu].
    exists u. split; [exact (proj1 (proj2 Hu)) | exact Hu].
  - exact Hac.
  - now left.
  - pose proof (List.NoDup_incl_length Hnd Hincl) as Hle. rewrite Hlen in Hle. lia.
Qed.

Lemma filter_neq_length (rest : list node) (v : node) :
  In v rest -> length (List.filter (fun m => negb (Nat.eqb m v)) rest) < length rest.
Proof.
  induction rest as [|x rest IH]; [intros []|]. intros Hv. simpl.
  destruct (Nat.eqb x v) eqn:E; simpl.
  - pose proof (List.filter_length_le (fun m => negb (Nat.eqb m v)) rest) as Hle.
    apply Nat.lt_succ_r. exact Hle.
  - destruct Hv as [-> | Hv]; [now rewrite Nat.eqb_refl in E|]. specialize (IH Hv).
    apply -> Nat.succ_lt_mono. exact IH.
Qed.

Lemma peel_complete es fuel : forall rest,
  length rest <= fuel -> (forall n, ~ tc (edge_in es rest) n n) -> peel fuel es rest = true.
Proof.
  induction fuel as [|fuel IH]; intros [|r rest] Hlen Hac; try reflexivity.
  - simpl in Hlen. lia.
  - rewrite peel_S. destruct (find_source _ _ _ Hac) as [v Hv]. rewrite Hv.
    apply find_some in Hv. destruct Hv as [Hin _]. apply IH.
    + apply Nat.lt_succ_r. eapply Nat.lt_le_trans; [exact (filter_neq_length _ _ Hin) | exact Hlen].
    + intros n Hn. apply (Hac n). revert Hn. apply tc_mono.
      intros a b (Hd & Ha%In_filter_neq & Hb%In_filter_neq).
      repeat split; [exact Hd | apply Ha | apply Hb].
Qed.

(** A graph without directed cycle passes the check. *)
Lemma is_directed_acyclic_graph_complete g :
  acyclic g -> is_directed_acyclic_graph g = true.
Proof.
  intros Hac. unfold is_directed_acyclic_graph. apply peel_complete; [lia|].
  intros n Hn. apply (Hac n). revert Hn. apply tc_mono.
  intros a b (Hd & _ & _). apply has_edge_In. exact Hd.
Qed.

(** ** Edges of the graph and entries of the map *)

(** On an acyclic graph a pass never takes an edge away, and an entry that
    it adds to the map has its edge in the graph. *)
Lemma greedy_step_edges p st c st' :
  acyclic (dag (self st)) -> greedy_step p st c = Ok st' ->
  (forall u v, has_edge (dag (self st)) u v = true -> has_edge (dag (self st')) u v = true) /\
  (forall name sinkName d,
      In (sinkName, d) (og_list (ogMap (self st')) name) ->
      In (sinkName, d) (og_list (ogMap (self st)) name) \/
      (name = getName (mcTree (self st)) (fst (snd c)) /\
       sinkName = getName (mcTree (self st)) (snd (snd c)) /\
       has_edge (dag (self st')) (fst (snd c)) (snd (snd c)) = true)).
Proof.
  intros Hac Hstep.
  destruct (greedy_step_outcome _ _ _ _ Hstep) as
    [Hd Hm | s0 source sink dag1 _ Hd _ Hm | s0 source sink dag1 _ Hd _ _ Hm
     | s0 source sink dag1 Hno Hd Hm]; rewrite Hd, Hm.
  - split; [auto|]. intros name sinkName d Hin. now left.
  - split.
    + intros u v Huv. unfold dag1. rewrite has_edge_add_edge. unfold s0. now rewrite Huv.
    + intros name sinkName d. rewrite og_list_insert.
      destruct (decide _) as [<-|]; intros Hin; now left.
  - split.
    + intros u v Huv. unfold dag1. rewrite has_edge_add_edge. unfold s0. now rewrite Huv.
    + intros name sinkName d. rewrite og_list_insert.
      destruct (decide _) as [<-|]; [|intros Hin; now left].
      intros [Hin | [[= <- <-] | []]]%in_app_iff; [now left|].
      right. repeat split. unfold dag1. rewrite has_edge_add_edge, !Nat.eqb_refl.
      apply orb_true_r.
  - split; [|intros name sinkName d Hin; now left].
    intros u v Huv. rewrite has_edge_remove_edge. unfold dag1. rewrite has_edge_add_edge.
    unfold s0. rewrite Huv. simpl.
    destruct (Nat.eqb u source && Nat.eqb v sink) eqn:E; [|reflexivity]. exfalso.
    apply andb_true_iff in E. destruct E as [->%Nat.eqb_eq ->%Nat.eqb_eq].
    assert (Hyes : is_directed_acyclic_graph dag1 = true).
    { apply is_directed_acyclic_graph_complete, acyclic_add_present; assumption. }
    congruence.
Qed.

(** X15.  Started on an acyclic graph, [greedy] only adds edges: every edge
    of the graph before the run is an edge after it (the edge removed after
    a failed check is always the one just added), and every outgroup in the
    map after the run was in the map before or has its edge from the source
    to the outgroup in the graph. *)
Theorem greedy_only_adds_edges (p : GreedyParams) (s s' : GreedyOutgroup)
    (Hacyclic : acyclic (dag s))
    (Hrun : greedy p s = Ok s') :
  (forall u v, has_edge (dag s) u v = true -> has_edge (dag s') u v = true) /\
  (forall name sinkName d,
      In (sinkName, d) (og_list (ogMap s') name) ->
      In (sinkName, d) (og_list (ogMap s) name) \/
      exists source sink,
        getName (mcTree s) source = name /\ getName (mcTree s) sink = sinkName /\
        has_edge (dag s') source sink = true).
Proof.
  unfold greedy in Hrun.
  apply bind_Ok in Hrun. destruct Hrun as (st0 & Hinit & Hrun).
  apply bind_Ok in Hrun. destruct Hrun as (st & Hloop & Hrun).
  destruct (greedy_init_self _ _ _ Hinit) as (Hd0 & Hm0 & _ & _ & _ & Ht0).
  set (P := fun st1 : GreedyLoop =>
              acyclic (dag (self st1)) /\ mcTree (self st1) = mcTree s /\
              (forall u v, has_edge (dag s) u v = true ->
                           has_edge (dag (self st1)) u v = true) /\
              (forall name sinkName d,
                  In (sinkName, d) (og_list (ogMap (self st1)) name) ->
                  In (sinkName, d) (og_list (ogMap s) name) \/
                  exists source sink,
                    getName (mcTree s) source = name /\ getName (mcTree s) sink = sinkName /\
                    has_edge (dag (self st1)) source sink = true)).
  assert (Hinv : P st).
  { revert Hloop. unfold greedy_loop.
    apply (foldM_invariant P (greedy_step p) (orderedPairs s)).
    - intros s1 c s2 _ (Hac & Ht & Hedges & Hmap) Hstep.
      destruct (greedy_step_edges _ _ _ _ Hac Hstep) as [Hkeep Hnew].
      destruct (greedy_step_frame _ _ _ _ Hstep) as (_ & _ & _ & Ht2).
      split; [exact (greedy_step_acyclic _ _ _ _ Hac Hstep)|].
      split; [congruence|]. split; [auto|].
      intros name sinkName d Hin.
      destruct (Hnew _ _ _ Hin) as [Hold | (-> & -> & Hedge)].
      + destruct (Hmap _ _ _ Hold) as [H0 | (source & sink & H1 & H2 & H3)]; [now left|].
        right. exists source, sink. repeat split; auto.
      + right. rewrite Ht. eauto.
    - split; [now rewrite Hd0|]. split; [exact Ht0|]. split; [now rewrite Hd0|].
      intros name sinkName d Hin. left. now rewrite <- Hm0. }
  destruct Hinv as (_ & _ & Hedges & Hmap).
  injection Hrun as <-. simpl. split; [exact Hedges|].
  intros name sinkName d. rewrite og_list_sorted. intros Hin.
  apply (Permutation_in _ (sorted_perm snd _)) in Hin. exact (Hmap _ _ _ Hin).
Qed.

Lemma greedy_only_adds_edges_witness :
  (forall u v, has_edge (dag ex_state) u v = true -> has_edge (dag ex_state_run1) u v = true) /\
  (forall name sinkName d,
      In (sinkName, d) (og_list (ogMap ex_state_run1) name) ->
      In (sinkName, d) (og_list (ogMap ex_state) name) \/
      exists source sink,
        getName (mcTree ex_state) source = name /\ getName (mcTree ex_state) sink = sinkName /\
        has_edge (dag ex_state_run1) source sink = true).
Proof.
  apply (greedy_only_adds_edges (ex_params_free 2) ex_state ex_state_run1).
  - apply is_directed_acyclic_graph_sound. vm_compute. reflexivity.
  - vm_compute. reflexivity.
Defined.

(** ** Bounds of the branch conservation *)

Lemma qmax_cases a b : (qmax a b == a /\ b <= a)%Q \/ (qmax a b == b /\ a <= b)%Q.
Proof.
  unfold qmax. destruct (Qle_bool a b) eqn:E.
  - right. split; [reflexivity | now apply Qle_bool_iff].
  - left. split; [reflexivity|]. apply Qnot_lt_le. intros Hlt.
    apply Qlt_le_weak, Qle_bool_iff in Hlt. congruence.
Qed.

(** X16.  With sequence lengths that are not negative, a default branch
    length that is not negative and an exponential with values in [0, 1] on
    the non-positive numbers, [__computeBranchConservation] returns at most
    1; what it returns is a probability (not negative) when the number of
    extra fragments of the node does not exceed the total length of the
    root. *)
Theorem computeBranchConservation_bounds (exp : Q -> Q) (st : DynamicOutgroup)
    (s : DPScratch) (n : node) (nodeInfo : SeqInfo) (c : Q)
    (Hexp : forall x, (x <= 0 -> 0 <= exp x /\ exp x <= 1)%Q)
    (Hdefault : (0 <= defaultBranchLength st)%Q)
    (Hinfo : sequenceInfo st !! n = Some nodeInfo)
    (Hlen : (0 <= totalLen nodeInfo)%Z)
    (Hroot : (0 <= totalLen (rootSeqInfo s))%Z)
    (Hrun : computeBranchConservation exp st s n = Ok c) :
  (c <= 1)%Q /\
  ((count nodeInfo - count (rootSeqInfo s) <= totalLen (rootSeqInfo s))%Z -> (0 <= c)%Q).
Proof.
  unfold computeBranchConservation in Hrun. rewrite Hinfo in Hrun. simpl in Hrun.
  destruct (totalLen (rootSeqInfo s) =? 0)%Z eqn:Ez; [discriminate|].
  apply Z.eqb_neq in Ez. injection Hrun as <-.
  set (r := inject_Z (totalLen (rootSeqInfo s))).
  assert (Hr : (0 < r)%Q).
  { unfold r. change 0%Q with (inject_Z 0). rewrite <- Zlt_Qlt. lia. }
  set (m := Z.max 0 (count nodeInfo - count (rootSeqInfo s))).
  match goal with
  | |- context [exp (Qopp ?b)] => set (bl := b)
  end.
  assert (Hbl : (0 <= bl)%Q).
  { unfold bl. destruct (getParent (dpTree s) n) as [p|]; [|exact Hdefault].
    destruct (getWeight (dpTree s) p n) as [b|]; [|exact Hdefault].
    destruct (Qltb b 0 || Qle_bool 1 b) eqn:E; [exact Hdefault|].
    apply orb_false_iff in E. destruct E as [E _]. unfold Qltb in E.
    apply negb_false_iff, Qle_bool_iff in E. exact E. }
  assert (He : (0 <= exp (- bl) /\ exp (- bl) <= 1)%Q).
  { apply Hexp. lra. }
  set (e := exp (- bl)%Q) in *.
  assert (Hfrac : (0 <= inject_Z (totalLen nodeInfo) / r)%Q).
  { apply Qle_shift_div_l; [exact Hr|]. rewrite Qmult_0_l.
    change 0%Q with (inject_Z 0). rewrite <- Zle_Qle. exact Hlen. }
  set (lenFrac := (inject_Z (totalLen nodeInfo) / r)%Q) in *.
  assert (Hfrag : (0 <= inject_Z m / r)%Q).
  { apply Qle_shift_div_l; [exact Hr|]. rewrite Qmult_0_l.
    change 0%Q with (inject_Z 0). rewrite <- Zle_Qle. unfold m. lia. }
  assert (Hfrag1 : (count nodeInfo - count (rootSeqInfo s) <= totalLen (rootSeqInfo s))%Z ->
                   (inject_Z m / r <= 1)%Q).
  { intros Hle. apply Qle_shift_div_r; [exact Hr|]. rewrite Qmult_1_l.
    unfold r. rewrite <- Zle_Qle. unfold m. lia. }
  set (pFrag := (inject_Z m / r)%Q) in *.
  assert (HA : (0 <= 1 - qmax 0 (1 - lenFrac) /\ 1 - qmax 0 (1 - lenFrac) <= 1)%Q).
  { destruct (qmax_cases 0 (1 - lenFrac)) as [[-> H] | [-> H]]; lra. }
  set (A := (1 - qmax 0 (1 - lenFrac))%Q) in *.
  set (C := (1 - ((3 # 4) - (3 # 4) * e))%Q).
  assert (HC : (0 <= C /\ C <= 1)%Q) by (unfold C; lra).
  set (B := (1 - pFrag)%Q).
  assert (HB : (B <= 1)%Q) by (unfold B; lra).
  assert (HAC : (0 <= A * C /\ A * C <= 1)%Q) by nra.
  split.
  - assert (Heq : (A * B * C == A * C * B)%Q) by ring. rewrite Heq.
    assert (Hpos : (0 <= (A * C) * (1 - B))%Q) by (apply Qmult_le_0_compat; lra).
    nra.
  - intros Hle. specialize (Hfrag1 Hle).
    assert (HB0 : (0 <= B)%Q) by (unfold B; lra).
    assert (Heq : (A * B * C == A * C * B)%Q) by ring. rewrite Heq.
    apply Qmult_le_0_compat; lra.
Qed.

Lemma computeBranchConservation_bounds_witness :
  exists c, computeBranchConservation dp_exp dp_state dp_scratch_init 3 = Ok c /\
            (c <= 1)%Q /\ (0 <= c)%Q.
Proof.
  exists (2200 # 4608)%Q.
  assert (Hrun : computeBranchConservation dp_exp dp_state dp_scratch_init 3
                 = Ok (2200 # 4608)%Q) by (vm_compute; reflexivity).
  split; [exact Hrun|].
  destruct (computeBranchConservation_bounds dp_exp dp_state dp_scratch_init 3
              {| count := 2; totalLen := 10 |} (2200 # 4608)%Q) as [Hle Hge].
  - intros x _. unfold dp_exp. split; discriminate.
  - vm_compute. discriminate.
  - vm_compute. reflexivity.
  - simpl. lia.
  - vm_compute. discriminate.
  - exact Hrun.
  - split; [exact Hle|]. apply Hge. vm_compute. discriminate.
Defined.

(** ** The greedy assigner returns *)

(** *** Keys of the tables *)

Lemma mem_assoc_keys {A} k (l : list (node * A)) :
  mem_assoc k l = true <-> In k (map fst l).
Proof.
  unfold mem_assoc. induction l as [|[k' a] l IH]; simpl; [split; [discriminate | intros []]|].
  destruct (Nat.eqb k k') eqn:E.
  - apply Nat.eqb_eq in E. subst. split; [now left | reflexivity].
  - apply Nat.eqb_neq in E. rewrite IH. split; [now right|]. intros [H | H]; congruence.
Qed.

Lemma keys_set_assoc {A} k (a : A) l :
  map fst (set_assoc k a l) = if mem_assoc k l then map fst l else map fst l ++ [k].
Proof.
  unfold mem_assoc. induction l as [|[k' a'] l IH]; simpl; [reflexivity|].
  destruct (Nat.eqb k k') eqn:E; simpl.
  - apply Nat.eqb_eq in E. now subst.
  - rewrite IH. destruct (assoc k l); reflexivity.
Qed.

Lemma NoDup_snoc {A} (l : list A) x : List.NoDup l -> ~ In x l -> List.NoDup (l ++ [x]).
Proof.
  intros Hl Hx. apply List.NoDup_app; [exact Hl | repeat constructor; intros [] |].
  intros y Hy [<- | []]. exact (Hx Hy).
Qed.

Lemma NoDup_set_assoc {A} k (a : A) l :
  List.NoDup (map fst l) -> List.NoDup (map fst (set_assoc k a l)).
Proof.
  intros Hl. rewrite keys_set_assoc. destruct (mem_assoc k l) eqn:E; [exact Hl|].
  apply NoDup_snoc; [exact Hl|]. rewrite <- mem_assoc_keys. congruence.
Qed.

Lemma NoDup_keys_assoc {A} k (a : A) l :
  List.NoDup (map fst l) -> In (k, a) l -> assoc k l = Some a.
Proof.
  induction l as [|[k' a'] l IH]; [intros _ []|]. simpl. intros Hnd Hin.
  inversion Hnd as [|? ? Hk' Hl]; subst. destruct Hin as [[= -> ->] | Hin].
  - now rewrite Nat.eqb_refl.
  - destruct (Nat.eqb k k') eqn:E; [|exact (IH Hl Hin)].
    apply Nat.eqb_eq in E. subst k'. exfalso. apply Hk'.
    apply (in_map fst) in Hin. exact Hin.
Qed.

Lemma dijkstra_loop_NoDup fuel g : forall dist seen fringe row,
  dijkstra_loop fuel g dist seen fringe = Ok row ->
  List.NoDup (map fst dist) -> List.NoDup (map fst row).
Proof.
  induction fuel as [|fuel IH]; intros dist seen fringe row H Hnd.
  - destruct fringe as [|[d v] fringe]; simpl in H; [|discriminate]. now injection H as <-.
  - destruct fringe as [|[d v] fringe]; [simpl in H; now injection H as <-|].
    rewrite dijkstra_loop_S in H. destruct (mem_assoc v dist) eqn:Ev; [exact (IH _ _ _ _ H Hnd)|].
    destruct (foldM (relax (dist ++ [(v, d)]) d) (succ_weights g v) (seen, fringe))
      as [[seen1 fringe1]|]; [|discriminate].
    apply (IH _ _ _ _ H). rewrite map_app. simpl.
    apply NoDup_snoc; [exact Hnd|]. rewrite <- mem_assoc_keys. congruence.
Qed.

Lemma all_pairs_NoDup g tbl :
  all_pairs_dijkstra_path_length g = Ok tbl -> List.NoDup (map fst tbl).
Proof.
  unfold all_pairs_dijkstra_path_length.
  apply (foldM_invariant (fun tbl : dtable => List.NoDup (map fst tbl))); [|constructor].
  intros acc n acc' _ Hacc Hn.
  destruct (single_source_dijkstra_path_length g n); [|discriminate].
  injection Hn as <-. now apply NoDup_set_assoc.
Qed.

(** An entry of the table of distances is the result of the search from
    its row. *)
Lemma all_pairs_entry g tbl a row b d :
  all_pairs_dijkstra_path_length g = Ok tbl -> In (a, row) tbl -> In (b, d) row ->
  In a (nodes g) /\ rtc (edge_rel g) a b /\ assoc a tbl = Some row /\ assoc b row = Some d.
Proof.
  intros Htbl Hrow Hbd. destruct (all_pairs_rows _ _ Htbl) as [Hk Hr].
  pose proof (NoDup_keys_assoc _ _ _ (all_pairs_NoDup _ _ Htbl) Hrow) as Ha.
  pose proof (Hr _ _ Ha) as Hss.
  split; [apply Hk; unfold mem_assoc; now rewrite Ha|].
  split; [apply (single_source_reach _ _ _ Hss), (In_mem_assoc _ _ _ Hbd)|].
  split; [exact Ha|]. apply NoDup_keys_assoc; [|exact Hbd].
  exact (dijkstra_loop_NoDup _ _ _ _ _ _ Hss (List.NoDup_nil _)).
Qed.

(** *** Nodes of the candidate pairs *)

Lemma Graph_edge_nodes g u v :
  has_edge (Graph g) u v = true -> In u (nodes (Graph g)) /\ In v (nodes (Graph g)).
Proof.
  unfold Graph.
  set (f := fun acc e => add_edge (add_edge acc (e_src e) (e_dst e) (e_data e))
                                  (e_dst e) (e_src e) (e_data e)).
  set (P := fun acc : DiGraph =>
              forall u v, has_edge acc u v = true -> In u (nodes acc) /\ In v (nodes acc)).
  assert (Hadd : forall acc a b d, P acc -> P (add_edge acc a b d)).
  { intros acc a b d Hacc x y. rewrite has_edge_add_edge, !nodes_add_edge.
    intros [Hxy | [->%Nat.eqb_eq ->%Nat.eqb_eq]%andb_true_iff]%orb_true_iff; [|tauto].
    destruct (Hacc _ _ Hxy). tauto. }
  assert (Hgen : forall l acc, P acc -> P (fold_left f l acc)).
  { induction l as [|e l IH]; intros acc Hacc; simpl; [exact Hacc|].
    apply IH. unfold f. now apply Hadd, Hadd. }
  revert u v. apply Hgen. intros u v. discriminate.
Qed.

Lemma rtc_in_nodes g a b :
  (forall u v, has_edge g u v = true -> In v (nodes g)) ->
  In a (nodes g) -> rtc (edge_rel g) a b -> In b (nodes g).
Proof.
  intros Hg Ha Hab. induction Hab as [|x y z Hxy _ IH]; [exact Ha|].
  apply IH. exact (Hg _ _ Hxy).
Qed.

Lemma orderedPairs_rows s d a b :
  In (d, (a, b)) (orderedPairs s) -> exists row, In (a, row) (dm s) /\ In (b, d) row.
Proof.
  unfold orderedPairs. intros Hc. apply (Permutation_in _ (sorted_perm fst _)) in Hc.
  apply in_concat in Hc. destruct Hc as (l & Hl & Hc).
  apply in_map_iff in Hl. destruct Hl as ([source row] & <- & Hrow).
  simpl in Hc. apply in_concat in Hc. destruct Hc as (l' & Hl' & Hc).
  apply in_map_iff in Hl'. destruct Hl' as ([sink d'] & <- & Hsd). simpl in Hc.
  destruct (negb (Nat.eqb source (root s)) && negb (Nat.eqb sink (root s))); [|destruct Hc].
  destruct Hc as [[= <- <- <-] | []]. eauto.
Qed.

(** After [importTree] the two nodes of a candidate pair are nodes of the
    tree, and the pair has one distance. *)
Lemma imported_pairs t s d a b :
  wf_graph (nxDg t) = true -> importTree t = Ok s -> In (d, (a, b)) (orderedPairs s) ->
  In a (nodes (nxDg t)) /\ In b (nodes (nxDg t)) /\
  forall d', In (d', (a, b)) (orderedPairs s) -> d' = d.
Proof.
  intros Hwf Himp Hc.
  destruct (importTree_Ok _ _ Himp) as (_ & _ & _ & _ & _ & Hdm).
  destruct (orderedPairs_rows _ _ _ _ Hc) as (row & Hrow & Hbd).
  destruct (all_pairs_entry _ _ _ _ _ _ Hdm Hrow Hbd) as (Ha & Hab & Har & Hbr).
  split; [now apply (nodes_Graph _ _ Hwf)|]. split.
  - apply (nodes_Graph _ _ Hwf). apply (rtc_in_nodes _ a); [|exact Ha | exact Hab].
    intros u v Huv. exact (proj2 (Graph_edge_nodes _ _ _ Huv)).
  - intros d' Hc'. destruct (orderedPairs_rows _ _ _ _ Hc') as (row' & Hrow' & Hbd').
    destruct (all_pairs_entry _ _ _ _ _ _ Hdm Hrow' Hbd') as (_ & _ & Har' & Hbr').
    congruence.
Qed.

(** *** The height table is total on an acyclic graph *)

Lemma acyclic_depth g n : acyclic g -> depth_le g n (S (length (all_nodes g))).
Proof.
  intros Hac.
  assert (Hgen : forall k anc m,
             List.NoDup anc -> incl anc (all_nodes g) ->
             (forall a, In a anc -> tc (edge_rel g) a m) ->
             length (all_nodes g) < length anc + k -> depth_le g m k).
  { induction k as [|k IH]; intros anc m Hnd Hincl Hanc Hlen.
    - pose proof (List.NoDup_incl_length Hnd Hincl). lia.
    - constructor. intros c Hmc. apply (IH (m :: anc)).
      + apply List.NoDup_cons; [|exact Hnd]. intros Hin. exact (Hac m (Hanc m Hin)).
      + intros x [<- | Hx]; [|exact (Hincl x Hx)].
        apply has_edge_In in Hmc. destruct Hmc as [d Hd]. unfold all_nodes.
        apply in_or_app. right. apply in_or_app. left.
        apply (in_map e_src) in Hd. exact Hd.
      + intros x [<- | Hx]; [now apply tc_once|]. eapply tc_r; [exact (Hanc x Hx) | exact Hmc].
      + simpl. lia. }
  apply (Hgen _ [] n); [apply List.NoDup_nil | intros x [] | intros x [] | simpl; lia].
Qed.

Lemma foldM_returns_all {A S} (f : S -> A -> result S) (l : list A) :
  (forall x, In x l -> forall s, exists s', f s x = Ok s') ->
  forall s, exists s', foldM f l s = Ok s'.
Proof.
  induction l as [|x l IH]; intros Hf s; cbn [foldM]; [eauto|].
  destruct (Hf x (or_introl eq_refl) s) as [s1 ->].
  apply IH. intros y Hy. apply Hf. now right.
Qed.

Lemma heightTable_fold_defined fuel dag kids : forall ht ht1,
  foldM (fun ht i => heightTable fuel dag i ht) kids ht = Ok ht1 ->
  (forall m, is_Some (ht !! m) -> is_Some (ht1 !! m)) /\
  (forall k, In k kids -> is_Some (ht1 !! k)).
Proof.
  induction kids as [|k kids IH]; intros ht ht1 H; cbn [foldM] in H.
  - injection H as <-. split; [auto | intros k []].
  - destruct (heightTable fuel dag k ht) as [ht2|] eqn:E; [|discriminate].
    destruct (heightTable_defined _ _ _ _ _ E) as [Hmono Hreach].
    destruct (IH _ _ H) as [Hmono' Hkids]. split; [auto|].
    intros k' [<- | Hin]; [|auto]. apply Hmono', Hreach, rtc_refl.
Qed.

Lemma gather_returns (ht : gmap node Z) l :
  (forall c, In c l -> is_Some (ht !! c)) ->
  forall acc, exists hs,
    foldM (fun acc i => h ← from_option KeyError (ht !! i); Ok (acc ++ [h])) l acc = Ok hs.
Proof.
  intros Hl. apply foldM_returns_all. intros c Hc acc.
  destruct (Hl c Hc) as [h ->]. simpl. eauto.
Qed.

Lemma heightTable_returns fuel g n :
  depth_le g n fuel -> forall ht, exists ht', heightTable fuel g n ht = Ok ht'.
Proof.
  induction 1 as [n k _ IH]. intros ht. cbn [heightTable].
  destruct (map snd (out_edges g n)) as [|c cs] eqn:Ecs; [eauto|].
  destruct (foldM_returns_all (fun ht i => heightTable k g i ht) (c :: cs)) with (s := ht)
    as [ht1 Hfold].
  { intros x Hx. apply IH. rewrite <- Ecs in Hx. now apply out_edges_children in Hx. }
  rewrite Hfold. simpl.
  destruct (gather_returns ht1 (c :: cs)) with (acc := @nil Z) as [hs Hhs].
  { exact (proj2 (heightTable_fold_defined _ _ _ _ _ Hfold)). }
  simpl in Hhs. rewrite Hhs. simpl. eauto.
Qed.

(** *** One pass returns *)

Lemma dict_get_spec k l :
  mem_name k (map fst l) = true -> exists d, dict_get k l = Some d /\ In (k, d) l.
Proof.
  unfold mem_name. induction l as [|[k' d'] l IH]; [discriminate|]. simpl.
  destruct (existsb (String.eqb k) (map fst l)) eqn:E.
  - intros _. destruct (IH eq_refl) as (d & -> & Hin). exists d. split; [reflexivity | now right].
  - rewrite orb_false_r. intros Hk. destruct (dict_get k l) as [d|] eqn:Eg.
    + exists d. split; [reflexivity|]. right.
      clear -Eg. induction l as [|[k2 d2] l IH]; [discriminate|]. simpl in Eg.
      destruct (dict_get k l) as [d3|].
      * injection Eg as <-. right. now apply IH.
      * destruct (String.eqb k k2) eqn:E2; [|discriminate].
        apply String.eqb_eq in E2. injection Eg as <-. subst. now left.
    + rewrite Hk. exists d'. split; [reflexivity|]. apply String.eqb_eq in Hk. subst. now left.
Qed.

Lemma greedy_step_returns p st c :
  is_Some (htable st !! fst (snd c)) -> is_Some (htable st !! snd (snd c)) ->
  (forall d', In (getName (mcTree (self st)) (snd (snd c)), d')
                 (og_list (ogMap (self st)) (getName (mcTree (self st)) (fst (snd c)))) ->
              d' = fst c) ->
  exists st', greedy_step p st c = Ok st'.
Proof.
  intros [hs Hs] [hk Hk] Hdist. unfold greedy_step.
  destruct (inCandidateSet (mcTree (self st)) (candidateMap (self st)) (snd (snd c))
              (candidateChildFrac p)) as [isCand cmap].
  destruct isCand; simpl; [|eauto].
  assert (Hover : exists over, exceeds_threshold (threshold p) (htable st)
                                 (fst (snd c)) (snd (snd c)) = Ok over).
  { unfold exceeds_threshold. destruct (threshold p); [|eauto]. rewrite Hk, Hs. simpl. eauto. }
  destruct Hover as [over ->]. simpl. destruct over; [eauto|].
  match goal with
  | |- exists st', (if ?b then _ else _) = _ => destruct b; [|eauto]
  end.
  match goal with
  | |- exists st', (if ?b then _ else _) = _ => destruct b; [|eauto]
  end.
  rewrite Hs, Hk. simpl.
  match goal with
  | |- exists st', (if ?b then _ else _) = _ => destruct b eqn:Emem; [|eauto]
  end.
  destruct (dict_get_spec _ _ Emem) as (d' & -> & Hin). simpl.
  rewrite (Hdist d' Hin). rewrite (proj2 (Qeq_bool_iff _ _) (Qeq_refl _)). simpl. eauto.
Qed.

Lemma greedy_step_htable p st c st' :
  greedy_step p st c = Ok st' ->
  forall n, is_Some (htable st !! n) -> is_Some (htable st' !! n).
Proof.
  unfold greedy_step. intros H n Hn.
  assert (Hins : forall v, is_Some (<[fst (snd c) := v]> (htable st) !! n)).
  { intros v. rewrite lookup_insert. destruct (decide _); [eauto | exact Hn]. }
  destruct (inCandidateSet (mcTree (self st)) (candidateMap (self st)) (snd (snd c))
              (candidateChildFrac p)) as [isCand cmap].
  destruct isCand; simpl in H.
  2:{ injection H as <-. exact Hn. }
  apply bind_Ok in H. destruct H as (over & _ & H).
  destruct over.
  { injection H as <-. exact Hn. }
  match type of H with
  | (if ?b then _ else _) = _ => destruct b
  end.
  2:{ injection H as <-. exact Hn. }
  match type of H with
  | (if ?b then _ else _) = _ => destruct b
  end.
  2:{ injection H as <-. exact Hn. }
  apply bind_Ok in H. destruct H as (hs & _ & H).
  apply bind_Ok in H. destruct H as (hk & _ & H).
  match type of H with
  | (if ?b then _ else _) = _ => destruct b
  end.
  - apply bind_Ok in H. destruct H as (d & _ & H).
    apply bind_Ok in H. destruct H as (u & _ & H).
    injection H as <-. apply Hins.
  - injection H as <-. apply Hins.
Qed.

(** An entry that a pass adds to the map is the pair of the pass. *)
Lemma greedy_step_origin p st c st' :
  greedy_step p st c = Ok st' ->
  forall name sinkName d,
    In (sinkName, d) (og_list (ogMap (self st')) name) ->
    In (sinkName, d) (og_list (ogMap (self st)) name) \/
    (name = getName (mcTree (self st)) (fst (snd c)) /\
     sinkName = getName (mcTree (self st)) (snd (snd c)) /\ d = fst c).
Proof.
  intros Hstep name sinkName d.
  destruct (greedy_step_outcome _ _ _ _ Hstep) as
    [_ Hm | s0 source sink dag1 _ _ _ Hm | s0 source sink dag1 _ _ _ _ Hm
     | s0 source sink dag1 _ _ Hm]; rewrite Hm; try (intros Hin; now left).
  - rewrite og_list_insert. destruct (decide _) as [<-|]; intros Hin; now left.
  - rewrite og_list_insert. destruct (decide _) as [<-|]; [|intros Hin; now left].
    intros [Hin | [[= <- <-] | []]]%in_app_iff; [now left|]. right. repeat split.
Qed.

Lemma foldM_returns {A S} (P : S -> Prop) (f : S -> A -> result S) (l : list A) :
  (forall s x, In x l -> P s -> exists s', f s x = Ok s' /\ P s') ->
  forall s, P s -> exists s', foldM f l s = Ok s' /\ P s'.
Proof.
  induction l as [|x l IH]; intros Hf s Hs; cbn [foldM]; [eauto|].
  destruct (Hf s x (or_introl eq_refl) Hs) as (s1 & -> & Hs1).
  apply IH; [|exact Hs1]. intros s0 y Hy. apply Hf. now right.
Qed.

(** X17.  After [importTree] of a tree whose edges join nodes of the tree,
    that has no directed cycle, whose nodes can all be reached from the
    root and have distinct names, [greedy] returns for all parameters: no
    lookup in the height table fails, the recursion of [heightTable] ends
    and no assertion fails. *)
Theorem greedy_returns (p : GreedyParams) (t : MultiCactusTree) (s : GreedyOutgroup)
    (Hwf : wf_graph (nxDg t) = true)
    (Hacyclic : acyclic (nxDg t))
    (Hreach : forall n, In n (nodes (nxDg t)) -> rtc (edge_rel (nxDg t)) (rootId t) n)
    (Hnames : Inj (=) (=) (getName t))
    (Himp : importTree t = Ok s) :
  exists s', greedy p s = Ok s'.
Proof.
  destruct (importTree_Ok _ _ Himp) as (Hdag & Htree & Hroot & Hmap & _ & _).
  unfold greedy.
  assert (Hinit : exists st0, greedy_init p s = Ok st0 /\
                    forall n, In n (nodes (nxDg t)) -> is_Some (htable st0 !! n)).
  { unfold greedy_init. rewrite Hdag, Hroot.
    destruct (heightTable_returns _ _ (rootId t) (acyclic_depth (nxDg t) _ Hacyclic) ∅)
      as [ht Hht].
    rewrite Hht. simpl. eexists. split; [reflexivity|]. simpl.
    intros n Hn. exact (proj2 (heightTable_defined _ _ _ _ _ Hht) n (Hreach n Hn)). }
  destruct Hinit as (st0 & Hinit & Hht0). rewrite Hinit. simpl.
  destruct (greedy_init_self _ _ _ Hinit) as (_ & Hm0 & _ & _ & _ & Ht0).
  set (P := fun st : GreedyLoop =>
              mcTree (self st) = t /\
              (forall n, In n (nodes (nxDg t)) -> is_Some (htable st !! n)) /\
              forall name sinkName d,
                In (sinkName, d) (og_list (ogMap (self st)) name) ->
                exists a b, getName t a = name /\ getName t b = sinkName /\
                            In (d, (a, b)) (orderedPairs s)).
  destruct (foldM_returns P (greedy_step p) (orderedPairs s)) with (s := st0)
    as (st & Hloop & _).
  - intros st [d [a b]] Hc (Ht & Hht & Hmapst).
    destruct (imported_pairs _ _ _ _ _ Hwf Himp Hc) as (Ha & Hb & Hfun).
    destruct (greedy_step_returns p st (d, (a, b))) as [st' Hstep].
    + exact (Hht a Ha).
    + exact (Hht b Hb).
    + simpl. rewrite Ht. intros d' Hin.
      destruct (Hmapst _ _ _ Hin) as (a' & b' & Ha' & Hb' & Hc').
      apply Hnames in Ha', Hb'. subst a' b'. exact (Hfun d' Hc').
    + exists st'. split; [exact Hstep|].
      destruct (greedy_step_frame _ _ _ _ Hstep) as (_ & _ & _ & Ht').
      split; [congruence|]. split.
      * intros n Hn. exact (greedy_step_htable _ _ _ _ Hstep n (Hht n Hn)).
      * intros name sinkName d0 Hin.
        destruct (greedy_step_origin _ _ _ _ Hstep _ _ _ Hin) as [Hold | (-> & -> & ->)];
          [exact (Hmapst _ _ _ Hold)|].
        simpl. rewrite Ht. exists a, b. repeat split. exact Hc.
  - split; [congruence|]. split; [exact Hht0|].
    intros name sinkName d. rewrite Hm0, Hmap. unfold og_list. rewrite lookup_empty.
    intros [].
  - unfold greedy_loop. rewrite Hloop. simpl. eauto.
Qed.

Lemma greedy_returns_witness : exists s', greedy (ex_params (Some 1%Z)) ex_state = Ok s'.
Proof.
  apply (greedy_returns (ex_params (Some 1%Z)) ex_tree ex_state).
  - vm_compute. reflexivity.
  - apply is_directed_acyclic_graph_sound. vm_compute. reflexivity.
  - intros n Hn.
    eapply (single_source_reach ex_graph 0); [vm_compute; reflexivity|].
    simpl in Hn. destruct Hn as [<- | [<- | [<- | [<- | [<- | [<- | []]]]]]];
      vm_compute; reflexivity.
  - apply pretty_nat_inj.
  - vm_compute. reflexivity.
Defined.

(** ** The dynamic programme on the example tree *)

(** C2.  On the example the working tree for the ancestor 1 is the chain
    1 -> 0 -> 2, so node 0 has the single child 2 and the only split of the
    budget 1 with one leaf is [k1 = 1].  The formula of the specification
    gives [1 - (1 - branchProbs[2] * DPTable[2][1].score)], which is the
    branch conservation of the leaf 2 (25/96 with the stand-in for the
    exponential, about 0.35 with [math.exp]); the entry that [__dpRun]
    stores has the score 1, because [lossProb] starts from 0 and the
    product stays 0. *)
Theorem dp_score_ignores_branch_conservation :
  dpInit dp_exp dp_state 1 = Ok dp_scratch_init /\
  dpRun 6 1 1 dp_scratch_init = Ok dp_scratch_run /\
  getChildren (dpTree dp_scratch_run) 0 = [2] /\
  exists e e2 bp,
    dp_get (dpTable dp_scratch_run) 0 1 = Ok e /\
    dp_get (dpTable dp_scratch_run) 2 1 = Ok e2 /\
    branchProbs dp_scratch_run !! 2 = Some bp /\
    solution e = [2] /\ solution e2 = [2] /\
    (1 - (1 - bp * score e2) == 25 # 96)%Q /\
    (score e == 1)%Q /\
    ~ (score e == 1 - (1 - bp * score e2))%Q.
Proof.
  split; [vm_compute; reflexivity|]. split; [vm_compute; reflexivity|].
  split; [vm_compute; reflexivity|].
  eexists _, _, _.
  split; [vm_compute; reflexivity|]. split; [vm_compute; reflexivity|].
  split; [vm_compute; reflexivity|].
  split; [reflexivity|]. split; [reflexivity|].
  split; [vm_compute; reflexivity|]. split; [vm_compute; reflexivity|].
  vm_compute. discriminate.
Qed.

(** C3.  After the run for the ancestor 1 the entries of the leaf 2 are as
    specified (score 0 at index 0, score 1 with the leaf at index 1), and
    every score is 0 or 1; but the entry 0 of the two nodes with children,
    0 and 1, has the score 1 and not 0: the allocation of all zeros yields
    a conservation of 1 - 0, which is larger than the initial 0. *)
Theorem dp_internal_entry_zero_scores_one :
  dpInit dp_exp dp_state 1 = Ok dp_scratch_init /\
  dpRun 6 1 1 dp_scratch_init = Ok dp_scratch_run /\
  dp_get (dpTable dp_scratch_run) 2 0 = Ok {| score := 0; solution := [] |} /\
  dp_get (dpTable dp_scratch_run) 2 1 = Ok {| score := 1; solution := [2] |} /\
  getChildren (dpTree dp_scratch_run) 0 <> [] /\
  getChildren (dpTree dp_scratch_run) 1 <> [] /\
  exists e0 e1,
    dp_get (dpTable dp_scratch_run) 0 0 = Ok e0 /\
    dp_get (dpTable dp_scratch_run) 1 0 = Ok e1 /\
    (score e0 == 1)%Q /\ (score e1 == 1)%Q /\
    ~ (score e0 == 0)%Q /\ ~ (score e1 == 0)%Q.
Proof.
  split; [vm_compute; reflexivity|]. split; [vm_compute; reflexivity|].
  split; [vm_compute; reflexivity|]. split; [vm_compute; reflexivity|].
  split; [vm_compute; discriminate|]. split; [vm_compute; discriminate|].
  eexists _, _.
  split; [vm_compute; reflexivity|]. split; [vm_compute; reflexivity|].
  split; [vm_compute; reflexivity|]. split; [vm_compute; reflexivity|].
  split; vm_compute; discriminate.
Qed.

(** ** Sequence statistics of a directory *)

(** C6.  The sequences of the leaf 2 are in the directory "d2" with the
    files "a" (one record of length 10) and "b" (one record of length 5):
    two records of total length 15.  After [importTree] the leaf has the
    statistics of the file "b" alone, and the root, whose longest leaf is
    then the leaf 4 with 12, has the total length 12 and not 15. *)
Theorem directory_statistics_of_last_file :
  dyn_importTree dp_fs 1 dp_tree dp_seqMap = Ok dp_state /\
  dp_fs "d2" = Some (FsDir ["a"; "b"]) /\
  dp_fs (path_join "d2" "a") = Some (FsFile [("s1", "ACGTACGTAC")]) /\
  dp_fs (path_join "d2" "b") = Some (FsFile [("s2", "ACGTA")]) /\
  file_stats ([("s1", "ACGTACGTAC")] ++ [("s2", "ACGTA")]) = (2, 15)%Z /\
  file_stats [("s2", "ACGTA")] = (1, 5)%Z /\
  sequenceInfo dp_state !! 2 = Some {| count := 1; totalLen := 5 |} /\
  sequenceInfo dp_state !! 2 <> Some {| count := 2; totalLen := 15 |} /\
  sequenceInfo dp_state !! 0 = Some {| count := 1; totalLen := 12 |}.
Proof.
  split; [vm_compute; reflexivity|]. split; [reflexivity|].
  split; [vm_compute; reflexivity|]. split; [vm_compute; reflexivity|].
  split; [vm_compute; reflexivity|]. split; [vm_compute; reflexivity|].
  split; [vm_compute; reflexivity|]. split; [vm_compute; discriminate|].
  vm_compute. reflexivity.
Qed.

(** ** The map after [compute] *)

Lemma compute_node_map exp st n st' :
  compute_node exp st n = Ok st' ->
  d_mcTree st' = d_mcTree st /\
  (isLeaf (d_mcTree st) n = true -> d_ogMap st' = d_ogMap st) /\
  (isLeaf (d_mcTree st) n = false ->
   exists l, d_ogMap st' = <[getName (d_mcTree st) n := OgNodes l]> (d_ogMap st)).
Proof.
  unfold compute_node. destruct (isLeaf (d_mcTree st) n) eqn:Eleaf.
  - intros [= <-]. split; [reflexivity|]. split; [reflexivity | discriminate].
  - intros H. apply bind_Ok in H. destruct H as (s0 & _ & H).
    apply bind_Ok in H. destruct H as (s1 & _ & H).
    apply bind_Ok in H. destruct H as (e & _ & H).
    injection H as <-. simpl. split; [reflexivity|]. split; [discriminate|].
    intros _. eauto.
Qed.

Lemma compute_fold_map exp l : forall st st',
  foldM (compute_node exp) l st = Ok st' ->
  d_mcTree st' = d_mcTree st /\
  (forall name, is_Some (d_ogMap st' !! name) <->
                is_Some (d_ogMap st !! name) \/
                exists n, In n l /\ isLeaf (d_mcTree st) n = false /\
                          getName (d_mcTree st) n = name) /\
  (forall name v, d_ogMap st' !! name = Some v ->
                  d_ogMap st !! name = Some v \/ exists ogs, v = OgNodes ogs).
Proof.
  induction l as [|n l IH]; intros st st' H; cbn [foldM] in H.
  - injection H as <-. split; [reflexivity|]. split.
    + intros name. split; [now left|]. intros [Hs | (n & [] & _)]. exact Hs.
    + intros name v Hv. now left.
  - destruct (compute_node exp st n) as [st1|] eqn:E; [|discriminate].
    destruct (compute_node_map _ _ _ _ E) as (Ht1 & Hleaf & Hinner).
    destruct (IH _ _ H) as (Ht & Hdom & Hval). rewrite Ht1 in Ht, Hdom.
    split; [exact Ht|].
    destruct (isLeaf (d_mcTree st) n) eqn:Eleaf.
    + rewrite (Hleaf eq_refl) in Hdom, Hval. split; [|exact Hval].
      intros name. rewrite Hdom. split.
      * intros [Hs | (m & Hm & Hl & Hname)]; [now left|].
        right. exists m. split; [now right|]. split; assumption.
      * intros [Hs | (m & [Hmn | Hm] & Hl & Hname)]; [now left | subst m; congruence |].
        right. exists m. split; [exact Hm|]. split; assumption.
    + destruct (Hinner eq_refl) as [ogs Hmap]. rewrite Hmap in Hdom, Hval. split.
      * intros name. rewrite Hdom, lookup_insert. split.
        -- intros [Hs | (m & Hm & Hl & Hname)].
           ++ destruct (decide (getName (d_mcTree st) n = name)) as [Hname|Hname].
              ** right. exists n. split; [now left|]. split; assumption.
              ** now left.
           ++ right. exists m. split; [now right|]. split; assumption.
        -- intros [Hs | (m & [Hmn | Hm] & Hl & Hname)].
           ++ left. destruct (decide (getName (d_mcTree st) n = name)); [eauto | exact Hs].
           ++ subst m. left. rewrite decide_True by exact Hname. eauto.
           ++ right. exists m. split; [exact Hm|]. split; assumption.
      * intros name v Hv. destruct (Hval _ _ Hv) as [Hold | Hnew]; [|now right].
        rewrite lookup_insert in Hold.
        destruct (decide (getName (d_mcTree st) n = name)); [|now left].
        injection Hold as <-. right. eauto.
Qed.

(** C10.  [compute] replaces the outgroup map: its result is the one it
    gives on the empty map, whatever the map held before.  After the call
    the map has an entry exactly for the names of the nodes of the
    traversal that are not leaves, and each entry is a list of nodes
    written by the dynamic programme; an assignment that was there before
    the call is not preserved. *)
Theorem compute_replaces_map (exp : Q -> Q) (st st' : DynamicOutgroup)
    (Hrun : compute exp st = Ok st') :
  compute exp (set_d_ogMap st ∅) = Ok st' /\
  (forall name,
      is_Some (d_ogMap st' !! name) <->
      exists n, In n (breadthFirstTraversal (d_mcTree st) (rootId (d_mcTree st))) /\
                isLeaf (d_mcTree st) n = false /\ getName (d_mcTree st) n = name) /\
  (forall name v, d_ogMap st' !! name = Some v -> exists ogs, v = OgNodes ogs).
Proof.
  split; [exact Hrun|]. unfold compute in Hrun.
  destruct (compute_fold_map _ _ _ _ Hrun) as (_ & Hdom & Hval). simpl in Hdom, Hval.
  split.
  - intros name. rewrite Hdom, lookup_empty. split.
    + intros [[v Hv] | H]; [discriminate | exact H].
    + intros H. now right.
  - intros name v Hv. destruct (Hval _ _ Hv) as [Hold | Hnew]; [|exact Hnew].
    rewrite lookup_empty in Hold. discriminate.
Qed.

Lemma compute_replaces_map_witness :
  exists st',
    compute dp_exp (set_d_ogMap dp_state
                      {[ "1"%string := OgPairs [("2"%string, 1%Q)];
                         "2"%string := OgPairs [("1"%string, 1%Q)] ]}) = Ok st' /\
    d_ogMap st' !! "2"%string = None /\
    d_ogMap st' !! "1"%string = Some (OgNodes [2]) /\
    (forall name v, d_ogMap st' !! name = Some v -> exists ogs, v = OgNodes ogs).
Proof.
  set (prior := set_d_ogMap dp_state
                  {[ "1"%string := OgPairs [("2"%string, 1%Q)];
                     "2"%string := OgPairs [("1"%string, 1%Q)] ]}).
  destruct (compute dp_exp prior) as [st'|] eqn:E; [|vm_compute in E; discriminate].
  exists st'. split; [reflexivity|].
  destruct (compute_replaces_map dp_exp prior st' E) as (_ & _ & Hval).
  split; [|split; [|exact Hval]].
  - vm_compute in E. injection E as <-. vm_compute. reflexivity.
  - vm_compute in E. injection E as <-. vm_compute. reflexivity.
Defined.
